(** * forward-domain: the resolution-and-caching pipeline

    A shallow embedding of [src/util.js] (policy maps, TXT and CAA record
    handling, URL joining) and of the request listener with its cache
    ([buildCache], [listener]), followed by the properties of the
    specification that were checked against it.

    Conventions of the embedding.
    - A JavaScript string is a [string]: a sequence of characters up to
      U+00FF, which is what a header decoded as Latin-1 holds.  Host names,
      DNS record data and URLs are ASCII in practice.
    - A JavaScript number is an integer of [Z] where the code computes with
      integers.  That is exact for the safe integers, up to 2^53 in
      absolute value; beyond them the source rounds.
    - A JavaScript object used as a dictionary is a [gmap string _] of its
      own properties; a missing key ([undefined]) is [None].  All keys
      looked up below are either fixed record parameters or start with a
      dot, so no property of [Object.prototype] is ever read; the one key
      whose assignment [Object.prototype] intercepts is [__proto__].
    - [null] and [undefined] results are [None].
    - A thrown [Error] is the [Throw] outcome of the small monad [M]; the
      module-level variables are the fields of [State]. *)

From Stdlib Require Import ZArith Ascii String Bool Lia.
From stdpp Require Import base option list strings gmap.

Local Open Scope Z_scope.

(** ** JavaScript string primitives *)

Module JS.

(** The characters up to U+00FF that [toLowerCase] changes: [A] to [Z]
    and the capitals from U+00C0 to U+00DE, the multiplication sign
    U+00D7 apart; each has its small letter 32 places on. *)
Definition isUpper (c : ascii) : bool :=
  let n := N_of_ascii c in
  (N.leb 65 n && N.leb n 90)%N
  || (N.leb 192 n && N.leb n 222 && negb (N.eqb n 215))%N.

Definition lowerChar (c : ascii) : ascii :=
  if isUpper c then ascii_of_N (N_of_ascii c + 32) else c.

(** [s.toLowerCase()] *)
Fixpoint toLowerCase (s : string) : string :=
  match s with
  | EmptyString => EmptyString
  | String c s' => String (lowerChar c) (toLowerCase s')
  end.

(** White space removed by [trim]: TAB, LF, VT, FF, CR, SPACE and the
    no-break space U+00A0. *)
Definition isSpace (c : ascii) : bool :=
  let n := N_of_ascii c in (N.leb 9 n && N.leb n 13)%N || N.eqb n 32 || N.eqb n 160.

Fixpoint allSpace (s : string) : bool :=
  match s with
  | EmptyString => true
  | String c s' => isSpace c && allSpace s'
  end.

Fixpoint trimStart (s : string) : string :=
  match s with
  | EmptyString => EmptyString
  | String c s' => if isSpace c then trimStart s' else s
  end.

Fixpoint trimEnd (s : string) : string :=
  match s with
  | EmptyString => EmptyString
  | String c s' => if allSpace s then EmptyString else String c (trimEnd s')
  end.

(** [s.trim()] *)
Definition trim (s : string) : string := trimEnd (trimStart s).

(** [s.slice(n)] for an index [n >= 0]: the string from index [n] on. *)
Fixpoint slice (n : nat) (s : string) : string :=
  match n, s with
  | O, _ => s
  | S n', EmptyString => EmptyString
  | S n', String _ s' => slice n' s'
  end.

(** [s.split(sep)] for a one-character separator; never the empty list. *)
Fixpoint split (sep : ascii) (s : string) : list string :=
  match s with
  | EmptyString => [EmptyString]
  | String c s' =>
      if Ascii.eqb c sep then EmptyString :: split sep s'
      else match split sep s' with
           | h :: t => String c h :: t
           | [] => [String c EmptyString]
           end
  end.

(** [l.join(sep)] *)
Fixpoint join (sep : string) (l : list string) : string :=
  match l with
  | [] => EmptyString
  | [x] => x
  | x :: l' => x +:+ sep +:+ join sep l'
  end.

(** [s.startsWith(p)] *)
Fixpoint startsWith (p s : string) : bool :=
  match p, s with
  | EmptyString, _ => true
  | String a p', String b s' => Ascii.eqb a b && startsWith p' s'
  | String _ _, EmptyString => false
  end.

(** [s.endsWith(c)] for a one-character string [c]. *)
Fixpoint endsWithChar (c : ascii) (s : string) : bool :=
  match s with
  | EmptyString => false
  | String a EmptyString => Ascii.eqb a c
  | String _ s' => endsWithChar c s'
  end.

(** [s.slice(0, -1)]: the string without its last character. *)
Fixpoint dropLast (s : string) : string :=
  match s with
  | EmptyString => EmptyString
  | String _ EmptyString => EmptyString
  | String a s' => String a (dropLast s')
  end.

(** [s.indexOf(c, from)], with [None] for the result [-1]. *)
Fixpoint indexOf (c : ascii) (from : nat) (s : string) : option nat :=
  match s with
  | EmptyString => None
  | String a s' =>
      match from with
      | O => if Ascii.eqb a c then Some O else S <$> indexOf c O s'
      | S from' => S <$> indexOf c from' s'
      end
  end.

Definition isDigit (c : ascii) : bool :=
  let n := N_of_ascii c in (N.leb 48 n && N.leb n 57)%N.

Fixpoint allDigits (s : string) : bool :=
  match s with
  | EmptyString => true
  | String c s' => isDigit c && allDigits s'
  end.

(** Truthiness of a string: only the empty string is falsy. *)
Definition truthy (s : string) : bool :=
  match s with EmptyString => false | _ => true end.

(** Truthiness of a value that may be [undefined]. *)
Definition truthyOpt (o : option string) : bool :=
  match o with Some s => truthy s | None => false end.

(** [o || d] for a string [o] that may be [undefined]. *)
Definition orElse (o : option string) (d : string) : string :=
  match o with Some s => if truthy s then s else d | None => d end.

Fixpoint allSlashes (s : string) : bool :=
  match s with
  | EmptyString => true
  | String c s' => Ascii.eqb c "/"%char && allSlashes s'
  end.

(** [s.replace(/\/+$/, '')]: the leftmost position from which only slashes
    (at least one) remain up to the end is where the match starts. *)
Fixpoint stripTrailingSlashes (s : string) : string :=
  match s with
  | EmptyString => EmptyString
  | String c s' => if allSlashes s then EmptyString else String c (stripTrailingSlashes s')
  end.

(** [s.replace(/^\/+/, '')] *)
Fixpoint stripLeadingSlashes (s : string) : string :=
  match s with
  | EmptyString => EmptyString
  | String c s' => if Ascii.eqb c "/"%char then stripLeadingSlashes s' else s
  end.

(** [s.replace(/:\d+$/, '')]: the match starts at the leftmost colon that is
    followed by one or more digits and then the end of the string. *)
Fixpoint stripPort (s : string) : string :=
  match s with
  | EmptyString => EmptyString
  | String c s' =>
      if Ascii.eqb c ":"%char && truthy s' && allDigits s' then EmptyString
      else String c (stripPort s')
  end.

(** The number of occurrences of [c], as [[...s].filter(x => x === c).length]. *)
Fixpoint count (c : ascii) (s : string) : Z :=
  match s with
  | EmptyString => 0
  | String a s' => (if Ascii.eqb a c then 1 else 0) + count c s'
  end.

(** [s.length] *)
Definition length (s : string) : Z := Z.of_nat (String.length s).

Definition digitValue (c : ascii) : Z := Z.of_N (N_of_ascii c) - 48.

(** The value of the longest prefix of decimal digits, [acc] being the value
    read so far and [seen] telling whether a digit was read; [None] is [NaN]. *)
Fixpoint digits (s : string) (seen : bool) (acc : Z) : option Z :=
  match s with
  | String c s' =>
      if isDigit c then digits s' true (10 * acc + digitValue c)
      else if seen then Some acc else None
  | EmptyString => if seen then Some acc else None
  end.

(** [parseInt(s, 10)]: leading white space, an optional sign, then the
    longest prefix of decimal digits; [None] is [NaN]. *)
Definition parseInt10 (s : string) : option Z :=
  match trimStart s with
  | String "-" s' => Z.opp <$> digits s' false 0
  | String "+" s' => digits s' false 0
  | s' => digits s' false 0
  end.

Definition hexValue (c : ascii) : option Z :=
  let n := N_of_ascii c in
  if isDigit c then Some (Z.of_N n - 48)
  else if (N.leb 97 n && N.leb n 102)%N then Some (Z.of_N n - 87)
  else if (N.leb 65 n && N.leb n 70)%N then Some (Z.of_N n - 55)
  else None.

Fixpoint hexDigits (s : string) (seen : bool) (acc : Z) : option Z :=
  match s with
  | String c s' =>
      match hexValue c with
      | Some v => hexDigits s' true (16 * acc + v)
      | None => if seen then Some acc else None
      end
  | EmptyString => if seen then Some acc else None
  end.

Definition unsignedInt (s : string) : option Z :=
  match s with
  | String "0" (String "x" r) => hexDigits r false 0
  | String "0" (String "X" r) => hexDigits r false 0
  | _ => digits s false 0
  end.

(** [parseInt(s)]: as [parseInt10], but a [0x] prefix selects radix 16. *)
Definition parseInt (s : string) : option Z :=
  match trimStart s with
  | String "-" s' => Z.opp <$> unsignedInt s'
  | String "+" s' => unsignedInt s'
  | s' => unsignedInt s'
  end.

End JS.

(** ** PolicyMatcher ([src/util.js], lines 10-91) *)

Abbreviation PolicyMap := (gmap string bool).

Definition dot : ascii := "."%char.

(** The [while] loop of [findDotPositions]: [index] is the position of the
    dot found last, [None] when [indexOf] answered [-1].  Every round moves
    [index] strictly to the right, so [fuel] bounds the number of rounds;
    [None] is returned only when the fuel runs out. *)
Fixpoint findDotPositions_loop (fuel : nat) (str : string)
    (index : option nat) (dotPositions : list nat) : option (list nat) :=
  match index with
  | None => Some dotPositions
  | Some i =>
      match fuel with
      | O => None
      | S fuel' =>
          findDotPositions_loop fuel' str (JS.indexOf dot (S i) str)
                                (dotPositions ++ [i])
      end
  end.

Definition findDotPositions (str : string) : list nat :=
  default []
    (findDotPositions_loop (S (String.length str)) str (JS.indexOf dot 0 str) []).

(** [labelPositions[i]] handed to [slice]: an index out of range reads
    [undefined], and [slice(undefined)] is the whole string. *)
Definition sliceAt (labelPositions : list nat) (i : nat) (s : string) : string :=
  JS.slice (default 0%nat (labelPositions !! i)) s.

(** The loop [for (let i = labelPositions.length; i-- > 0;)] of [csvToMap];
    the test [i-- > 0] hands [i - 1] to the body. *)
Fixpoint csvToMap_loop (host : string) (labelPositions : list nat) (i : nat)
    (acc : PolicyMap) : PolicyMap :=
  match i with
  | O => acc
  | S i' =>
      csvToMap_loop host labelPositions i'
        (<[sliceAt labelPositions i' host := Nat.eqb i' 0]> acc)
  end.

(** The callback of [reduce] in [csvToMap]. *)
Definition csvToMap_step (acc : PolicyMap) (host : string) : PolicyMap :=
  let host := JS.toLowerCase (JS.trim host) in
  let labelPositions := findDotPositions host in
  csvToMap_loop host labelPositions (List.length labelPositions) acc.

Definition csvToMap (str : string) : PolicyMap :=
  foldl csvToMap_step ∅ (JS.split ","%char str).

(** The loop of [isHostBlacklisted] over [blacklistMap] (lines 67-77). *)
Fixpoint blacklist_loop (blacklistMap : PolicyMap) (domain : string)
    (labelPositions : list nat) (i : nat) : bool :=
  match i with
  | O => false
  | S i' =>
      match blacklistMap !! sliceAt labelPositions i' domain with
      | Some false => blacklist_loop blacklistMap domain labelPositions i'
      | Some true => true
      | None => false
      end
  end.

(** The loop of [isHostBlacklisted] over [whitelistMap] (lines 79-89). *)
Fixpoint whitelist_loop (whitelistMap : PolicyMap) (domain : string)
    (labelPositions : list nat) (i : nat) : bool :=
  match i with
  | O => true
  | S i' =>
      match whitelistMap !! sliceAt labelPositions i' domain with
      | Some false => whitelist_loop whitelistMap domain labelPositions i'
      | Some true => false
      | None => true
      end
  end.

(** [process.env], as far as the pipeline reads it. *)
Record Env := {
  WHITELIST_HOSTS : option string;
  BLACKLIST_HOSTS : option string;
  BLACKLIST_REDIRECT : option string;
  HOME_DOMAIN : option string;
  CACHE_EXPIRY_SECONDS : option string;
}.

(** The module-level variables of [util.js]. *)
Record Policy := {
  blacklistMap : option PolicyMap;
  whitelistMap : option PolicyMap;
  blacklistRedirectUrl : option string;
}.

Definition policy0 : Policy :=
  {| blacklistMap := None; whitelistMap := None; blacklistRedirectUrl := None |}.

(** The first-call initialisation at the head of [isHostBlacklisted]. *)
Definition initPolicy (env : Env) (p : Policy) : Policy :=
  match blacklistMap p with
  | Some _ => p
  | None =>
      {| whitelistMap :=
           if JS.truthyOpt (WHITELIST_HOSTS env)
           then Some (csvToMap (JS.orElse (WHITELIST_HOSTS env) ""))
           else whitelistMap p;
         blacklistMap := Some (csvToMap (JS.orElse (BLACKLIST_HOSTS env) ""));
         blacklistRedirectUrl :=
           if JS.truthyOpt (BLACKLIST_REDIRECT env) then BLACKLIST_REDIRECT env
           else None |}
  end.

(** [isHostBlacklisted(domain)]: the answer and the module variables after
    the call. *)
Definition isHostBlacklisted (env : Env) (domain : string) (p : Policy)
    : bool * Policy :=
  let p := initPolicy env p in
  let labelPositions := findDotPositions domain in
  match whitelistMap p with
  | None =>
      (blacklist_loop (default ∅ (blacklistMap p)) domain labelPositions
                      (List.length labelPositions), p)
  | Some wl =>
      (whitelist_loop wl domain labelPositions (List.length labelPositions), p)
  end.

(** ** TXT and CAA records, URL joining ([src/util.js], lines 6-8, 96-214) *)

Definition recordParamDestUrl : string := "forward-domain".
Definition recordParamHttpStatus : string := "http-status".

(** The double quote, as a one-character string. *)
Definition dq : string := String (ascii_of_N 34) EmptyString.

(** [Some r] when [s] is [p] followed by [r]. *)
Fixpoint stripPrefix (p s : string) : option string :=
  match p, s with
  | EmptyString, _ => Some s
  | String a p', String b s' => if Ascii.eqb a b then stripPrefix p' s' else None
  | String _ _, EmptyString => None
  end.

(** What may follow [letsencrypt\.org] in [caaRegex]: the optional group
    [(;validationmethods=http-01)?], the back-reference [\1] (the quote when
    group 1 took part, nothing otherwise) and the end of the string. *)
Definition caaRegex_tail (quote : string) (r : string) : bool :=
  String.eqb r quote ||
  match stripPrefix ";validationmethods=http-01" r with
  | Some r' => String.eqb r' quote
  | None => false
  end.

(** [caaRegex.test(x)] for
    [/^0 issue (Q)?letsencrypt\.org(;validationmethods=http-01)?\1$/],
    where Q stands for the double quote: a match exists iff one of the two
    choices for the optional group 1 leads to one. *)
Definition caaRegex_test (x : string) : bool :=
  match stripPrefix "0 issue " x with
  | None => false
  | Some r =>
      match stripPrefix dq r with
      | Some r1 =>
          match stripPrefix "letsencrypt.org" r1 with
          | Some r2 => caaRegex_tail dq r2
          | None => false
          end
      | None => false
      end
      ||
      match stripPrefix "letsencrypt.org" r with
      | Some r2 => caaRegex_tail "" r2
      | None => false
      end
  end.

(** A record of the [Answer] array of the DNS collaborator. *)
Record RR := { type : Z; data : string }.

(** [issueRecords] of [validateCAARecords]: the data of the records of
    type 257 whose data starts with [0 issue ]. *)
Definition caaIssueRecords (Answer : list RR) : list string :=
  data <$> filter (fun x => type x = 257 ∧ JS.startsWith "0 issue " (data x) = true) Answer.

(** The part of [validateCAARecords] after the request: [Answer] is
    [resolve.data.Answer], [None] when that field is missing. *)
Definition validateCAA_answer (Answer : option (list RR)) : option (list string) :=
  match Answer with
  | None => None
  | Some Answer =>
      let issueRecords := caaIssueRecords Answer in
      if (Nat.eqb (List.length issueRecords) 0 || existsb caaRegex_test issueRecords)%bool
      then None
      else Some issueRecords
  end.

(** [result[key] = value] on an object made by [{}], for a string
    [value]: the assignment adds or replaces an own property, except under
    the key [__proto__], where the setter of [Object.prototype] takes the
    value and, as it is a string, does nothing. *)
Definition assign (result : gmap string string) (key value : string)
    : gmap string string :=
  if String.eqb key "__proto__" then result else <[key := value]> result.

(** [parseTxtRecordData(value)] *)
Definition parseTxtRecordData_step (result : gmap string string) (part : string)
    : gmap string string :=
  match JS.split "="%char part with
  | key :: value =>
      if (JS.truthy key && Nat.ltb 0 (List.length value))%bool
      then assign result key (JS.join "=" value)
      else result
  | [] => result
  end.

Definition parseTxtRecordData (value : string) : gmap string string :=
  foldl parseTxtRecordData_step ∅ (JS.split ";"%char value).

(** The result of [findTxtRecord]; [httpStatus] is [undefined] when the
    record has no such parameter. *)
Record TxtRecord := { txt_url : string; txt_httpStatus : option string }.

(** The loop of [findTxtRecord] over [resolve.data.Answer]. *)
Fixpoint findTxt_loop (Answer : list RR) : option TxtRecord :=
  match Answer with
  | [] => None
  | head :: rest =>
      if negb (Z.eqb (type head) 16) then findTxt_loop rest
      else
        let txtData := parseTxtRecordData (data head) in
        match txtData !! recordParamDestUrl with
        | Some u =>
            if JS.truthy u
            then Some {| txt_url := u; txt_httpStatus := txtData !! recordParamHttpStatus |}
            else findTxt_loop rest
        | None => findTxt_loop rest
        end
  end.

(** The part of [findTxtRecord] after the request. *)
Definition findTxt_answer (Answer : option (list RR)) : option TxtRecord :=
  match Answer with
  | None => None
  | Some Answer => findTxt_loop Answer
  end.

(** [combineURLs(baseURL, relativeURL)] *)
Definition combineURLs (baseURL relativeURL : string) : string :=
  if negb (JS.truthy relativeURL) then baseURL
  else JS.stripTrailingSlashes baseURL +:+ "/" +:+ JS.stripLeadingSlashes relativeURL.

Definition isExceedLabelLimit (host : string) : bool := 10 <=? JS.count dot host.

Definition isExceedHostLimit (host : string) : bool := 64 <? JS.length host.

(** Modelled from the spec: [isHttpCodeAllowed], imported by the listener
    module from [util.js] but absent from the sources; section 4.2, step 7:
    the http-status field must be one of 301, 302, 307, 308. *)
Definition isHttpCodeAllowed (code : string) : bool :=
  existsb (String.eqb code) ["301"; "302"; "307"; "308"].

(** ** The cache and the listener ([buildCache], [listener]) *)

(** The typedef [Cache]; [httpStatus] is the number that [parseInt]
    answered, [None] standing for [NaN]. *)
Record Cache := {
  url : string;
  expand : bool;
  blacklisted : bool;
  expire : Z;
  httpStatus : option Z;
}.

(** What a slot of [resolveCache] holds: a decision, or the empty string
    that [/flushcache] writes over it. *)
Inductive CacheValue :=
| Entry (c : Cache)
| Sentinel.

(** [new LRUCache({ max: 10000 })]: the slots, most recently used first. *)
Abbreviation LRU := (list (string * CacheValue)).

Definition lru_max : nat := Z.to_nat 10000.

Fixpoint lru_peek (k : string) (c : LRU) : option CacheValue :=
  match c with
  | [] => None
  | (k', v) :: c' => if String.eqb k' k then Some v else lru_peek k c'
  end.

Fixpoint lru_remove (k : string) (c : LRU) : LRU :=
  match c with
  | [] => []
  | (k', v) :: c' => if String.eqb k' k then lru_remove k c' else (k', v) :: lru_remove k c'
  end.

(** [cache.get(k)]: a slot that is found becomes the most recently used. *)
Definition lru_get (k : string) (c : LRU) : option CacheValue * LRU :=
  match lru_peek k c with
  | Some v => (Some v, (k, v) :: lru_remove k c)
  | None => (None, c)
  end.

(** [cache.set(k, v)]: the slot becomes the most recently used; beyond
    [max] slots the least recently used one is dropped. *)
Definition lru_set (k : string) (v : CacheValue) (c : LRU) : LRU :=
  take lru_max ((k, v) :: lru_remove k c).

(** A thrown value, seen through [error?.message]. *)
Record JsError := { message : option string }.

Inductive Result (A : Type) :=
| Ok (a : A)
| Throw (e : JsError).
Arguments Ok {A} a.
Arguments Throw {A} e.

(** The module-level variables of both modules. *)
Record State := {
  resolveCache : LRU;
  policy : Policy;
}.

Definition state0 : State := {| resolveCache := []; policy := policy0 |}.

(** The effects of a request that the properties below speak about;
    [EvReqOn] is the installation of the ['data'] and ['end'] callbacks on
    the request by the [/flushcache] branch. *)
Inductive Event :=
| EvDns (name : string) (rrtype : Z)
| EvCacheSet (k : string) (v : CacheValue)
| EvSetHeader (k v : string)
| EvStatusCode (status : Z)
| EvWriteHead (status : Z) (headers : list (string * string))
| EvWrite (body : string)
| EvReqOn
| EvEnd.

(** The collaborators outside the two modules, as one request sees them:
    the environment, the DNS-over-HTTPS resolver ([request] of certnode,
    which fails with [inl] or answers with the [Answer] field, [None] when
    it is missing), [isIPv4]/[isIPv6] of [node:net], the two readings of
    [Date.now()], the certificate client, [encodeURIComponent],
    [querystring.parse(body).domain] and [validator.isFQDN].  [env] is
    [process.env] at the time of the request; [env_loaded] is [process.env]
    as it was when the module was loaded, which the constant
    [cacheExpirySeconds] was computed from, once for all requests of a
    process. *)
Record World := {
  env : Env;
  env_loaded : Env;
  dns : string → Z → JsError + option (list RR);
  isIPv4 : string → bool;
  isIPv6 : string → bool;
  now_listener : Z;
  now_buildCache : Z;
  challengeCallbacks : option string;
  getStat : string;
  encodeURIComponent : string → string;
  querystring_domain : string → option (string + list string);
  isFQDN : string → bool;
}.

(** Computations over the module variables that may throw and that log
    their effects. *)
Definition M (A : Type) : Type := State → Result A * State * list Event.

Definition ret {A} (a : A) : M A := fun st => (Ok a, st, []).

Definition throw {A} (msg : string) : M A :=
  fun st => (Throw {| message := Some msg |}, st, []).

Definition bind {A B} (m : M A) (k : A → M B) : M B :=
  fun st =>
    match m st with
    | (Ok a, st1, l1) =>
        match k a st1 with
        | (r, st2, l2) => (r, st2, l1 ++ l2)
        end
    | (Throw e, st1, l1) => (Throw e, st1, l1)
    end.

Notation "'let*' x ':=' m 'in' k" := (bind m (fun x => k))
  (at level 10, x pattern, m at level 200, k at level 200).

Definition emit (e : Event) : M unit := fun st => (Ok tt, st, [e]).

(** [await request(...)] on the resolver, for a record name and type.  The
    name travels in the query string under [encodeURIComponent], which the
    resolver undoes; the answer is [resolve.data.Answer]. *)
Definition request (w : World) (name : string) (rrtype : Z) : M (option (list RR)) :=
  fun st =>
    match dns w name rrtype with
    | inl e => (Throw e, st, [EvDns name rrtype])
    | inr Answer => (Ok Answer, st, [EvDns name rrtype])
    end.

Definition cache_get (k : string) : M (option CacheValue) :=
  fun st =>
    let '(v, c) := lru_get k (resolveCache st) in
    (Ok v, {| resolveCache := c; policy := policy st |}, []).

Definition cache_set (k : string) (v : CacheValue) : M unit :=
  fun st =>
    (Ok tt, {| resolveCache := lru_set k v (resolveCache st); policy := policy st |},
     [EvCacheSet k v]).

Definition isHostBlacklistedM (w : World) (domain : string) : M bool :=
  fun st =>
    let '(b, p) := isHostBlacklisted (env w) domain (policy st) in
    (Ok b, {| resolveCache := resolveCache st; policy := p |}, []).

Definition isIpAddress (w : World) (host : string) : bool :=
  isIPv4 w host || isIPv6 w host.

Definition validateCAARecords (w : World) (host : string) : M (option (list string)) :=
  let* Answer := request w host 257 in
  ret (validateCAA_answer Answer).

Definition findTxtRecord (w : World) (host : string) : M (option TxtRecord) :=
  let* Answer := request w ("_." +:+ host) 16 in
  ret (findTxt_answer Answer).

(** [parseInt(process.env.CACHE_EXPIRY_SECONDS, 10) || 86400] *)
Definition cacheExpirySeconds (e : Env) : Z :=
  match CACHE_EXPIRY_SECONDS e with
  | Some s =>
      match JS.parseInt10 s with
      | Some n => if n =? 0 then 86400 else n
      | None => 86400
      end
  | None => 86400
  end.

Definition acme_prefix : string := "/.well-known/acme-challenge/".

Definition MAX_DATA_SIZE : Z := 10 * 1024.

(** [buildCache(host)] *)
Definition buildCache (w : World) (host : string) : M Cache :=
  if isIpAddress w host then
    throw "unable to serve with direct IP address"
  else if isExceedHostLimit host then
    throw "Host name is too long (Must no more than 64 char)"
  else if isExceedLabelLimit host then
    throw "Host parts is too long (Must less than 10 dots)"
  else
    let* caaRecords := validateCAARecords w host in
    match caaRecords with
    | Some caaRecords =>
        throw ("CAA record is not " +:+ dq +:+ "letsencrypt.org" +:+ dq
               +:+ ". Records found: " +:+ JS.join "," caaRecords +:+ ".")
    | None =>
        let* recordData := findTxtRecord w host in
        match recordData with
        | None =>
            throw ("The TXT record data for " +:+ dq +:+ "_." +:+ host +:+ dq
                   +:+ " is missing")
        | Some recordData =>
            let url0 := txt_url recordData in
            let httpStatus0 := default "301" (txt_httpStatus recordData) in
            if negb (JS.startsWith "http://" url0) && negb (JS.startsWith "https://" url0)
            then
              throw ("The TXT record data for " +:+ dq +:+ "_." +:+ host +:+ dq
                     +:+ " is not an absolute URL")
            else
              let '(url1, expand1) :=
                if JS.endsWithChar "*" url0 then (JS.dropLast url0, true)
                else (url0, false) in
              if negb (isHttpCodeAllowed httpStatus0) then
                throw ("The record " +:+ dq +:+ url1 +:+ dq
                       +:+ " wants to use the http status code " +:+ httpStatus0
                       +:+ " which is not allowed (only 301, 302, 307 and 308)")
              else
                let* b := isHostBlacklistedM w host in
                ret {| url := url1;
                       expand := expand1;
                       blacklisted := b;
                       expire := now_buildCache w
                                 + cacheExpirySeconds (env_loaded w) * 1000;
                       httpStatus := JS.parseInt httpStatus0 |}
        end
    end.

(** An incoming request: [req.url], [req.headers.host], [req.method] and the
    chunks that the body stream delivers. *)
Record Request := {
  req_url : option string;
  req_host : option string;
  req_method : string;
  req_chunks : list string;
}.

(** The characters that Node accepts in the value of a header: TAB, the
    visible ASCII characters with the space, and those from U+0080 on. *)
Definition validHeaderChar (c : ascii) : bool :=
  let n := N_of_ascii c in
  (N.eqb n 9 || (N.leb 32 n && N.leb n 126) || N.leb 128 n)%N.

Fixpoint validHeaderValue (s : string) : bool :=
  match s with
  | EmptyString => true
  | String c s' => validHeaderChar c && validHeaderValue s'
  end.

(** The name of the first header whose value Node refuses. *)
Fixpoint invalidHeader (headers : list (string * string)) : option string :=
  match headers with
  | [] => None
  | (name, value) :: rest =>
      if validHeaderValue value then invalidHeader rest else Some name
  end.

(** The error of [writeHead] on a header value that Node refuses. *)
Definition invalidChar (name : string) : JsError :=
  {| message := Some ("Invalid character in header content [" +:+ dq +:+ name +:+ dq
                      +:+ "]") |}.

(** [res.writeHead(status, headers)]; Node refuses a status that is not a
    number from 100 to 999 with a [RangeError], whose message is shortened
    here, and then a header value that holds a character outside
    [validHeaderChar] with the [TypeError] [ERR_INVALID_CHAR]; nothing has
    been sent when it throws.  The header names of the listener are fixed
    and valid. *)
Definition writeHead (status : option Z) (headers : list (string * string)) : M unit :=
  match status with
  | Some n =>
      if (100 <=? n) && (n <=? 999) then
        match invalidHeader headers with
        | Some name => fun st => (Throw (invalidChar name), st, [])
        | None => emit (EvWriteHead n headers)
        end
      else throw "Invalid status code"
  | None => throw "Invalid status code"
  end.

Definition write (body : string) : M unit := emit (EvWrite body).

(** The branch [host === process.env.HOME_DOMAIN] of [listener]; the answer
    tells whether the branch returned ([true]) or fell through the [switch]
    to the forwarding code ([false]). *)
Definition homeDomain (w : World) (req : Request) (url' : string) : M bool :=
  let* _ := emit (EvSetHeader "Access-Control-Allow-Origin" "*") in
  let* _ := emit (EvSetHeader "Access-Control-Allow-Methods" "GET, OPTIONS") in
  let* _ := emit (EvSetHeader "Access-Control-Allow-Headers" "Content-Type") in
  let* _ := emit (EvSetHeader "Access-Control-Max-Age" "86400") in
  if String.eqb (req_method req) "OPTIONS" then
    let* _ := emit (EvStatusCode 204) in ret true
  else if String.eqb url' "/stat" then
    let* _ := writeHead (Some 200) [("Content-Type", "application/json")] in
    let* _ := write (getStat w) in ret true
  else if String.eqb url' "/health" then
    let* _ := writeHead (Some 200) [("Content-Type", "text/plain")] in
    let* _ := write "ok" in ret true
  else if String.eqb url' "/flushcache" then
    if String.eqb (req_method req) "POST" then
      let* _ := emit EvReqOn in
      let* _ := writeHead (Some 200) [("Content-Type", "text/plain")] in
      let* _ := write "Cache cleared" in ret true
    else
      let* _ := writeHead (Some 405) [("Content-Type", "text/plain")] in
      let* _ := write "Method Not Allowed" in ret true
  else ret false.

(** The decision that [listener] serves as it is: the value that
    [resolveCache.get] answered when the test
    [!cache || Date.now() > cache.expire] fails. *)
Definition fresh (now : Z) (cache : option CacheValue) : option Cache :=
  match cache with
  | Some (Entry c) => if now >? expire c then None else Some c
  | Some Sentinel | None => None
  end.

(** Lines 179-183 of [listener]: the cache lookup and, when the slot is
    missing, falsy or expired, the rebuild that overwrites it. *)
Definition resolve (w : World) (host : string) : M Cache :=
  let* cache := cache_get host in
  match fresh (now_listener w) cache with
  | Some cache => ret cache
  | None =>
      let* cache := buildCache w host in
      let* _ := cache_set host (Entry cache) in
      ret cache
  end.

Definition getPolicy : M Policy := fun st => (Ok (policy st), st, []).

(** Lines 184-198 of [listener]: the response for a decision. *)
Definition respond (w : World) (req : Request) (url' : string) (cache : Cache) : M unit :=
  if blacklisted cache then
    let* p := getPolicy in
    match blacklistRedirectUrl p with
    | Some redirectUrl =>
        writeHead (Some 302)
          [("Location", redirectUrl +:+ "?d="
                        +:+ encodeURIComponent w (default "undefined" (req_host req)))]
    | None =>
        let* _ := writeHead (Some 403) [] in
        write "Host is forbidden"
    end
  else
    writeHead (httpStatus cache)
      [("Location", if expand cache then combineURLs (url cache) url' else url cache)].

Definition forward (w : World) (req : Request) (url' host : string) : M unit :=
  let* cache := resolve w host in
  respond w req url' cache.

(** The host that [listener] works with. *)
Definition hostOf (req : Request) : string :=
  JS.stripPort (JS.toLowerCase (JS.orElse (req_host req) "")).

(** The [try] block of [listener]. *)
Definition listener_try (w : World) (req : Request) : M unit :=
  let url' := JS.orElse (req_url req) "" in
  if JS.startsWith acme_prefix url' then
    match challengeCallbacks w with
    | Some payload =>
        let* _ := writeHead (Some 200) [("content-type", "application/octet-stream")] in
        write payload
    | None => writeHead (Some 404) []
    end
  else
    let host := hostOf req in
    if negb (JS.truthy host) then
      let* _ := writeHead (Some 400) [] in
      write "Host header is required"
    else
      let* answered :=
        if decide (Some host = HOME_DOMAIN (env w)) then homeDomain w req url'
        else ret false in
      if answered then ret tt else forward w req url' host.

(** The [catch] block of [listener]: the status is 400 when the error has
    a message and 500 otherwise. *)
Definition error_response (error : JsError) : list Event :=
  let message' := message error in
  [EvWriteHead (if JS.truthyOpt message' then 400 else 500) [];
   EvWrite (JS.orElse message' "Unknown error")].

(** The [catch] and [finally] blocks of [listener], applied to the outcome
    of the [try] block. *)
Definition finish (out : Result unit * State * list Event) : State * list Event :=
  match out with
  | (Ok _, st', l) => (st', l ++ [EvEnd])
  | (Throw error, st', l) => (st', l ++ error_response error ++ [EvEnd])
  end.

(** [listener(req, res)] up to the end of its [finally] block: the module
    variables and the effects, in order. *)
Definition listener (w : World) (req : Request) (st : State) : State * list Event :=
  finish (listener_try w req st).

(** The ['data'] callback of the [/flushcache] branch over the chunks of
    the body, in order: [totalSize], [body] and whether [req.destroy()]
    was called, after which the stream delivers nothing more. *)
Fixpoint onData (chunks : list string) (totalSize : Z) (body : string)
    : Z * string * bool :=
  match chunks with
  | [] => (totalSize, body, false)
  | chunk :: rest =>
      let totalSize := totalSize + JS.length chunk in
      if totalSize >? MAX_DATA_SIZE then (totalSize, body, true)
      else onData rest totalSize (body +:+ chunk)
  end.

(** The ['end'] callback of the [/flushcache] branch.  [validator.isFQDN]
    throws on a value that is not a string (a repeated [domain] field). *)
Definition onEnd (w : World) (totalSize : Z) (body : string) : M unit :=
  if totalSize <=? MAX_DATA_SIZE then
    match querystring_domain w body with
    | None => ret tt
    | Some (inr _) => throw "Expected a string but received a Array"
    | Some (inl domain) =>
        if negb (JS.truthy domain) then ret tt
        else if isFQDN w domain then
          let* cacheExists := cache_get domain in
          match cacheExists with
          | Some (Entry _) => cache_set domain Sentinel
          | Some Sentinel | None => ret tt
          end
        else ret tt
    end
  else ret tt.

Definition isReqOn (e : Event) : bool :=
  match e with EvReqOn => true | _ => false end.

(** One request from its arrival to the end of its body: [listener], then
    the callbacks it installed, if any. *)
Definition serve (w : World) (req : Request) (st : State) : State * list Event :=
  let '(st1, l1) := listener w req st in
  if existsb isReqOn l1 then
    match onData (req_chunks req) 0 "" with
    | (totalSize, body, false) =>
        let '(_, st2, l2) := onEnd w totalSize body st1 in (st2, l1 ++ l2)
    | (_, _, true) => (st1, l1)
    end
  else (st1, l1).

(** The states of a process: the initial one and those that serving a
    request leads to, whatever the collaborators answer. *)
Inductive reachable : State → Prop :=
| reachable_init : reachable state0
| reachable_serve w req st : reachable st → reachable (serve w req st).1.

(** ** Notions used to state the properties of the policy matcher *)

(** The positions of the dots of [str], counted from [i], in increasing
    order. *)
Fixpoint dotsFrom (i : nat) (str : string) : list nat :=
  match str with
  | EmptyString => []
  | String c s' =>
      if Ascii.eqb c dot then i :: dotsFrom (S i) s' else dotsFrom (S i) s'
  end.

(** The suffixes of [s] that start at a dot, the dot included, from the
    longest (most specific) to the shortest (least specific). *)
Fixpoint dotTails (s : string) : list string :=
  match s with
  | EmptyString => []
  | String c s' => if Ascii.eqb c dot then s :: dotTails s' else dotTails s'
  end.

(** [s] is a suffix of [h]. *)
Definition suffixOf (s h : string) : Prop := ∃ p, h = p +:+ s.

(** The keys that the loops of the policy matcher form for [h], in the
    order of [labelPositions]. *)
Definition policy_keys (h : string) : list string :=
  (fun p => JS.slice p h) <$> findDotPositions h.

(** The walk as the specification words it: over the suffixes from most
    specific to least specific, past a suffix without an entry or with the
    entry [false], stopping with a match at the entry [true]. *)
Fixpoint spec_walk (m : PolicyMap) (suffixes : list string) : bool :=
  match suffixes with
  | [] => false
  | s :: rest =>
      match m !! s with
      | Some true => true
      | Some false | None => spec_walk m rest
      end
  end.

(** The walk of the two loops of [isHostBlacklisted], over the suffixes in
    the order in which [i] visits them: [Some true] at the first entry
    [true], [Some false] at the first missing entry, [None] when every
    suffix holds [false]. *)
Fixpoint code_walk (m : PolicyMap) (suffixes : list string) : option bool :=
  match suffixes with
  | [] => None
  | s :: rest =>
      match m !! s with
      | Some true => Some true
      | Some false => code_walk m rest
      | None => Some false
      end
  end.

(** The module variables of [util.js] are untouched, or were initialised
    from the environment [e]. *)
Definition policy_of (e : Env) (p : Policy) : Prop :=
  p = policy0 ∨ p = initPolicy e policy0.

(** What the loop of [csvToMap] leaves in the map for one host whose
    dot-suffixes are [tails], the most specific first: [false] at every
    suffix but the first, then [true] at the first. *)
Definition mark_tails (tails : list string) (acc : PolicyMap) : PolicyMap :=
  match tails with
  | [] => acc
  | t :: rest => <[t := true]> (foldr (fun k a => <[k := false]> a) acc rest)
  end.

(** Every key of [m] starts at a dot and has all its own dot-suffixes among
    the keys of [m]. *)
Definition suffix_closed (m : PolicyMap) : Prop :=
  ∀ k, is_Some (m !! k) → k ∈ dotTails k ∧ ∀ t, t ∈ dotTails k → is_Some (m !! t).

(** ** Notions used to state the properties of the records *)

(** The [issue] values that permit the accepted issuer: the authority name
    [letsencrypt.org], bare or in double quotes, with or without the
    qualifier [;validationmethods=http-01]. *)
Definition caa_permitted : list string :=
  ["0 issue letsencrypt.org";
   "0 issue letsencrypt.org;validationmethods=http-01";
   "0 issue " +:+ dq +:+ "letsencrypt.org" +:+ dq;
   "0 issue " +:+ dq +:+ "letsencrypt.org;validationmethods=http-01" +:+ dq].

(** An [issue] record of the CAA answer, as [validateCAARecords] selects
    them. *)
Definition isIssueRecord (x : RR) : Prop :=
  type x = 257 ∧ JS.startsWith "0 issue " (data x) = true.

(** A record of the answer from which [findTxtRecord] takes its result: a
    TXT record whose parsed data has the value [u], not empty, under the
    key [forward-domain]. *)
Definition carries (x : RR) (u : string) : Prop :=
  type x = 16 ∧ parseTxtRecordData (data x) !! recordParamDestUrl = Some u ∧ u ≠ "".

(** A run of [n] slashes. *)
Fixpoint slashes (n : nat) : string :=
  match n with
  | O => EmptyString
  | S n' => String "/" (slashes n')
  end.

(** A header value that Node sends: each of its characters is TAB, or from
    the space to the tilde, or from U+0080 on. *)
Definition headerSafe (v : string) : Prop :=
  ∀ i c, String.get i v = Some c →
         (N_of_ascii c = 9 ∨ 32 ≤ N_of_ascii c ≤ 126 ∨ 128 ≤ N_of_ascii c)%N.

(** ** Notions used to state the properties of the listener *)

(** [!cache || Date.now() > cache.expire], for the value that
    [resolveCache.get] answered. *)
Definition needsBuild (now : Z) (cache : option CacheValue) : bool :=
  match cache with
  | Some (Entry c) => now >? expire c
  | Some Sentinel | None => true
  end.

(** The state after [resolveCache.get(k)]. *)
Definition after_get (k : string) (st : State) : State :=
  {| resolveCache := (lru_get k (resolveCache st)).2; policy := policy st |}.

(** The state after [resolveCache.set(k, v)]. *)
Definition after_set (k : string) (v : CacheValue) (st : State) : State :=
  {| resolveCache := lru_set k v (resolveCache st); policy := policy st |}.

(** [req.url || ''] *)
Definition urlOf (req : Request) : string := JS.orElse (req_url req) "".

(** The request is for the control-plane domain. *)
Definition isHome (w : World) (req : Request) : bool :=
  bool_decide (Some (hostOf req) = HOME_DOMAIN (env w)).

(** The request reaches the forwarding code (lines 179-198): its path is not
    under the ACME prefix, it names a host, and either the host is not the
    control-plane domain or the control-plane branch falls through. *)
Definition reachesForward (w : World) (req : Request) : bool :=
  negb (JS.startsWith acme_prefix (urlOf req))
  && JS.truthy (hostOf req)
  && (negb (isHome w req)
      || (negb (String.eqb (req_method req) "OPTIONS")
          && negb (String.eqb (urlOf req) "/stat")
          && negb (String.eqb (urlOf req) "/health")
          && negb (String.eqb (urlOf req) "/flushcache"))).

(** The request is routed to the [/flushcache] case of the control plane. *)
Definition reachesFlush (w : World) (req : Request) : bool :=
  negb (JS.startsWith acme_prefix (urlOf req))
  && JS.truthy (hostOf req)
  && isHome w req
  && String.eqb (urlOf req) "/flushcache".

(** The four [res.setHeader] calls of the control-plane branch. *)
Definition cors : list Event :=
  [EvSetHeader "Access-Control-Allow-Origin" "*";
   EvSetHeader "Access-Control-Allow-Methods" "GET, OPTIONS";
   EvSetHeader "Access-Control-Allow-Headers" "Content-Type";
   EvSetHeader "Access-Control-Max-Age" "86400"].

Definition cors_of (w : World) (req : Request) : list Event :=
  if isHome w req then cors else [].

(** The [domain] field that the ['end'] callback of [/flushcache] reads:
    defined when the body arrived within the size cap and its [domain]
    field is a string. *)
Definition flush_domain (w : World) (req : Request) : option string :=
  match onData (req_chunks req) 0 "" with
  | (_, body, false) =>
      match querystring_domain w body with
      | Some (inl domain) => Some domain
      | Some (inr _) | None => None
      end
  | (_, _, true) => None
  end.

(** The answer of the [/flushcache] branch to a [POST]. *)
Definition cache_cleared : list Event :=
  cors ++ [EvReqOn;
           EvWriteHead 200 [("Content-Type", "text/plain")];
           EvWrite "Cache cleared";
           EvEnd].

(** Nothing of the response has been sent: the event is not [writeHead],
    [write] or [end]. *)
Definition unsent (e : Event) : Prop :=
  match e with
  | EvWriteHead _ _ | EvWrite _ | EvEnd => False
  | _ => True
  end.

Definition isDns (e : Event) : Prop :=
  match e with EvDns _ _ => True | _ => False end.

Definition isCacheSet (e : Event) : Prop :=
  match e with EvCacheSet _ _ => True | _ => False end.

(** The redirect status codes of the allow-list. *)
Definition allowedStatus (n : option Z) : Prop :=
  n = Some 301 ∨ n = Some 302 ∨ n = Some 307 ∨ n = Some 308.

(** A [writeHead] that carries a [Location] header has an allowed status. *)
Definition redirect_ok (e : Event) : Prop :=
  match e with
  | EvWriteHead status headers =>
      (∃ target, ("Location", target) ∈ headers) → allowedStatus (Some status)
  | _ => True
  end.

(** The invariant of the cache: every key is in lower case and every
    decision carries an allowed status. *)
Definition slot_ok (kv : string * CacheValue) : Prop :=
  JS.toLowerCase kv.1 = kv.1
  ∧ match kv.2 with Entry c => allowedStatus (httpStatus c) | Sentinel => True end.

Definition cache_ok (st : State) : Prop := Forall slot_ok (resolveCache st).

(** ** Sample configurations and collaborators *)

Definition env_lists (blacklist whitelist : option string) : Env :=
  {| WHITELIST_HOSTS := whitelist;
     BLACKLIST_HOSTS := blacklist;
     BLACKLIST_REDIRECT := None;
     HOME_DOMAIN := Some "forward.example";
     CACHE_EXPIRY_SECONDS := None |}.

Definition txt (value : string) : RR := {| type := 16; data := value |}.
Definition caa (value : string) : RR := {| type := 257; data := value |}.

(** A resolver that knows one host, [shop.example.com], with the TXT
    record [value] and no CAA record. *)
Definition dns_shop (value : string) (name : string) (rrtype : Z)
    : JsError + option (list RR) :=
  if String.eqb name "_.shop.example.com" && (rrtype =? 16)
  then inr (Some [txt value])
  else inr None.

(** A world over the environment [e] and the resolver [resolver] at time
    [now]: [isIPv4] knows the one literal of the samples, the body of a
    flush request is read as [domain=...] up to the next [&], and a name
    with a dot counts as a fully-qualified domain name. *)
Definition world_of (e : Env) (resolver : string → Z → JsError + option (list RR))
    (now : Z) : World :=
  {| env := e;
     env_loaded := e;
     dns := resolver;
     isIPv4 := fun h => String.eqb h "192.0.2.1";
     isIPv6 := fun _ => false;
     now_listener := now;
     now_buildCache := now;
     challengeCallbacks := None;
     getStat := "{}";
     encodeURIComponent := fun s => s;
     querystring_domain := fun body =>
       match stripPrefix "domain=" body with
       | Some rest => Some (inl (hd "" (JS.split "&" rest)))
       | None => None
       end;
     isFQDN := fun d => 0 <? JS.count dot d |}.

Definition world_shop (value : string) (now : Z) : World :=
  world_of (env_lists None None) (dns_shop value) now.

Definition get (host path : string) : Request :=
  {| req_url := Some path; req_host := Some host; req_method := "GET";
     req_chunks := [] |}.

Definition flush (method body : string) : Request :=
  {| req_url := Some "/flushcache"; req_host := Some "forward.example";
     req_method := method; req_chunks := [body] |}.

(** [n] times the string [s]. *)
Fixpoint replicate_string (n : nat) (s : string) : string :=
  match n with
  | O => EmptyString
  | S n' => s +:+ replicate_string n' s
  end.

(** A flush request for [shop.example.com] whose body, in two chunks,
    exceeds the cap of 10 KB. *)
Definition flush_oversized : Request :=
  {| req_url := Some "/flushcache"; req_host := Some "forward.example";
     req_method := "POST";
     req_chunks := ["domain=shop.example.com";
                    "&pad=" +:+ replicate_string 1024 "0123456789"] |}.

(** The world at time 1000, where [shop.example.com] forwards with a
    wildcard, and the state after one request for that host. *)
Definition world_early : World :=
  world_shop "forward-domain=https://dest.example/app*" 1000.

Definition state_shop : State :=
  (serve world_early (get "shop.example.com" "/") state0).1.

(** The world after the decision of [state_shop] has expired. *)
Definition world_late : World :=
  world_shop "forward-domain=https://dest.example/app;http-status=302" 90000000.

(** The world at time 2000, where the TXT record of [shop.example.com] is
    gone. *)
Definition world_broken : World := world_of (env_lists None None) (fun _ _ => inr None) 2000.

(** ** Further functions of the two modules *)

(** [pruneCache()]: a new, empty cache takes the place of the old one. *)
Definition pruneCache (st : State) : State :=
  {| resolveCache := []; policy := policy st |}.

(** The line feed, as a one-character string. *)
Definition LF : string := String (ascii_of_N 10) EmptyString.

(** The characters that [.] of a regular expression refuses: the line
    terminators, here line feed and carriage return. *)
Definition isLineTerminator (c : ascii) : bool :=
  let n := N_of_ascii c in N.eqb n 10 || N.eqb n 13.

(** The longest run of at most [n] characters at the start of [s] that [.]
    accepts, and what follows it. *)
Fixpoint takeRun (n : nat) (s : string) : string * string :=
  match n, s with
  | S n', String c s' =>
      if isLineTerminator c then (EmptyString, s)
      else let '(m, rest) := takeRun n' s' in (String c m, rest)
  | _, _ => (EmptyString, s)
  end.

(** [s.match(/.{0,64}/g)]: the matches from left to right.  After an empty
    match the search moves on by one character; the empty match at the end
    of the string is the last one.  Every round but the last consumes a
    character, so [fuel] bounds the number of rounds. *)
Fixpoint matchAll64 (fuel : nat) (s : string) : list string :=
  match fuel with
  | O => []
  | S fuel' =>
      match takeRun 64 s with
      | (EmptyString, EmptyString) => [EmptyString]
      | (EmptyString, String _ rest) => EmptyString :: matchAll64 fuel' rest
      | (m, rest) => m :: matchAll64 fuel' rest
      end
  end.

(** The parameter [type] of [derToPem], as its declared type has it. *)
Inductive PemType := certificate | public | private.

Definition pemPrefix (t : PemType) : string :=
  match t with
  | certificate => "CERTIFICATE"
  | public => "PUBLIC KEY"
  | private => "PRIVATE KEY"
  end.

(** [derToPem(derBuffer, type)], from [derBuffer.toString('base64')] on. *)
Definition derToPem (base64 : string) (t : PemType) : string :=
  let header := "-----BEGIN " +:+ pemPrefix t +:+ "-----" +:+ LF in
  let footer := "-----END " +:+ pemPrefix t +:+ "-----" +:+ LF in
  let base64Content := matchAll64 (S (String.length base64)) base64 in
  header +:+ JS.join LF base64Content +:+ footer.

(** ** Notions used to state the further properties *)

(** Every character of [s] is one that [.] accepts. *)
Fixpoint dotAll (s : string) : bool :=
  match s with
  | EmptyString => true
  | String c s' => negb (isLineTerminator c) && dotAll s'
  end.

(** [s] without its line terminators. *)
Fixpoint stripTerminators (s : string) : string :=
  match s with
  | EmptyString => EmptyString
  | String c s' =>
      if isLineTerminator c then stripTerminators s' else String c (stripTerminators s')
  end.

(** The record data that lists the parameters [pairs] in order, each as
    [key=value], separated by semicolons. *)
Definition renderTxt (pairs : list (string * string)) : string :=
  JS.join ";" ((fun kv => kv.1 +:+ "=" +:+ kv.2) <$> pairs).

(** An integer that JavaScript numbers hold exactly; sums and products of
    integers are exact in the source as long as the operands and the result
    are such. *)
Definition safeInteger (z : Z) : Prop := Z.abs z ≤ 2 ^ 53.

(** The states of a process that runs under the environment [e]. *)
Inductive reachable_in (e : Env) : State → Prop :=
| reachable_in_init : reachable_in e state0
| reachable_in_serve w req st :
    env w = e → reachable_in e st → reachable_in e (serve w req st).1.

(** The test of [buildCache] on the destination, the other way round. *)
Definition absoluteURL (u : string) : bool :=
  JS.startsWith "http://" u || JS.startsWith "https://" u.

(** A slot whose key passes the length guards of [buildCache] and whose
    decision, if any, forwards to an absolute URL. *)
Definition slot_servable (kv : string * CacheValue) : Prop :=
  kv.1 ≠ "" ∧ isExceedHostLimit kv.1 = false ∧ isExceedLabelLimit kv.1 = false
  ∧ match kv.2 with Entry c => absoluteURL (url c) = true | Sentinel => True end.

(** A decision agrees with the policy of the environment [e] on its key. *)
Definition slot_policy (e : Env) (kv : string * CacheValue) : Prop :=
  match kv.2 with
  | Entry c => blacklisted c = (isHostBlacklisted e kv.1 policy0).1
  | Sentinel => True
  end.

(** The three guards at the head of [buildCache]. *)
Definition unservable (w : World) (host : string) : bool :=
  isIpAddress w host || isExceedHostLimit host || isExceedLabelLimit host.

(** The shape of the log of a response: what comes before the status line
    (resolver queries, cache writes, header fields, the installation of the
    body callbacks), the status line, at most [n] writes of body, the end. *)
Definition beforeHead (e : Event) : bool :=
  match e with
  | EvDns _ _ | EvCacheSet _ _ | EvSetHeader _ _ | EvReqOn => true
  | _ => false
  end.

Definition isHead (e : Event) : bool :=
  match e with EvWriteHead _ _ | EvStatusCode _ => true | _ => false end.

Fixpoint closedBody (n : nat) (l : list Event) : bool :=
  match l with
  | [EvEnd] => true
  | EvWrite _ :: l' => match n with S n' => closedBody n' l' | O => false end
  | _ => false
  end.

Fixpoint wellFormed (l : list Event) : bool :=
  match l with
  | [] => false
  | e :: l' => if beforeHead e then wellFormed l' else isHead e && closedBody 1 l'
  end.

(** The event neither queries the resolver nor writes to the cache. *)
Definition quiet (e : Event) : bool :=
  match e with EvDns _ _ | EvCacheSet _ _ => false | _ => true end.

(** ** Further samples *)

(** The decision that [state_shop] holds for [shop.example.com]. *)
Definition decision_shop : Cache :=
  {| url := "https://dest.example/app";
     expand := true;
     blacklisted := false;
     expire := 86401000;
     httpStatus := Some 301 |}.

(** A world in which [shop.example.com] is on the blacklist. *)
Definition world_denied : World :=
  world_of (env_lists (Some "shop.example.com") None)
    (dns_shop "forward-domain=https://dest.example/") 1000.

(** The world at the last millisecond of the decision of [state_shop],
    with a resolver that knows nothing any more. *)
Definition world_last : World :=
  world_of (env_lists None None) (fun _ _ => inr None) 86401000.

(** ** Notions used to state the properties of the cache *)

(** The cache [c'] comes from [c] by calls of [get] and [set]. *)
Inductive lru_steps (c : LRU) : LRU → Prop :=
| lru_steps_refl : lru_steps c c
| lru_steps_get k c' : lru_steps c c' → lru_steps c (lru_get k c').2
| lru_steps_set k v c' : lru_steps c c' → lru_steps c (lru_set k v c').

(** The ['end'] callback of the flush request throws: the body arrived
    within the cap and its [domain] field is repeated. *)
Definition flush_throws (w : World) (req : Request) : bool :=
  match onData (req_chunks req) 0 "" with
  | (_, body, false) =>
      match querystring_domain w body with
      | Some (inr _) => true
      | Some (inl _) | None => false
      end
  | (_, _, true) => false
  end.

(** The key whose slot the ['end'] callback of the flush request reads:
    the [domain] field when it is not empty and a valid FQDN. *)
Definition flush_target (w : World) (req : Request) : option string :=
  match flush_domain w req with
  | Some d => if JS.truthy d && isFQDN w d then Some d else None
  | None => None
  end.

(** * Properties *)

(** ** Tactics *)

(** Unfolds the computations of [M] down to functions on states. *)
Ltac unfold_M :=
  unfold buildCache, validateCAARecords, findTxtRecord, request,
    isHostBlacklistedM, writeHead, write, emit, cache_get, cache_set,
    getPolicy, bind, throw, ret in *.

(** Splits a [Forall] over an explicit list into its elements. *)
Ltac Forall_list :=
  repeat match goal with
         | |- Forall _ (_ :: _) => constructor
         | |- Forall _ [] => constructor
         end.

(** ** Strings *)

Lemma append_cons (c : ascii) (s t : string) : String c s +:+ t = String c (s +:+ t).
Proof. reflexivity. Qed.

Lemma append_nil_l (s : string) : "" +:+ s = s.
Proof. reflexivity. Qed.

Lemma append_assoc (a b c : string) : (a +:+ b) +:+ c = a +:+ (b +:+ c).
Proof. induction a as [|x a IH]; [done | by rewrite !append_cons, IH]. Qed.

Lemma slice_0 (s : string) : JS.slice 0 s = s.
Proof. by destruct s. Qed.

Lemma slice_slice (a b : nat) (s : string) :
  JS.slice a (JS.slice b s) = JS.slice (b + a) s.
Proof.
  revert s; induction b as [|b IH]; intros s; simpl.
  - done.
  - destruct s as [|c s]; simpl; [by destruct a | apply IH].
Qed.

(** ** The dots of a string *)

Lemma dotsFrom_S (i : nat) (s : string) : dotsFrom (S i) s = S <$> dotsFrom i s.
Proof.
  revert i; induction s as [|c s IH]; intros i; simpl; [done|].
  destruct (Ascii.eqb c dot); simpl; by rewrite IH.
Qed.

Lemma dotsFrom_length (i : nat) (s : string) :
  (List.length (dotsFrom i s) ≤ String.length s)%nat.
Proof.
  revert i; induction s as [|c s IH]; intros i; simpl; [done|].
  specialize (IH (S i)). destruct (Ascii.eqb c dot); simpl; lia.
Qed.

Lemma indexOf_head (from : nat) (s : string) :
  JS.indexOf dot from s = head (dotsFrom from (JS.slice from s)).
Proof.
  revert from; induction s as [|c s IH]; intros from.
  - by destruct from.
  - destruct from as [|from]; simpl.
    + destruct (Ascii.eqb c dot); [done|].
      rewrite IH, slice_0, dotsFrom_S. by destruct (dotsFrom 0 s).
    + rewrite IH, dotsFrom_S. by destruct (dotsFrom from (JS.slice from s)).
Qed.

Lemma dotsFrom_cons (t : string) (b i : nat) (rest : list nat) :
  dotsFrom b t = i :: rest →
  (b ≤ i)%nat ∧ rest = dotsFrom (S i) (JS.slice (S i - b) t).
Proof.
  revert b; induction t as [|c t IH]; intros b; simpl; [done|].
  destruct (Ascii.eqb c dot).
  - intros [= <- <-]. split; [lia|]. by replace (S b - b)%nat with 1%nat by lia.
  - intros H. destruct (IH _ H) as [Hle ->]. split; [lia|].
    replace (S i - b)%nat with (S (S i - S b)) by lia. done.
Qed.

Lemma findDotPositions_loop_ok (n fuel from : nat) (s : string) (acc : list nat) :
  List.length (dotsFrom from (JS.slice from s)) = n → (n < fuel)%nat →
  findDotPositions_loop fuel s (JS.indexOf dot from s) acc
  = Some (acc ++ dotsFrom from (JS.slice from s)).
Proof.
  revert fuel from acc; induction n as [|n IH]; intros fuel from acc Hn Hf;
    rewrite indexOf_head.
  - destruct (dotsFrom from (JS.slice from s)); [|done].
    destruct fuel; simpl; by rewrite app_nil_r.
  - destruct (dotsFrom from (JS.slice from s)) as [|i rest] eqn:E; [done|].
    destruct fuel as [|fuel]; [lia|]. simpl.
    destruct (dotsFrom_cons _ _ _ _ E) as [Hle Hrest].
    rewrite slice_slice in Hrest.
    replace (from + (S i - from))%nat with (S i) in Hrest by lia.
    rewrite IH.
    + by rewrite <- Hrest, <- app_assoc.
    + rewrite <- Hrest. simpl in Hn. lia.
    + lia.
Qed.

(** The loop of [findDotPositions] ends within its fuel, and finds the
    positions of all dots, from left to right. *)
Lemma findDotPositions_dots (s : string) : findDotPositions s = dotsFrom 0 s.
Proof.
  unfold findDotPositions.
  rewrite (findDotPositions_loop_ok (List.length (dotsFrom 0 s))).
  - by rewrite slice_0.
  - by rewrite slice_0.
  - pose proof (dotsFrom_length 0 s). lia.
Qed.

Lemma dotTails_slices (s : string) :
  (fun p => JS.slice p s) <$> dotsFrom 0 s = dotTails s.
Proof.
  induction s as [|c s IH]; simpl; [done|].
  rewrite dotsFrom_S.
  destruct (Ascii.eqb c dot); simpl; rewrite <- list_fmap_compose, <- IH; done.
Qed.

Lemma dotTails_length (s : string) :
  List.length (dotTails s) = List.length (findDotPositions s).
Proof. by rewrite findDotPositions_dots, <- dotTails_slices, length_fmap. Qed.

(** The key that round [i] of the loops reads or writes is the [i]-th
    dot-suffix. *)
Lemma sliceAt_dotTails (s : string) (i : nat) :
  (i < List.length (dotTails s))%nat →
  dotTails s !! i = Some (sliceAt (findDotPositions s) i s).
Proof.
  intros Hi. unfold sliceAt. rewrite findDotPositions_dots.
  rewrite <- dotTails_slices in *. rewrite length_fmap in Hi.
  rewrite list_lookup_fmap.
  destruct (lookup_lt_is_Some_2 (dotsFrom 0 s) i Hi) as [p ->]. done.
Qed.

Lemma startsWith_dot (t : string) :
  JS.startsWith "." t = true ↔ ∃ r, t = String dot r.
Proof.
  split.
  - destruct t as [|a r]; [done|]. intros H. exists r.
    change (Ascii.eqb dot a && true = true) in H.
    rewrite andb_true_r in H. by apply Ascii.eqb_eq in H as <-.
  - by intros [r ->].
Qed.

Lemma dotTails_suffix (t h : string) :
  t ∈ dotTails h → suffixOf t h ∧ JS.startsWith "." t = true.
Proof.
  induction h as [|c h IH]; cbn [dotTails]; [by intros ?%elem_of_nil|].
  destruct (Ascii.eqb c dot) eqn:E.
  - intros [->|Hin]%elem_of_cons.
    + split; [by exists ""|]. apply Ascii.eqb_eq in E as ->.
      apply startsWith_dot. by eexists.
    + destruct (IH Hin) as [[p ->] ?]. split; [|done]. by exists (String c p).
  - intros Hin. destruct (IH Hin) as [[p ->] ?]. split; [|done]. by exists (String c p).
Qed.

Lemma suffix_dotTails (t h : string) :
  suffixOf t h → JS.startsWith "." t = true → t ∈ dotTails h.
Proof.
  intros [p ->] Ht. induction p as [|c p IH].
  - rewrite append_nil_l. apply startsWith_dot in Ht as [r ->]. simpl.
    apply elem_of_cons; by left.
  - rewrite append_cons. simpl. destruct (Ascii.eqb c dot); [|done].
    apply elem_of_cons; by right.
Qed.

Lemma dotTails_self (k : string) : JS.startsWith "." k = true → k ∈ dotTails k.
Proof. intros. apply suffix_dotTails; [by exists ""|done]. Qed.

Lemma dotTails_split (h s : string) (l1 l2 : list string) :
  dotTails h = l1 ++ s :: l2 → dotTails s = s :: l2.
Proof.
  revert l1; induction h as [|c h IH]; intros l1; simpl.
  - by destruct l1.
  - destruct (Ascii.eqb c dot) eqn:E.
    + destruct l1 as [|x l1]; simpl.
      * intros [= <- <-]. simpl. by rewrite E.
      * intros [= _ H]. by eapply IH.
    + intros H. by eapply IH.
Qed.

Lemma dotTails_trans (h s t : string) :
  s ∈ dotTails h → t ∈ dotTails s → t ∈ dotTails h.
Proof.
  intros (l1 & l2 & E)%list_elem_of_split Ht.
  rewrite (dotTails_split _ _ _ _ E) in Ht. rewrite E.
  apply elem_of_app; by right.
Qed.

(** ** The loops of the policy matcher *)

Lemma csvToMap_loop_take (host : string) (i : nat) (acc : PolicyMap) :
  (i ≤ List.length (dotTails host))%nat →
  csvToMap_loop host (findDotPositions host) i acc
  = mark_tails (take i (dotTails host)) acc.
Proof.
  revert acc; induction i as [|i IH]; intros acc Hi; simpl; [done|].
  rewrite IH by lia.
  pose proof (sliceAt_dotTails host i ltac:(lia)) as Hk.
  rewrite (take_S_r _ _ _ Hk).
  destruct i as [|i]; simpl; [done|].
  destruct (dotTails host) as [|k0 rest]; simpl in *; [lia|].
  by rewrite foldr_app.
Qed.

Lemma csvToMap_step_tails (acc : PolicyMap) (host : string) :
  csvToMap_step acc host
  = mark_tails (dotTails (JS.toLowerCase (JS.trim host))) acc.
Proof.
  unfold csvToMap_step. rewrite <- dotTails_length, csvToMap_loop_take by done.
  by rewrite firstn_all.
Qed.

Lemma lookup_mark_false (rest : list string) (acc : PolicyMap) (k : string) :
  foldr (fun k a => <[k := false]> a) acc rest !! k
  = if decide (k ∈ rest) then Some false else acc !! k.
Proof.
  induction rest as [|x rest IH]; cbn [foldr].
  - by rewrite decide_False by apply not_elem_of_nil.
  - destruct (decide (x = k)) as [->|Hne].
    + rewrite lookup_insert_eq, decide_True; [done|]. apply elem_of_cons. by left.
    + rewrite lookup_insert_ne, IH by done.
      destruct (decide (k ∈ rest)) as [Hin|Hnin].
      * rewrite decide_True; [done|]. apply elem_of_cons. by right.
      * rewrite decide_False; [done|]. apply not_elem_of_cons. by split.
Qed.

Lemma lookup_mark_tails (tails : list string) (acc : PolicyMap) (k : string) :
  mark_tails tails acc !! k
  = if decide (k ∈ tails) then Some (bool_decide (head tails = Some k)) else acc !! k.
Proof.
  destruct tails as [|t rest]; cbn [mark_tails head].
  - by rewrite decide_False by apply not_elem_of_nil.
  - destruct (decide (t = k)) as [->|Hne].
    + rewrite lookup_insert_eq, bool_decide_eq_true_2 by done.
      rewrite decide_True; [done|]. apply elem_of_cons. by left.
    + rewrite lookup_insert_ne, lookup_mark_false by done.
      rewrite bool_decide_eq_false_2 by congruence.
      destruct (decide (k ∈ rest)) as [Hin|Hnin].
      * rewrite decide_True; [done|]. apply elem_of_cons. by right.
      * rewrite decide_False; [done|]. apply not_elem_of_cons. by split.
Qed.

Lemma mark_tails_closed (h : string) (acc : PolicyMap) :
  suffix_closed acc → suffix_closed (mark_tails (dotTails h) acc).
Proof.
  intros Hacc k. rewrite lookup_mark_tails.
  destruct (decide (k ∈ dotTails h)) as [Hin|Hnin].
  - intros _. split.
    + apply dotTails_self. by apply dotTails_suffix in Hin as [_ ?].
    + intros t Ht. rewrite lookup_mark_tails.
      rewrite decide_True by (by eapply dotTails_trans). done.
  - intros Hk. destruct (Hacc k Hk) as [Hself Hsub]. split; [done|].
    intros t Ht. rewrite lookup_mark_tails.
    destruct (decide (t ∈ dotTails h)); [done | by apply Hsub].
Qed.

Lemma csvToMap_closed (str : string) : suffix_closed (csvToMap str).
Proof.
  unfold csvToMap.
  assert (suffix_closed (∅ : PolicyMap)) as H0.
  { intros k. rewrite lookup_empty. by intros [? ?]. }
  revert H0. generalize (∅ : PolicyMap).
  induction (JS.split "," str) as [|host l IH]; intros acc Hacc; simpl; [done|].
  apply IH. rewrite csvToMap_step_tails. by apply mark_tails_closed.
Qed.

Lemma policy_keys_dotTails (h : string) : policy_keys h = dotTails h.
Proof. unfold policy_keys. by rewrite findDotPositions_dots, dotTails_slices. Qed.

Lemma blacklist_loop_walk (m : PolicyMap) (h : string) (i : nat) :
  (i ≤ List.length (dotTails h))%nat →
  blacklist_loop m h (findDotPositions h) i
  = default false (code_walk m (reverse (take i (dotTails h)))).
Proof.
  induction i as [|i IH]; intros Hi; simpl; [done|].
  pose proof (sliceAt_dotTails h i ltac:(lia)) as Hk.
  rewrite (take_S_r _ _ _ Hk), reverse_app. simpl.
  destruct (m !! sliceAt (findDotPositions h) i h) as [[]|]; [done| |done].
  apply IH. lia.
Qed.

Lemma whitelist_loop_walk (m : PolicyMap) (h : string) (i : nat) :
  (i ≤ List.length (dotTails h))%nat →
  whitelist_loop m h (findDotPositions h) i
  = negb (default false (code_walk m (reverse (take i (dotTails h))))).
Proof.
  induction i as [|i IH]; intros Hi; simpl; [done|].
  pose proof (sliceAt_dotTails h i ltac:(lia)) as Hk.
  rewrite (take_S_r _ _ _ Hk), reverse_app. simpl.
  destruct (m !! sliceAt (findDotPositions h) i h) as [[]|]; [done| |done].
  apply IH. lia.
Qed.

Lemma code_walk_true_elem (m : PolicyMap) (l : list string) :
  code_walk m l = Some true → ∃ s, s ∈ l ∧ m !! s = Some true.
Proof.
  induction l as [|x l IH]; simpl; [done|].
  destruct (m !! x) as [[]|] eqn:E; [|intros H|done].
  - intros _. exists x. split; [apply elem_of_cons; by left | done].
  - destruct (IH H) as (s & Hs & Hm). exists s. split; [apply elem_of_cons; by right | done].
Qed.

Lemma code_walk_reaches (m : PolicyMap) (pre post : list string) (s : string) :
  (∀ t, t ∈ pre → is_Some (m !! t)) → m !! s = Some true →
  code_walk m (pre ++ s :: post) = Some true.
Proof.
  intros Hpre Hs. induction pre as [|x pre IH]; simpl; [by rewrite Hs|].
  destruct (Hpre x) as [[] Hx]; [apply elem_of_cons; by left | |]; rewrite Hx; [done|].
  apply IH. intros t Ht. apply Hpre, elem_of_cons. by right.
Qed.

(** On a suffix-closed map the walk from the least specific suffix finds a
    [true] entry exactly when some suffix of the host has one. *)
Lemma code_walk_closed (m : PolicyMap) (h : string) :
  suffix_closed m →
  default false (code_walk m (reverse (dotTails h))) = true
  ↔ ∃ s, suffixOf s h ∧ m !! s = Some true.
Proof.
  intros Hm. split.
  - destruct (code_walk m (reverse (dotTails h))) as [[]|] eqn:E; [|done..].
    intros _. destruct (code_walk_true_elem _ _ E) as (s & Hs & Hms).
    exists s. split; [|done]. rewrite elem_of_reverse in Hs.
    by apply dotTails_suffix in Hs as [? _].
  - intros (s & Hsuf & Hms).
    destruct (Hm s) as [Hself Hsub]; [by rewrite Hms|].
    assert (s ∈ dotTails h) as Hin.
    { apply suffix_dotTails; [done|]. by apply dotTails_suffix in Hself as [_ ?]. }
    destruct (list_elem_of_split _ _ Hin) as (l1 & l2 & E).
    rewrite E, reverse_app, reverse_cons, <- app_assoc. simpl.
    rewrite code_walk_reaches; [done| |done].
    intros t Ht. rewrite elem_of_reverse in Ht. apply Hsub.
    rewrite (dotTails_split _ _ _ _ E). apply elem_of_cons. by right.
Qed.

Lemma initPolicy_whitelist (e : Env) :
  whitelistMap (initPolicy e policy0)
  = if JS.truthyOpt (WHITELIST_HOSTS e)
    then Some (csvToMap (JS.orElse (WHITELIST_HOSTS e) "")) else None.
Proof. done. Qed.

Lemma initPolicy_blacklist (e : Env) :
  blacklistMap (initPolicy e policy0)
  = Some (csvToMap (JS.orElse (BLACKLIST_HOSTS e) "")).
Proof. done. Qed.

Lemma initPolicy_of (e : Env) (p : Policy) :
  policy_of e p → initPolicy e p = initPolicy e policy0.
Proof. by intros [->| ->]. Qed.

Lemma dotTails_shorter (t r : string) :
  t ∈ dotTails r → (String.length t ≤ String.length r)%nat.
Proof.
  induction r as [|c r IH]; cbn [dotTails]; [by intros ?%elem_of_nil|].
  destruct (Ascii.eqb c dot).
  - intros [->|Hin]%elem_of_cons; [done|]. specialize (IH Hin). simpl. lia.
  - intros Hin. specialize (IH Hin). simpl. lia.
Qed.

(** A key further down [policy_keys] is a proper suffix of an earlier one. *)
Lemma policy_keys_order (h s t : string) (i j : nat) :
  (i < j)%nat → policy_keys h !! i = Some s → policy_keys h !! j = Some t →
  suffixOf t s ∧ t ≠ s.
Proof.
  rewrite policy_keys_dotTails. intros Hij Hi Hj.
  destruct (list_elem_of_split_length _ _ _ Hi) as (l1 & l2 & E & Hl).
  pose proof (dotTails_split _ _ _ _ E) as Es.
  assert (t ∈ l2) as Ht.
  { rewrite E in Hj. rewrite lookup_app_r in Hj by lia.
    destruct (j - List.length l1)%nat as [|n] eqn:En; [lia|].
    simpl in Hj. by eapply list_elem_of_lookup_2. }
  destruct s as [|c s]; [done|]. cbn [dotTails] in Es.
  destruct (Ascii.eqb c dot); [injection Es as Es|].
  - rewrite <- Es in Ht. split.
    + apply dotTails_suffix in Ht as [[q ->] _]. by exists (String c q).
    + intros ->. apply dotTails_shorter in Ht. simpl in Ht. lia.
  - exfalso. assert (String c s ∈ dotTails s) as Hbad by (rewrite Es; apply elem_of_cons; by left).
    apply dotTails_shorter in Hbad. simpl in Hbad. lia.
Qed.

(** ** C1: the walk of [isHostBlacklisted] *)

(** The walk that the specification words finds a match exactly when one
    of the suffixes has the entry [true]. *)
Lemma spec_walk_true (m : PolicyMap) (l : list string) :
  spec_walk m l = true ↔ ∃ s, s ∈ l ∧ m !! s = Some true.
Proof.
  induction l as [|x l IH]; cbn [spec_walk].
  - split; [done | by intros (s & ?%elem_of_nil & _)].
  - destruct (m !! x) as [[]|] eqn:E.
    + split; [intros _|done]. exists x. split; [by left | done].
    + rewrite IH. split.
      * intros (s & Hs & Hm). exists s. split; [by right | done].
      * intros (s & [->|Hs]%elem_of_cons & Hm); [congruence | eauto].
    + rewrite IH. split.
      * intros (s & Hs & Hm). exists s. split; [by right | done].
      * intros (s & [->|Hs]%elem_of_cons & Hm); [congruence | eauto].
Qed.

(** The keys of a host are its suffixes that start at a dot. *)
Lemma policy_keys_elem (h s : string) :
  s ∈ policy_keys h ↔ suffixOf s h ∧ ∃ r, s = String dot r.
Proof.
  rewrite policy_keys_dotTails. split.
  - intros [Hsuf Hdot]%dotTails_suffix. split; [done|]. by apply startsWith_dot.
  - intros [Hsuf Hdot]. apply suffix_dotTails; [done|]. by apply startsWith_dot.
Qed.

(** On a map that holds, with a key, every shorter key of it, the loops of
    the code, which go from the shortest key to the longest and stop at a
    missing entry, give the answer of the walk of the specification. *)
Lemma code_walk_spec_walk (m : PolicyMap) (h : string) :
  suffix_closed m →
  default false (code_walk m (reverse (dotTails h))) = spec_walk m (dotTails h).
Proof.
  intros Hm.
  assert (spec_walk m (dotTails h) = true
          ↔ default false (code_walk m (reverse (dotTails h))) = true) as Hiff.
  { rewrite spec_walk_true, code_walk_closed by done. split.
    - intros (s & [Hs _]%dotTails_suffix & Hms). eauto.
    - intros (s & Hsuf & Hms). exists s. split; [|done].
      destruct (Hm s) as [Hself _]; [by rewrite Hms|].
      apply suffix_dotTails; [done|]. by apply dotTails_suffix in Hself as [_ ?]. }
  destruct (spec_walk m (dotTails h)),
    (default false (code_walk m (reverse (dotTails h)))); try done.
  - by apply Hiff.
  - symmetry. by apply Hiff.
Qed.

(** C1.  Once the policy maps are built from the environment, the answer
    of [isHostBlacklisted(h)] is the answer of the walk over the suffixes
    of [h] that start at a dot, from the most specific (longest) to the
    least specific, that goes on past a suffix without an entry or with the
    entry [false] and stops with a match at the entry [true].  With only a
    blacklist configured the answer is [true] iff some suffix of [h] has
    the entry [true] in the blacklist map; with a whitelist configured it
    is the negation of "some suffix of [h] has the entry [true] in the
    whitelist map".  The loops of the code themselves visit these suffixes
    from the shortest to the longest and stop without a match at a missing
    entry (last part, for whatever maps the module variables hold); every
    map that [csvToMap] builds holds, with a key, every shorter key of it,
    so that the answer is that of the walk above for every list that can
    be configured. *)
Theorem isHostBlacklisted_walk (e : Env) (p : Policy) (h : string) :
  policy_of e p →
  let keys := policy_keys h in
  let answer := (isHostBlacklisted e h p).1 in
  (∀ s, s ∈ keys ↔ suffixOf s h ∧ ∃ r, s = String "." r)
  ∧ (∀ i j s t, (i < j)%nat → keys !! i = Some s → keys !! j = Some t →
                suffixOf t s ∧ t ≠ s)
  ∧ (if JS.truthyOpt (WHITELIST_HOSTS e) then
       let wl := csvToMap (JS.orElse (WHITELIST_HOSTS e) "") in
       answer = negb (spec_walk wl keys)
       ∧ (answer = false ↔ ∃ s, suffixOf s h ∧ wl !! s = Some true)
     else
       let bl := csvToMap (JS.orElse (BLACKLIST_HOSTS e) "") in
       answer = spec_walk bl keys
       ∧ (answer = true ↔ ∃ s, suffixOf s h ∧ bl !! s = Some true))
  ∧ (∀ (bl : PolicyMap) (wl : option PolicyMap) (r : option string),
       (isHostBlacklisted e h
          {| blacklistMap := Some bl; whitelistMap := wl;
             blacklistRedirectUrl := r |}).1
       = match wl with
         | Some m => negb (default false (code_walk m (reverse keys)))
         | None => default false (code_walk bl (reverse keys))
         end).
Proof.
  intros Hp keys answer. split; [|split; [|split]].
  - intros s. apply policy_keys_elem.
  - intros i j s t. apply policy_keys_order.
  - subst keys answer. unfold isHostBlacklisted.
    rewrite (initPolicy_of _ _ Hp), policy_keys_dotTails, <- dotTails_length.
    rewrite initPolicy_whitelist, initPolicy_blacklist.
    destruct (JS.truthyOpt (WHITELIST_HOSTS e)); cbn [fst default].
    + rewrite whitelist_loop_walk, firstn_all by done. split.
      * f_equal. apply code_walk_spec_walk, csvToMap_closed.
      * etrans; [apply negb_false_iff|]. apply code_walk_closed, csvToMap_closed.
    + rewrite blacklist_loop_walk, firstn_all by done. split.
      * apply code_walk_spec_walk, csvToMap_closed.
      * apply code_walk_closed, csvToMap_closed.
  - intros bl wl r. subst keys. unfold isHostBlacklisted, initPolicy.
    cbn [blacklistMap whitelistMap fst default].
    rewrite policy_keys_dotTails, <- dotTails_length.
    destruct wl as [m|]; cbn [fst default].
    + by rewrite whitelist_loop_walk, firstn_all.
    + by rewrite blacklist_loop_walk, firstn_all.
Qed.

Lemma isHostBlacklisted_walk_witness :
  policy_of (env_lists (Some "b.example.com") None) policy0
  ∧ (isHostBlacklisted (env_lists (Some "b.example.com") None)
       "a.b.example.com" policy0).1
    = spec_walk (csvToMap "b.example.com") (policy_keys "a.b.example.com")
  ∧ (isHostBlacklisted (env_lists (Some "b.example.com") None)
       "a.b.example.com" policy0).1 = true.
Proof.
  assert (policy_of (env_lists (Some "b.example.com") None) policy0) as H1 by (by left).
  split; [exact H1|]. split.
  - exact (proj1 (proj1 (proj2 (proj2
      (isHostBlacklisted_walk (env_lists (Some "b.example.com") None) policy0
         "a.b.example.com" H1))))).
  - vm_compute. reflexivity.
Defined.

(** ** C2: the keys of [csvToMap] *)

Lemma csvToMap_keys_dot (str k : string) :
  is_Some (csvToMap str !! k) → ∃ r, k = String dot r.
Proof.
  intros Hk. destruct (csvToMap_closed str k Hk) as [Hself _].
  apply dotTails_suffix in Hself as [_ Hdot]. by apply startsWith_dot.
Qed.

(** C2 fails on the code.  For the list [a.b.example.com] the map holds the
    three keys that start at a dot, [.com], [.example.com] and
    [.b.example.com], the last one marked [true]; the suffixes [com],
    [example.com], [b.example.com] and the host itself have no entry.  The
    mark sits one label above the host supplied: the list [example.com]
    blacklists [other.com], and [evil.example.com] blacklists
    [good.example.com].  In general each host of the list, trimmed and in
    lower case, overwrites the entries at its keys, [true] at the first key
    and [false] at the others, and no key of any list starts with anything
    but a dot. *)
Theorem csvToMap_host_not_recorded :
  csvToMap "a.b.example.com"
  = {[ ".com" := false; ".example.com" := false; ".b.example.com" := true ]}
  ∧ csvToMap "a.b.example.com" !! "a.b.example.com" = None
  ∧ csvToMap "a.b.example.com" !! "b.example.com" = None
  ∧ csvToMap "a.b.example.com" !! "example.com" = None
  ∧ csvToMap "a.b.example.com" !! "com" = None
  ∧ (isHostBlacklisted (env_lists (Some "example.com") None) "other.com" policy0).1 = true
  ∧ (isHostBlacklisted (env_lists (Some "evil.example.com") None)
                       "good.example.com" policy0).1 = true
  ∧ (∀ acc host k,
       csvToMap_step acc host !! k
       = let keys := policy_keys (JS.toLowerCase (JS.trim host)) in
         if decide (k ∈ keys) then Some (bool_decide (head keys = Some k))
         else acc !! k)
  ∧ ∀ str k, is_Some (csvToMap str !! k) → ∃ r, k = String dot r.
Proof.
  repeat split; try (vm_compute; reflexivity).
  - intros acc host k. cbv zeta.
    by rewrite csvToMap_step_tails, lookup_mark_tails, policy_keys_dotTails.
  - apply csvToMap_keys_dot.
Qed.

(** ** The cache *)

Lemma lru_max_pos : ∃ n, lru_max = S n.
Proof. exists (Nat.pred lru_max). by vm_compute. Qed.

Lemma lru_peek_cons (k k' : string) (v : CacheValue) (c : LRU) :
  lru_peek k ((k', v) :: c) = if String.eqb k' k then Some v else lru_peek k c.
Proof. done. Qed.

Lemma lru_peek_remove_ne (k k' : string) (c : LRU) :
  k ≠ k' → lru_peek k' (lru_remove k c) = lru_peek k' c.
Proof.
  intros Hne. induction c as [|[k0 v] c IH]; simpl; [done|].
  destruct (String.eqb k0 k) eqn:E.
  - apply String.eqb_eq in E as ->.
    by rewrite IH, (proj2 (String.eqb_neq k k')).
  - simpl. by rewrite IH.
Qed.

(** [get] moves a slot and changes no content. *)
Lemma lru_peek_get (k k' : string) (c : LRU) :
  lru_peek k' (lru_get k c).2 = lru_peek k' c.
Proof.
  unfold lru_get. destruct (lru_peek k c) as [v|] eqn:E; [|done].
  cbn [snd]. rewrite lru_peek_cons.
  destruct (String.eqb k k') eqn:Ek.
  - apply String.eqb_eq in Ek as ->. done.
  - apply String.eqb_neq in Ek. by apply lru_peek_remove_ne.
Qed.

Lemma lru_get_fst (k : string) (c : LRU) : (lru_get k c).1 = lru_peek k c.
Proof. unfold lru_get. by destruct (lru_peek k c). Qed.

Lemma lru_get_None (k : string) (c : LRU) :
  lru_peek k c = None → lru_get k c = (None, c).
Proof. unfold lru_get. by intros ->. Qed.

(** [set] makes the slot hold the value. *)
Lemma lru_peek_set (k : string) (v : CacheValue) (c : LRU) :
  lru_peek k (lru_set k v c) = Some v.
Proof.
  unfold lru_set. destruct lru_max_pos as [n ->]. simpl.
  by rewrite String.eqb_refl.
Qed.

Lemma lru_peek_elem (k : string) (v : CacheValue) (c : LRU) :
  lru_peek k c = Some v → (k, v) ∈ c.
Proof.
  induction c as [|[k' v'] c IH]; simpl; [done|].
  destruct (String.eqb k' k) eqn:E.
  - apply String.eqb_eq in E as ->. intros [= ->]. apply elem_of_cons; by left.
  - intros H. apply elem_of_cons; right; auto.
Qed.

Lemma lru_remove_Forall (P : string * CacheValue → Prop) (k : string) (c : LRU) :
  Forall P c → Forall P (lru_remove k c).
Proof.
  induction 1 as [|[k' v] c Hx Hc IH]; simpl; [constructor|].
  destruct (String.eqb k' k); [done | by constructor].
Qed.

Lemma lru_get_Forall (P : string * CacheValue → Prop) (k : string) (c : LRU) :
  Forall P c → Forall P (lru_get k c).2.
Proof.
  intros Hc. unfold lru_get. destruct (lru_peek k c) as [v|] eqn:E; [|done].
  cbn [snd]. constructor; [|by apply lru_remove_Forall].
  rewrite Forall_forall in Hc. by apply Hc, lru_peek_elem.
Qed.

Lemma lru_set_Forall (P : string * CacheValue → Prop) (k : string) (v : CacheValue)
    (c : LRU) :
  P (k, v) → Forall P c → Forall P (lru_set k v c).
Proof.
  intros Hkv Hc. unfold lru_set. apply Forall_take.
  constructor; [done | by apply lru_remove_Forall].
Qed.

(** ** Lower case *)

Lemma lowerChar_idem (c : ascii) : JS.lowerChar (JS.lowerChar c) = JS.lowerChar c.
Proof. destruct c as [[] [] [] [] [] [] [] []]; reflexivity. Qed.

Lemma toLowerCase_idem (s : string) :
  JS.toLowerCase (JS.toLowerCase s) = JS.toLowerCase s.
Proof. induction s as [|c s IH]; simpl; [done|]. by rewrite lowerChar_idem, IH. Qed.

Lemma stripPort_lower (s : string) :
  JS.toLowerCase s = s → JS.toLowerCase (JS.stripPort s) = JS.stripPort s.
Proof.
  induction s as [|c s IH]; [done|]. cbn [JS.toLowerCase JS.stripPort].
  intros [= Hc Hs].
  destruct (Ascii.eqb c ":" && JS.truthy s && JS.allDigits s); [done|].
  cbn [JS.toLowerCase]. by rewrite Hc, IH.
Qed.

(** The cache key of a request is in lower case. *)
Lemma hostOf_lower (req : Request) : JS.toLowerCase (hostOf req) = hostOf req.
Proof. apply stripPort_lower, toLowerCase_idem. Qed.

(** ** The validation pipeline *)

(** What a successful [buildCache] went through and what it answers. *)
Lemma buildCache_Ok (w : World) (host : string) (st st' : State) (c : Cache)
    (l : list Event) :
  buildCache w host st = (Ok c, st', l) →
  isIpAddress w host = false ∧ isExceedHostLimit host = false
  ∧ isExceedLabelLimit host = false
  ∧ ∃ a b r,
      dns w host 257 = inr a ∧ validateCAA_answer a = None
      ∧ dns w ("_." +:+ host) 16 = inr b ∧ findTxt_answer b = Some r
      ∧ (JS.startsWith "http://" (txt_url r) || JS.startsWith "https://" (txt_url r)) = true
      ∧ isHttpCodeAllowed (default "301" (txt_httpStatus r)) = true
      ∧ c = {| url := if JS.endsWithChar "*" (txt_url r) then JS.dropLast (txt_url r)
                      else txt_url r;
               expand := JS.endsWithChar "*" (txt_url r);
               blacklisted := (isHostBlacklisted (env w) host (policy st)).1;
               expire := now_buildCache w + cacheExpirySeconds (env_loaded w) * 1000;
               httpStatus := JS.parseInt (default "301" (txt_httpStatus r)) |}
      ∧ st' = {| resolveCache := resolveCache st;
                 policy := (isHostBlacklisted (env w) host (policy st)).2 |}
      ∧ l = [EvDns host 257; EvDns ("_." +:+ host) 16].
Proof.
  unfold_M. intros H.
  repeat case_match; simplify_eq.
  all: repeat split; try done.
  all: eexists _, _, _; repeat split; try done.
  all: try (apply negb_false_iff; done).
  all: try match goal with
       | H : negb _ && negb _ = false |- _ =>
           apply andb_false_iff in H as [H|H]; apply negb_false_iff in H;
           rewrite H; try done; apply orb_true_r
       end.
  all: match goal with
       | H : isHostBlacklisted _ _ _ = _, H' : JS.endsWithChar _ _ = _ |- _ =>
           rewrite H, ?H'; done
       end.
Qed.

(** A failing [buildCache] leaves the module variables as they were. *)
Lemma buildCache_Throw (w : World) (host : string) (st st' : State) (e : JsError)
    (l : list Event) :
  buildCache w host st = (Throw e, st', l) → st' = st.
Proof.
  unfold_M. intros H. repeat case_match; simplify_eq; done.
Qed.

(** [buildCache] only queries the resolver and never touches the cache. *)
Lemma buildCache_effects (w : World) (host : string) (st st' : State)
    (r : Result Cache) (l : list Event) :
  buildCache w host st = (r, st', l) →
  resolveCache st' = resolveCache st ∧ Forall isDns l.
Proof.
  unfold_M. intros H. repeat case_match; simplify_eq; cbn [resolveCache].
  all: split; [done|]; repeat constructor.
Qed.

(** ** The cache lookup and the rebuild *)

Lemma fresh_needsBuild (now : Z) (cached : option CacheValue) :
  fresh now cached = None ↔ needsBuild now cached = true.
Proof.
  destruct cached as [[c|]|]; cbn [fresh needsBuild]; [|done..].
  by destruct (now >? expire c).
Qed.

Lemma resolve_hit (w : World) (host : string) (st : State) (c : Cache) :
  lru_peek host (resolveCache st) = Some (Entry c) →
  needsBuild (now_listener w) (Some (Entry c)) = false →
  resolve w host st = (Ok c, after_get host st, []).
Proof.
  intros Hpeek Hfresh. unfold resolve, after_get, cache_get, bind, ret, lru_get.
  rewrite Hpeek. cbn [needsBuild] in Hfresh. cbn [fresh snd]. by rewrite Hfresh.
Qed.

Lemma resolve_miss (w : World) (host : string) (st : State) :
  needsBuild (now_listener w) (lru_peek host (resolveCache st)) = true →
  resolve w host st
  = match buildCache w host (after_get host st) with
    | (Ok c', st2, lv) =>
        (Ok c', after_set host (Entry c') st2, lv ++ [EvCacheSet host (Entry c')])
    | (Throw e, st2, lv) => (Throw e, st2, lv)
    end.
Proof.
  intros Hmiss%fresh_needsBuild. unfold resolve, after_get, after_set, bind, ret.
  unfold cache_get at 1. rewrite (surjective_pairing (lru_get host (resolveCache st))).
  rewrite lru_get_fst, Hmiss. unfold bind, cache_set, ret.
  destruct (buildCache w host _) as [[[c'|e] st2] lv]; [|done].
  by rewrite app_nil_r.
Qed.

(** ** Routing *)

Lemma isHome_decide (w : World) (req : Request) :
  isHome w req = if decide (Some (hostOf req) = HOME_DOMAIN (env w)) then true else false.
Proof. unfold isHome. by destruct (decide _); [rewrite bool_decide_eq_true_2|rewrite bool_decide_eq_false_2]. Qed.

(** A request that reaches the forwarding code runs [forward], after the
    [setHeader] calls when it came through the control-plane branch. *)
Lemma listener_try_forward (w : World) (req : Request) (st : State) :
  reachesForward w req = true →
  listener_try w req st
  = match forward w req (urlOf req) (hostOf req) st with
    | (r, st', l) => (r, st', cors_of w req ++ l)
    end.
Proof.
  unfold reachesForward, cors_of. rewrite isHome_decide.
  intros [[Hacme Hhost]%andb_true_iff Hroute]%andb_true_iff.
  apply negb_true_iff in Hacme.
  unfold listener_try. fold (urlOf req). rewrite Hacme, Hhost. cbn [negb].
  destruct (decide (Some (hostOf req) = HOME_DOMAIN (env w))) as [Hhome|Hhome].
  - cbn [negb orb] in Hroute.
    apply andb_true_iff in Hroute as [[[Hm H1]%andb_true_iff H2]%andb_true_iff H3].
    apply negb_true_iff in Hm, H1, H2, H3.
    unfold homeDomain. rewrite Hm, H1, H2, H3.
    unfold bind, emit, ret. cbn [app].
    by destruct (forward w req (urlOf req) (hostOf req) st) as [[r st'] l].
  - unfold bind, ret. by destruct (forward w req (urlOf req) (hostOf req) st) as [[r st'] l].
Qed.

Lemma forward_eq (w : World) (req : Request) (url' host : string) (st : State) :
  forward w req url' host st
  = match resolve w host st with
    | (Ok c, st1, l1) =>
        match respond w req url' c st1 with
        | (r, st2, l2) => (r, st2, l1 ++ l2)
        end
    | (Throw e, st1, l1) => (Throw e, st1, l1)
    end.
Proof. done. Qed.

(** [writeHead] with one header and a status within range. *)
Lemma writeHead_one (n : Z) (name value : string) (st : State) :
  100 ≤ n ≤ 999 →
  writeHead (Some n) [(name, value)] st
  = if validHeaderValue value then (Ok tt, st, [EvWriteHead n [(name, value)]])
    else (Throw (invalidChar name), st, []).
Proof.
  intros [H1 H2]. unfold writeHead.
  apply Z.leb_le in H1, H2. rewrite H1, H2. cbn [andb invalidHeader].
  by destruct (validHeaderValue value).
Qed.

(** The response for a decision that is not blacklisted and carries an
    allowed status is the redirect, unless Node refuses the value of its
    [Location]; nothing else happens. *)
Lemma respond_redirect (w : World) (req : Request) (url' : string) (c : Cache)
    (st : State) :
  blacklisted c = false → allowedStatus (httpStatus c) →
  let location := if expand c then combineURLs (url c) url' else url c in
  ∃ n, httpStatus c = Some n
       ∧ respond w req url' c st
         = if validHeaderValue location
           then (Ok tt, st, [EvWriteHead n [("Location", location)]])
           else (Throw (invalidChar "Location"), st, []).
Proof.
  intros Hb Hs location. unfold respond. rewrite Hb. fold location.
  destruct Hs as [H|[H|[H|H]]]; rewrite H; eexists; (split; [done|]);
    by rewrite writeHead_one.
Qed.

(** The response for a decision never changes the module variables. *)
Lemma respond_state (w : World) (req : Request) (url' : string) (c : Cache)
    (st st' : State) (r : Result unit) (l : list Event) :
  respond w req url' c st = (r, st', l) → st' = st.
Proof.
  unfold respond. unfold_M. intros H. repeat case_match; simplify_eq; done.
Qed.

(** ** The invariant of the cache *)


Lemma isHttpCodeAllowed_cases (code : string) :
  isHttpCodeAllowed code = true ↔
  code = "301" ∨ code = "302" ∨ code = "307" ∨ code = "308".
Proof.
  unfold isHttpCodeAllowed. cbn [existsb]. rewrite !orb_true_iff, !String.eqb_eq.
  intuition discriminate.
Qed.

Lemma isHttpCodeAllowed_parseInt (code : string) :
  isHttpCodeAllowed code = true → allowedStatus (JS.parseInt code).
Proof.
  intros [-> | [-> | [-> | ->]]]%isHttpCodeAllowed_cases; unfold allowedStatus;
    vm_compute; auto.
Qed.

Lemma buildCache_allowed (w : World) (host : string) (st st' : State) (c : Cache)
    (l : list Event) :
  buildCache w host st = (Ok c, st', l) → allowedStatus (httpStatus c).
Proof.
  intros (_ & _ & _ & a & b & r & _ & _ & _ & _ & _ & Hcode & -> & _)%buildCache_Ok.
  by apply isHttpCodeAllowed_parseInt.
Qed.

Lemma resolve_inv (w : World) (host : string) (st st' : State) (r : Result Cache)
    (l : list Event) :
  JS.toLowerCase host = host → cache_ok st → resolve w host st = (r, st', l) →
  cache_ok st' ∧ Forall redirect_ok l
  ∧ match r with Ok c => allowedStatus (httpStatus c) | Throw _ => True end.
Proof.
  intros Hhost Hok.
  destruct (needsBuild (now_listener w) (lru_peek host (resolveCache st))) eqn:Hn.
  - rewrite resolve_miss by done.
    destruct (buildCache w host (after_get host st)) as [[[c'|e] st2] lv] eqn:Hb.
    + intros [= <- <- <-]. pose proof (buildCache_allowed _ _ _ _ _ _ Hb) as Hc.
      destruct (buildCache_effects _ _ _ _ _ _ Hb) as [Hcache Hdns].
      split; [|split; [|done]].
      * unfold cache_ok, after_set. cbn [resolveCache]. rewrite Hcache.
        apply lru_set_Forall; [done|]. by apply lru_get_Forall.
      * apply Forall_app; split; [|by Forall_list].
        eapply Forall_impl; [exact Hdns|]. by intros [].
    + intros [= <- <- <-]. rewrite (buildCache_Throw _ _ _ _ _ _ Hb).
      destruct (buildCache_effects _ _ _ _ _ _ Hb) as [_ Hdns].
      split; [by apply lru_get_Forall|]. split; [|done].
      eapply Forall_impl; [exact Hdns|]. by intros [].
  - destruct (lru_peek host (resolveCache st)) as [[c|]|] eqn:Hpeek; try done.
    rewrite (resolve_hit _ _ _ c) by done. intros [= <- <- <-].
    split; [by apply lru_get_Forall|]. split; [constructor|].
    unfold cache_ok in Hok. rewrite Forall_forall in Hok.
    by destruct (Hok _ (lru_peek_elem _ _ _ Hpeek)) as [_ ?].
Qed.

Lemma respond_inv (w : World) (req : Request) (url' : string) (c : Cache)
    (st st' : State) (r : Result unit) (l : list Event) :
  allowedStatus (httpStatus c) → respond w req url' c st = (r, st', l) →
  Forall redirect_ok l.
Proof.
  intros Hc. unfold respond. unfold_M. intros H.
  repeat case_match; simplify_eq; cbn [app]; Forall_list; cbn [redirect_ok];
    try done.
  - intros _. right; by left.
  - by intros [t ?%elem_of_nil].
Qed.

Lemma forward_inv (w : World) (req : Request) (url' host : string) (st st' : State)
    (r : Result unit) (l : list Event) :
  JS.toLowerCase host = host → cache_ok st → forward w req url' host st = (r, st', l) →
  cache_ok st' ∧ Forall redirect_ok l.
Proof.
  intros Hhost Hok. rewrite forward_eq.
  destruct (resolve w host st) as [[[c|e] st1] l1] eqn:Hres;
    destruct (resolve_inv _ _ _ _ _ _ Hhost Hok Hres) as (Hok1 & Hl1 & Hc).
  - destruct (respond w req url' c st1) as [[r2 st2] l2] eqn:Hresp.
    intros [= <- <- <-]. rewrite (respond_state _ _ _ _ _ _ _ _ Hresp).
    split; [done|]. apply Forall_app. split; [done|]. by eapply respond_inv.
  - by intros [= <- <- <-].
Qed.

(** A request that does not reach the forwarding code leaves the module
    variables alone and sends no redirect. *)
Lemma listener_try_static (w : World) (req : Request) (st : State) :
  reachesForward w req = false →
  ∃ r l, listener_try w req st = (r, st, l)
         ∧ Forall redirect_ok l ∧ Forall (fun e => ¬ isCacheSet e) l.
Proof.
  assert (∀ k v : string, k ≠ "Location" →
            ¬ ∃ target : string, ("Location", target) ∈ [(k, v)]) as Hloc.
  { intros k v Hk [target Ht]. apply list_elem_of_singleton in Ht. congruence. }
  unfold reachesForward. rewrite isHome_decide.
  unfold listener_try. fold (urlOf req).
  destruct (JS.startsWith acme_prefix (urlOf req)); cbn [negb andb].
  { intros _. unfold_M. destruct (challengeCallbacks w); simpl;
      eexists _, _; (split; [done|]); split; simpl; Forall_list; cbn; try tauto;
      try (by intros [t ?%elem_of_nil]). intros H. by apply Hloc in H. }
  destruct (JS.truthy (hostOf req)); cbn [negb andb].
  2: { intros _. unfold_M. simpl. eexists _, _; (split; [done|]);
       split; simpl; Forall_list; cbn; try tauto. by intros [t ?%elem_of_nil]. }
  destruct (decide (Some (hostOf req) = HOME_DOMAIN (env w))); [|done].
  cbn [negb orb]. unfold homeDomain. unfold_M. simpl.
  destruct (String.eqb (req_method req) "OPTIONS"); cbn [negb andb].
  { intros _. eexists _, _; (split; [done|]); split; simpl; Forall_list; cbn; tauto. }
  destruct (String.eqb (urlOf req) "/stat"); cbn [negb andb].
  { intros _. eexists _, _; (split; [done|]); split; simpl; Forall_list; cbn; try tauto.
    intros H. by apply Hloc in H. }
  destruct (String.eqb (urlOf req) "/health"); cbn [negb andb].
  { intros _. eexists _, _; (split; [done|]); split; simpl; Forall_list; cbn; try tauto.
    intros H. by apply Hloc in H. }
  destruct (String.eqb (urlOf req) "/flushcache"); cbn [negb andb]; [|done].
  intros _. destruct (String.eqb (req_method req) "POST");
    eexists _, _; (split; [done|]); split; simpl; Forall_list; cbn; try tauto;
    intros H; by apply Hloc in H.
Qed.

Lemma finish_inv (r : Result unit) (st : State) (l : list Event) :
  Forall redirect_ok l → Forall redirect_ok (finish (r, st, l)).2.
Proof.
  intros Hl. destruct r as [[]|e]; cbn [finish snd]; apply Forall_app; split;
    try done; unfold error_response; cbn [app]; Forall_list; cbn; try done.
  by intros [t ?%elem_of_nil].
Qed.

Lemma finish_state (r : Result unit) (st : State) (l : list Event) :
  (finish (r, st, l)).1 = st.
Proof. by destruct r. Qed.

Lemma listener_inv (w : World) (req : Request) (st : State) :
  cache_ok st →
  cache_ok (listener w req st).1 ∧ Forall redirect_ok (listener w req st).2.
Proof.
  intros Hok. unfold listener.
  destruct (reachesForward w req) eqn:Hroute.
  - rewrite listener_try_forward by done.
    destruct (forward w req (urlOf req) (hostOf req) st) as [[r st'] l] eqn:Hf.
    destruct (forward_inv _ _ _ _ _ _ _ _ (hostOf_lower req) Hok Hf) as [Hok' Hl].
    rewrite finish_state. split; [done|]. apply finish_inv.
    apply Forall_app. split; [|done].
    unfold cors_of, cors. destruct (isHome w req); Forall_list; by cbn.
  - destruct (listener_try_static w req st Hroute) as (r & l & -> & Hl & _).
    rewrite finish_state. split; [done|]. by apply finish_inv.
Qed.

Lemma onEnd_inv (w : World) (totalSize : Z) (body : string) (st st' : State)
    (r : Result unit) (l : list Event) :
  cache_ok st → onEnd w totalSize body st = (r, st', l) →
  cache_ok st' ∧ Forall redirect_ok l.
Proof.
  intros Hok. unfold onEnd. unfold_M. intros H.
  repeat case_match; simplify_eq; cbn [app]; (split; [|by Forall_list]); try done.
  all: unfold cache_ok in *; cbn [resolveCache].
  all: match goal with H : lru_get ?k ?c = (?v, ?c') |- _ =>
         pose proof (lru_get_Forall slot_ok k c Hok) as Hg;
         pose proof (lru_get_fst k c) as Hp; rewrite H in Hg, Hp; cbn in Hg, Hp
       end; try done.
  apply lru_set_Forall; [|done]. symmetry in Hp.
  apply lru_peek_elem in Hp. rewrite Forall_forall in Hok.
  destruct (Hok _ Hp) as [Hlow _]. by split.
Qed.

Lemma serve_inv (w : World) (req : Request) (st : State) :
  cache_ok st → cache_ok (serve w req st).1 ∧ Forall redirect_ok (serve w req st).2.
Proof.
  intros Hok. unfold serve.
  destruct (listener_inv w req st Hok) as [Hok1 Hl1].
  destruct (listener w req st) as [st1 l1]. cbn [fst snd] in *.
  destruct (existsb isReqOn l1); [|done].
  destruct (onData (req_chunks req) 0 "") as [[totalSize body] []]; [done|].
  destruct (onEnd w totalSize body st1) as [[r st2] l2] eqn:He.
  destruct (onEnd_inv _ _ _ _ _ _ _ Hok1 He) as [Hok2 Hl2].
  split; [done|]. by apply Forall_app.
Qed.

(** Every state of a process satisfies the invariant of the cache. *)
Lemma reachable_ok (st : State) : reachable st → cache_ok st.
Proof.
  induction 1 as [|w req st Hst IH]; [by constructor|].
  by apply serve_inv.
Qed.

(** ** C3: the status-code allow-list *)





(** ** C4: the wildcard and the join *)

Lemma endsWithChar_dropLast (c : ascii) (s : string) :
  JS.endsWithChar c s = true → s = JS.dropLast s +:+ String c "".
Proof.
  induction s as [|a s IH]; [done|]. cbn [JS.endsWithChar JS.dropLast].
  destruct s as [|a' s'].
  - by intros ->%Ascii.eqb_eq.
  - intros H. rewrite append_cons. f_equal. by apply IH.
Qed.

Lemma append_length (a b : string) :
  String.length (a +:+ b) = (String.length a + String.length b)%nat.
Proof. induction a as [|x a IH]; [done|]. rewrite append_cons. simpl. by rewrite IH. Qed.

Lemma append_star_ne (s : string) : s ≠ s +:+ "*".
Proof.
  intros H. apply (f_equal String.length) in H. rewrite append_length in H.
  simpl in H. lia.
Qed.

Lemma allSlashes_cons (c : ascii) (s : string) :
  JS.allSlashes (String c s) = Ascii.eqb c "/" && JS.allSlashes s.
Proof. done. Qed.

(** [stripTrailingSlashes] removes the whole run of slashes at the end. *)
Lemma stripTrailingSlashes_spec (s : string) :
  ∃ run, s = JS.stripTrailingSlashes s +:+ run ∧ JS.allSlashes run = true
         ∧ JS.endsWithChar "/" (JS.stripTrailingSlashes s) = false.
Proof.
  induction s as [|c s (run & Hs & Hrun & Hend)]; [by exists ""|].
  cbn [JS.stripTrailingSlashes].
  destruct (JS.allSlashes (String c s)) eqn:E.
  - by exists (String c s).
  - exists run. rewrite append_cons, <- Hs. split; [done|]. split; [done|].
    cbn [JS.endsWithChar].
    destruct (JS.stripTrailingSlashes s) as [|c' s'] eqn:Es; [|done].
    rewrite append_nil_l in Hs. subst run.
    rewrite allSlashes_cons, Hrun, andb_true_r in E. done.
Qed.

(** [stripLeadingSlashes] removes the whole run of slashes at the start. *)
Lemma stripLeadingSlashes_spec (s : string) :
  ∃ run, s = run +:+ JS.stripLeadingSlashes s ∧ JS.allSlashes run = true
         ∧ JS.startsWith "/" (JS.stripLeadingSlashes s) = false.
Proof.
  induction s as [|c s (run & Hs & Hrun & Hstart)]; [by exists ""|].
  cbn [JS.stripLeadingSlashes].
  destruct (Ascii.eqb c "/") eqn:E.
  - exists (String c run). rewrite append_cons, <- Hs.
    by rewrite allSlashes_cons, E, Hrun.
  - exists "". rewrite append_nil_l. split; [done|]. split; [done|].
    cbn [JS.startsWith]. rewrite Ascii.eqb_sym, E. done.
Qed.

Lemma allSlashes_app (a b : string) :
  JS.allSlashes (a +:+ b) = JS.allSlashes a && JS.allSlashes b.
Proof.
  induction a as [|c a IH]; [done|].
  rewrite append_cons, !allSlashes_cons, IH. by rewrite andb_assoc.
Qed.

Lemma stripTrailingSlashes_slashes (run : string) :
  JS.allSlashes run = true → JS.stripTrailingSlashes run = "".
Proof. destruct run as [|c run]; [done|]. intros H. cbn [JS.stripTrailingSlashes]. by rewrite H. Qed.

Lemma stripTrailingSlashes_app (s run : string) :
  JS.allSlashes run = true →
  JS.stripTrailingSlashes (s +:+ run) = JS.stripTrailingSlashes s.
Proof.
  intros Hrun. induction s as [|c s IH].
  - rewrite append_nil_l. by apply stripTrailingSlashes_slashes.
  - rewrite append_cons. cbn [JS.stripTrailingSlashes].
    rewrite <- append_cons, allSlashes_app, Hrun, andb_true_r, IH. done.
Qed.

Lemma stripLeadingSlashes_app (run s : string) :
  JS.allSlashes run = true →
  JS.stripLeadingSlashes (run +:+ s) = JS.stripLeadingSlashes s.
Proof.
  induction run as [|c run IH]; [done|].
  rewrite allSlashes_cons, append_cons. intros [Hc Hrun]%andb_true_iff.
  cbn [JS.stripLeadingSlashes]. rewrite Hc. by apply IH.
Qed.

Lemma append_nil_r (s : string) : s +:+ "" = s.
Proof. induction s as [|c s IH]; [done|]. by rewrite append_cons, IH. Qed.

Lemma endsWithChar_snoc (c : ascii) (p : string) :
  JS.endsWithChar c (p +:+ String c "") = true.
Proof.
  induction p as [|a p IH]; [cbn; apply Ascii.eqb_refl|].
  rewrite append_cons. cbn [JS.endsWithChar]. rewrite IH.
  destruct (p +:+ String c "") eqn:E; [by destruct p | done].
Qed.

Lemma dropLast_snoc (c : ascii) (p : string) : JS.dropLast (p +:+ String c "") = p.
Proof.
  induction p as [|a p IH]; [done|].
  rewrite append_cons. cbn [JS.dropLast]. rewrite IH.
  destruct (p +:+ String c "") eqn:E; [by destruct p | done].
Qed.

(** [s.endsWith(c)], in terms of the string alone. *)
Lemma endsWithChar_spec (c : ascii) (s : string) :
  JS.endsWithChar c s = true ↔ ∃ p, s = p +:+ String c "".
Proof.
  split.
  - intros H. exists (JS.dropLast s). by apply endsWithChar_dropLast.
  - intros [p ->]. apply endsWithChar_snoc.
Qed.

Lemma allSlashes_slashes (n : nat) : JS.allSlashes (slashes n) = true.
Proof. induction n as [|n IH]; [done|]. cbn [slashes]. by rewrite allSlashes_cons, IH. Qed.

Lemma slashes_snoc (n : nat) : slashes (S n) = slashes n +:+ "/".
Proof.
  induction n as [|n IH]; [done|]. cbn [slashes] in *.
  rewrite append_cons. by f_equal.
Qed.

Lemma allSlashes_run (run : string) :
  JS.allSlashes run = true → ∃ n, run = slashes n.
Proof.
  induction run as [|c run IH]; [by exists O|].
  rewrite allSlashes_cons. intros [->%Ascii.eqb_eq [n ->]%IH]%andb_true_iff.
  by exists (S n).
Qed.

(** Every string is a string that does not end in a slash, followed by a
    run of slashes, and [stripTrailingSlashes] gives the former. *)
Lemma stripTrailingSlashes_run (b : string) (n : nat) :
  (∀ x, b ≠ x +:+ "/") → JS.stripTrailingSlashes (b +:+ slashes n) = b.
Proof.
  intros Hb. rewrite stripTrailingSlashes_app by apply allSlashes_slashes.
  destruct (stripTrailingSlashes_spec b) as (run & Hs & [k ->]%allSlashes_run & _).
  destruct k as [|k].
  - cbn [slashes] in Hs. by rewrite append_nil_r in Hs.
  - rewrite slashes_snoc, <- append_assoc in Hs. by destruct (Hb _ Hs).
Qed.

Lemma trailing_run (s : string) :
  ∃ b n, s = b +:+ slashes n ∧ ∀ x, b ≠ x +:+ "/".
Proof.
  destruct (stripTrailingSlashes_spec s) as (run & Hs & [n ->]%allSlashes_run & Hend).
  exists (JS.stripTrailingSlashes s), n. split; [done|].
  intros x Hx. rewrite Hx, endsWithChar_snoc in Hend. done.
Qed.

Lemma stripLeadingSlashes_run (r : string) (m : nat) :
  (∀ x, r ≠ "/" +:+ x) → JS.stripLeadingSlashes (slashes m +:+ r) = r.
Proof.
  intros Hr. rewrite stripLeadingSlashes_app by apply allSlashes_slashes.
  destruct r as [|c r]; [done|]. cbn [JS.stripLeadingSlashes].
  destruct (Ascii.eqb c "/") eqn:E; [|done].
  apply Ascii.eqb_eq in E as ->. by destruct (Hr r).
Qed.

Lemma leading_run (s : string) :
  ∃ m r, s = slashes m +:+ r ∧ ∀ x, r ≠ "/" +:+ x.
Proof.
  destruct (stripLeadingSlashes_spec s) as (run & Hs & [m ->]%allSlashes_run & Hstart).
  exists m, (JS.stripLeadingSlashes s). split; [done|].
  intros x Hx. rewrite Hx in Hstart. done.
Qed.

Lemma validHeaderChar_spec (c : ascii) :
  validHeaderChar c = true
  ↔ (N_of_ascii c = 9 ∨ 32 ≤ N_of_ascii c ≤ 126 ∨ 128 ≤ N_of_ascii c)%N.
Proof.
  unfold validHeaderChar.
  rewrite !orb_true_iff, andb_true_iff, N.eqb_eq, !N.leb_le. tauto.
Qed.

(** [validHeaderValue], in terms of the characters of the value. *)
Lemma validHeaderValue_spec (v : string) : validHeaderValue v = true ↔ headerSafe v.
Proof.
  unfold headerSafe. induction v as [|a v IH]; cbn [validHeaderValue].
  - split; [by intros _ [|i] c | done].
  - rewrite andb_true_iff, IH, validHeaderChar_spec. split.
    + intros [Ha Hv] [|i] c H; cbn in H; [by injection H as <- | by eapply Hv].
    + intros H. split; [by apply (H O) | intros i c Hi; by apply (H (S i))].
Qed.

Lemma listener_forward (w : World) (req : Request) (st : State) :
  reachesForward w req = true →
  listener w req st
  = finish match forward w req (urlOf req) (hostOf req) st with
           | (r, st', l) => (r, st', cors_of w req ++ l)
           end.
Proof. intros H. unfold listener. by rewrite listener_try_forward. Qed.

(** C4.  For a request that reaches the forwarding code in a state of the
    process, with a decision that is not blacklisted, the redirect, which
    is sent when Node accepts its [Location] as a header value, has as
    [Location] the destination URL itself when wildcard-expand is off, and
    the destination URL joined with the request path when it is on; when
    Node refuses the value no redirect is sent and the answer is 400.  A
    decision built from a TXT value [u*] has the URL [u] and wildcard-expand
    set, so its URL is not the TXT value; any other value is taken as it is.
    The join with an empty path is the base; otherwise the slashes at the
    end of the base and at the start of the path, however many, are
    replaced by one slash between the two. *)
Theorem wildcard_destination (w : World) (req : Request) (st st1 : State)
    (c : Cache) (l1 : list Event) :
  reachable st → reachesForward w req = true →
  resolve w (hostOf req) st = (Ok c, st1, l1) → blacklisted c = false →
  (let location := if expand c then combineURLs (url c) (urlOf req) else url c in
   ∃ n, httpStatus c = Some n
        ∧ (headerSafe location →
           listener w req st
           = (st1, cors_of w req ++ l1
                   ++ [EvWriteHead n [("Location", location)]; EvEnd]))
        ∧ (¬ headerSafe location →
           listener w req st
           = (st1, cors_of w req ++ l1
                   ++ [EvWriteHead 400 [];
                       EvWrite ("Invalid character in header content [" +:+ dq
                                +:+ "Location" +:+ dq +:+ "]");
                       EvEnd])))
  ∧ (∀ host' st0 c' st' l,
       buildCache w host' st0 = (Ok c', st', l) →
       ∃ b r, dns w ("_." +:+ host') 16 = inr b ∧ findTxt_answer b = Some r
              ∧ ((∃ u, txt_url r = u +:+ "*" ∧ url c' = u ∧ expand c' = true
                       ∧ url c' ≠ txt_url r)
                 ∨ ((∀ u, txt_url r ≠ u +:+ "*")
                    ∧ url c' = txt_url r ∧ expand c' = false)))
  ∧ (∀ base, combineURLs base "" = base)
  ∧ (∀ b r n m,
       (∀ x, b ≠ x +:+ "/") → (∀ x, r ≠ "/" +:+ x) → slashes m +:+ r ≠ "" →
       combineURLs (b +:+ slashes n) (slashes m +:+ r) = b +:+ "/" +:+ r)
  ∧ (∀ s, (∃ b n, s = b +:+ slashes n ∧ ∀ x, b ≠ x +:+ "/")
          ∧ ∃ m r, s = slashes m +:+ r ∧ ∀ x, r ≠ "/" +:+ x).
Proof.
  intros Hst Hroute Hres Hb. split; [|split; [|split; [|split]]].
  - intros location.
    destruct (resolve_inv _ _ _ _ _ _ (hostOf_lower req) (reachable_ok _ Hst) Hres)
      as (_ & _ & Hc).
    destruct (respond_redirect w req (urlOf req) c st1 Hb Hc) as (n & Hn & Hresp).
    fold location in Hresp. exists n. split; [done|].
    rewrite listener_forward, forward_eq, Hres, Hresp by done.
    split; intros Hsafe.
    + apply validHeaderValue_spec in Hsafe. rewrite Hsafe.
      cbn [finish]. by rewrite <- !app_assoc.
    + destruct (validHeaderValue location) eqn:E;
        [by apply validHeaderValue_spec in E|].
      cbn [finish]. by rewrite <- !app_assoc.
  - intros host' st0 c' st' l
      (_ & _ & _ & a & b & r & _ & _ & Hdns & Htxt & _ & _ & -> & _)%buildCache_Ok.
    exists b, r. split; [done|]. split; [done|]. cbn [url expand].
    destruct (JS.endsWithChar "*" (txt_url r)) eqn:E.
    + left. exists (JS.dropLast (txt_url r)).
      pose proof (endsWithChar_dropLast _ _ E) as Hu.
      split; [done|]. split; [done|]. split; [done|].
      rewrite Hu at 2. apply append_star_ne.
    + right. split; [|done]. intros u Hu.
      rewrite Hu, endsWithChar_snoc in E. done.
  - done.
  - intros b r n m Hb' Hr Hne. unfold combineURLs.
    assert (JS.truthy (slashes m +:+ r) = true) as ->
      by (by destruct (slashes m +:+ r)).
    cbn [negb]. by rewrite stripTrailingSlashes_run, stripLeadingSlashes_run.
  - intros s. split; [apply trailing_run | apply leading_run].
Qed.

Lemma wildcard_destination_witness :
  let world := world_shop "forward-domain=https://dest.example/app*" 1000 in
  let out := resolve world (hostOf (get "shop.example.com" "//x?y=1")) state0 in
  let c := {| url := "https://dest.example/app"; expand := true; blacklisted := false;
              expire := 86401000; httpStatus := Some 301 |} in
  reachable state0
  ∧ reachesForward world (get "shop.example.com" "//x?y=1") = true
  ∧ out = (Ok c, out.1.2, out.2)
  ∧ headerSafe "https://dest.example/app/x?y=1"
  ∧ listener world (get "shop.example.com" "//x?y=1") state0
    = (out.1.2,
       out.2 ++ [EvWriteHead 301 [("Location", "https://dest.example/app/x?y=1")];
                 EvEnd]).
Proof.
  intros world out c.
  assert (reachable state0) as H1 by constructor.
  assert (reachesForward world (get "shop.example.com" "//x?y=1") = true) as H2
    by (vm_compute; reflexivity).
  assert (out = (Ok c, out.1.2, out.2)) as H3 by (vm_compute; reflexivity).
  assert (headerSafe "https://dest.example/app/x?y=1") as H4
    by (apply validHeaderValue_spec; vm_compute; reflexivity).
  split; [exact H1|]. split; [exact H2|]. split; [exact H3|]. split; [exact H4|].
  destruct (proj1 (wildcard_destination world (get "shop.example.com" "//x?y=1")
                     state0 _ c _ H1 H2 H3 eq_refl)) as (n & Hn & Hok & _).
  injection Hn as <-. exact (Hok H4).
Defined.

(** ** C5: the CAA authorization *)

Lemma stripPrefix_Some (p s r : string) : stripPrefix p s = Some r ↔ s = p +:+ r.
Proof.
  revert s; induction p as [|a p IH]; intros s; cbn [stripPrefix].
  - rewrite append_nil_l. split; congruence.
  - destruct s as [|b s]; [by split|]. rewrite append_cons.
    destruct (Ascii.eqb a b) eqn:E.
    + apply Ascii.eqb_eq in E as ->. rewrite IH. split; congruence.
    + apply Ascii.eqb_neq in E. split; congruence.
Qed.

Lemma caaRegex_tail_spec (quote r : string) :
  caaRegex_tail quote r = true
  ↔ r = quote ∨ r = ";validationmethods=http-01" +:+ quote.
Proof.
  unfold caaRegex_tail. rewrite orb_true_iff, String.eqb_eq.
  destruct (stripPrefix ";validationmethods=http-01" r) as [r'|] eqn:E.
  - apply stripPrefix_Some in E as ->. rewrite String.eqb_eq. split.
    + intros [H|H]; [by left | right; by rewrite H].
    + intros [H|H]; [by left | right].
      apply (f_equal (stripPrefix ";validationmethods=http-01")) in H.
      rewrite !(proj2 (stripPrefix_Some _ _ _) eq_refl) in H. congruence.
  - split; [intros [H|H]; [by left | done]|].
    intros [H|H]; [by left|]. apply stripPrefix_Some in H. congruence.
Qed.

(** [caaRegex] matches exactly the four permitted values. *)
Lemma caaRegex_test_spec (x : string) : caaRegex_test x = true ↔ x ∈ caa_permitted.
Proof.
  split.
  - unfold caaRegex_test.
    destruct (stripPrefix "0 issue " x) as [r|] eqn:E; [|done].
    apply stripPrefix_Some in E as ->. rewrite orb_true_iff. intros [H|H].
    + destruct (stripPrefix dq r) as [r1|] eqn:E1; [|done].
      apply stripPrefix_Some in E1 as ->.
      destruct (stripPrefix "letsencrypt.org" r1) as [r2|] eqn:E2; [|done].
      apply stripPrefix_Some in E2 as ->.
      apply caaRegex_tail_spec in H as [-> | ->]; unfold caa_permitted;
        set_solver.
    + destruct (stripPrefix "letsencrypt.org" r) as [r2|] eqn:E2; [|done].
      apply stripPrefix_Some in E2 as ->.
      apply caaRegex_tail_spec in H as [-> | ->]; unfold caa_permitted;
        set_solver.
  - unfold caa_permitted. rewrite !elem_of_cons, elem_of_nil.
    intros [-> | [-> | [-> | [-> | []]]]]; by vm_compute.
Qed.

Lemma caaIssueRecords_elem (Answer : list RR) (x : string) :
  x ∈ caaIssueRecords Answer ↔ ∃ rr, rr ∈ Answer ∧ isIssueRecord rr ∧ x = data rr.
Proof.
  unfold caaIssueRecords. rewrite list_elem_of_fmap. split.
  - intros (rr & -> & [Hin Hrr]%list_elem_of_filter). by exists rr.
  - intros (rr & Hin & Hrr & ->). exists rr. split; [done|].
    by apply list_elem_of_filter.
Qed.

Lemma validateCAA_answer_None (a : option (list RR)) :
  validateCAA_answer a = None
  ↔ a = None
    ∨ ∃ Answer, a = Some Answer
        ∧ (caaIssueRecords Answer = []
           ∨ ∃ x, x ∈ caaIssueRecords Answer ∧ x ∈ caa_permitted).
Proof.
  destruct a as [Answer|]; cbn [validateCAA_answer]; [|by split; [left|]].
  destruct (caaIssueRecords Answer) as [|y l] eqn:E; cbn [List.length Nat.eqb orb].
  - split; [|done]. intros _. right. exists Answer. split; [done|]. by left.
  - destruct (existsb caaRegex_test (y :: l)) eqn:Ex.
    + split; [|done]. intros _. right. exists Answer. split; [done|]. right.
      apply existsb_exists in Ex as (x & Hin & Hx). exists x.
      rewrite E. split; [by apply list_elem_of_In | by apply caaRegex_test_spec].
    + split; [done|]. intros [?|(A & [= <-] & [H|(x & Hin & Hx)])]; [done| |].
      * by rewrite E in H.
      * rewrite E in Hin.
        assert (existsb caaRegex_test (y :: l) = true) as Hy; [|congruence].
        apply existsb_exists. exists x.
        split; [by apply list_elem_of_In | by apply caaRegex_test_spec].
Qed.

Lemma validateCAA_answer_Some (a : option (list RR)) (l : list string) :
  validateCAA_answer a = Some l →
  l ≠ [] ∧ (∃ Answer, a = Some Answer ∧ l = caaIssueRecords Answer)
  ∧ ∀ x, x ∈ l → x ∉ caa_permitted.
Proof.
  destruct a as [Answer|]; cbn [validateCAA_answer]; [|done].
  destruct (caaIssueRecords Answer) as [|y l'] eqn:E; cbn [List.length Nat.eqb orb];
    [done|].
  destruct (existsb caaRegex_test (y :: l')) eqn:Ex; [done|].
  intros [= <-]. split; [done|]. split; [by exists Answer|].
  intros x Hin Hx.
  assert (existsb caaRegex_test (y :: l') = true) as Hy; [|congruence].
  apply existsb_exists. exists x.
  split; [by apply list_elem_of_In | by apply caaRegex_test_spec].
Qed.

Lemma validateCAARecords_eq (w : World) (host : string) (st : State) :
  validateCAARecords w host st
  = match dns w host 257 with
    | inl e => (Throw e, st, [EvDns host 257])
    | inr a => (Ok (validateCAA_answer a), st, [EvDns host 257])
    end.
Proof. unfold_M. by destruct (dns w host 257). Qed.

Lemma buildCache_caa_rejects (w : World) (host : string) (st : State)
    (a : option (list RR)) (l : list string) :
  dns w host 257 = inr a → validateCAA_answer a = Some l →
  (∃ e l', buildCache w host st = (Throw e, st, l'))
  ∧ (isIpAddress w host = false → isExceedHostLimit host = false →
     isExceedLabelLimit host = false →
     buildCache w host st
     = (Throw {| message :=
                   Some ("CAA record is not " +:+ dq +:+ "letsencrypt.org" +:+ dq
                         +:+ ". Records found: " +:+ JS.join "," l +:+ ".") |},
        st, [EvDns host 257])).
Proof.
  intros Hdns Hcaa. split.
  - unfold_M. rewrite Hdns, Hcaa. repeat case_match; simplify_eq; eauto.
  - intros Hip Hlen Hlab. unfold_M. by rewrite Hip, Hlen, Hlab, Hdns, Hcaa.
Qed.

(** C5.  [validateCAARecords(host)] queries the CAA records of the host and
    answers [null] iff the answer is absent, holds no [issue] record, or
    holds an [issue] record whose value is the authority name
    [letsencrypt.org], bare or quoted, with or without
    [;validationmethods=http-01], letter for letter.  Otherwise it answers
    the list of all [issue] records, which is not empty and holds no
    permitted value, and [buildCache] rejects the host. *)
Theorem caa_authorization (w : World) (host : string) (st : State) :
  validateCAARecords w host st
  = match dns w host 257 with
    | inl e => (Throw e, st, [EvDns host 257])
    | inr a => (Ok (validateCAA_answer a), st, [EvDns host 257])
    end
  ∧ (∀ a, validateCAA_answer a = None
          ↔ a = None
            ∨ ∃ Answer, a = Some Answer
                ∧ (caaIssueRecords Answer = []
                   ∨ ∃ x, x ∈ caaIssueRecords Answer ∧ x ∈ caa_permitted))
  ∧ (∀ Answer x, x ∈ caaIssueRecords Answer
                 ↔ ∃ rr, rr ∈ Answer ∧ isIssueRecord rr ∧ x = data rr)
  ∧ (∀ x, caaRegex_test x = true ↔ x ∈ caa_permitted)
  ∧ caaRegex_test "0 issue LetsEncrypt.org" = false
  ∧ (∀ a l, validateCAA_answer a = Some l →
            l ≠ [] ∧ (∃ Answer, a = Some Answer ∧ l = caaIssueRecords Answer)
            ∧ ∀ x, x ∈ l → x ∉ caa_permitted)
  ∧ (∀ a l, dns w host 257 = inr a → validateCAA_answer a = Some l →
            (∃ e l', buildCache w host st = (Throw e, st, l'))
            ∧ (isIpAddress w host = false → isExceedHostLimit host = false →
               isExceedLabelLimit host = false →
               buildCache w host st
               = (Throw {| message :=
                             Some ("CAA record is not " +:+ dq +:+ "letsencrypt.org"
                                   +:+ dq +:+ ". Records found: "
                                   +:+ JS.join "," l +:+ ".") |},
                  st, [EvDns host 257]))).
Proof.
  split; [apply validateCAARecords_eq|].
  split; [apply validateCAA_answer_None|].
  split; [apply caaIssueRecords_elem|].
  split; [apply caaRegex_test_spec|].
  split; [by vm_compute|].
  split; [apply validateCAA_answer_Some|].
  intros a l. apply buildCache_caa_rejects.
Qed.

Lemma caa_authorization_witness :
  validateCAA_answer (Some [caa "0 issue digicert.com"; txt "v=spf1 -all"])
  = Some ["0 issue digicert.com"]
  ∧ ["0 issue digicert.com"] ≠ [].
Proof.
  split; [by vm_compute|].
  exact (proj1 (proj1 (proj2 (proj2 (proj2 (proj2 (proj2
    (caa_authorization (world_shop "" 0) "shop.example.com" state0))))))
    (Some [caa "0 issue digicert.com"; txt "v=spf1 -all"])
    ["0 issue digicert.com"] eq_refl)).
Defined.

(** ** C6: the TXT record *)

Lemma split_nonempty (sep : ascii) (s : string) : JS.split sep s ≠ [].
Proof.
  induction s as [|c s IH]; cbn [JS.split]; [done|].
  destruct (Ascii.eqb c sep); [done|]. by destruct (JS.split sep s).
Qed.

Lemma join_cons (sep x y : string) (l : list string) :
  JS.join sep (x :: y :: l) = x +:+ sep +:+ JS.join sep (y :: l).
Proof. done. Qed.

(** Splitting at a character and joining with it again gives the string. *)
Lemma join_split (sep : ascii) (s : string) :
  JS.join (String sep "") (JS.split sep s) = s.
Proof.
  induction s as [|c s IH]; cbn [JS.split]; [done|].
  pose proof (split_nonempty sep s) as Hne.
  destruct (Ascii.eqb c sep) eqn:E.
  - apply Ascii.eqb_eq in E as ->.
    destruct (JS.split sep s) as [|h t]; [done|]. by rewrite join_cons, IH.
  - destruct (JS.split sep s) as [|h [|h' t]]; [done|..].
    + cbn [JS.join] in *. by rewrite IH.
    + rewrite join_cons, append_cons. rewrite join_cons in IH. by rewrite IH.
Qed.

Lemma split_no_sep (sep : ascii) (s : string) :
  JS.count sep s = 0 → JS.split sep s = [s].
Proof.
  assert (∀ t, 0 ≤ JS.count sep t) as Hpos.
  { induction t as [|c t IH]; cbn [JS.count]; [done|]. destruct (Ascii.eqb c sep); lia. }
  induction s as [|c s IH]; cbn [JS.split JS.count]; [done|].
  pose proof (Hpos s). destruct (Ascii.eqb c sep); [lia|].
  intros H'. rewrite IH by lia. done.
Qed.

(** Only the first separator ends the first piece. *)
Lemma split_first (sep : ascii) (k v : string) :
  JS.count sep k = 0 →
  JS.split sep (k +:+ String sep v) = k :: JS.split sep v.
Proof.
  assert (∀ t, 0 ≤ JS.count sep t) as Hpos.
  { induction t as [|c t IH]; cbn [JS.count]; [done|]. destruct (Ascii.eqb c sep); lia. }
  induction k as [|c k IH]; cbn [JS.count].
  - intros _. rewrite append_nil_l. cbn [JS.split]. by rewrite Ascii.eqb_refl.
  - pose proof (Hpos k). rewrite append_cons. cbn [JS.split].
    destruct (Ascii.eqb c sep); [lia|]. intros H'. by rewrite IH by lia.
Qed.

Lemma count_append (c : ascii) (a b : string) :
  JS.count c (a +:+ b) = JS.count c a + JS.count c b.
Proof.
  induction a as [|x a IH]; [done|].
  rewrite append_cons. cbn [JS.count]. rewrite IH. lia.
Qed.

Lemma count_nonneg (c : ascii) (s : string) : 0 ≤ JS.count c s.
Proof. induction s as [|x s IH]; cbn [JS.count]; [done|]. destruct (Ascii.eqb x c); lia. Qed.

(** A piece [k=v] assigns [v] to the property [k]. *)
Lemma parse_step_assign (result : gmap string string) (k v : string) :
  k ≠ "" → JS.count "=" k = 0 →
  parseTxtRecordData_step result (k +:+ "=" +:+ v) = assign result k v.
Proof.
  intros Hk Hcount. unfold parseTxtRecordData_step.
  change ("=" +:+ v) with (String "=" v). rewrite split_first by done.
  pose proof (split_nonempty "=" v) as Hne.
  destruct k as [|c k]; [done|]. cbn [JS.truthy andb].
  destruct (JS.split "=" v) as [|h t] eqn:E; [done|]. cbn [List.length Nat.ltb Nat.leb].
  rewrite <- E. change "="%string with (String "="%char ""). by rewrite join_split.
Qed.

Lemma assign_insert (result : gmap string string) (k v : string) :
  k ≠ "__proto__" → assign result k v = <[k := v]> result.
Proof. intros Hk. unfold assign. apply String.eqb_neq in Hk. by rewrite Hk. Qed.

Lemma parse_step_pair (result : gmap string string) (k v : string) :
  k ≠ "" → JS.count "=" k = 0 → k ≠ "__proto__" →
  parseTxtRecordData_step result (k +:+ "=" +:+ v) = <[k := v]> result.
Proof. intros Hk Hc Hp. by rewrite parse_step_assign, assign_insert. Qed.

Lemma parse_step_proto (result : gmap string string) (v : string) :
  parseTxtRecordData_step result ("__proto__" +:+ "=" +:+ v) = result.
Proof. by rewrite parse_step_assign. Qed.

Lemma parse_step_no_eq (result : gmap string string) (part : string) :
  JS.count "=" part = 0 → parseTxtRecordData_step result part = result.
Proof.
  intros H. unfold parseTxtRecordData_step. rewrite split_no_sep by done.
  cbn [List.length Nat.ltb Nat.leb]. by rewrite andb_false_r.
Qed.

Lemma parse_step_no_key (result : gmap string string) (v : string) :
  parseTxtRecordData_step result ("=" +:+ v) = result.
Proof.
  unfold parseTxtRecordData_step. change ("=" +:+ v) with (String "=" v).
  cbn [JS.split]. by rewrite Ascii.eqb_refl.
Qed.

Lemma carries_dec (x : RR) :
  (∃ u, carries x u
        ∧ parseTxtRecordData (data x) !! recordParamDestUrl = Some u
        ∧ JS.truthy u = true ∧ (type x =? 16) = true)
  ∨ ((∀ u, ¬ carries x u)
     ∧ ((type x =? 16) = false
        ∨ parseTxtRecordData (data x) !! recordParamDestUrl = None
        ∨ parseTxtRecordData (data x) !! recordParamDestUrl = Some "")).
Proof.
  unfold carries. destruct (type x =? 16) eqn:Et.
  - apply Z.eqb_eq in Et.
    destruct (parseTxtRecordData (data x) !! recordParamDestUrl) as [[|c u]|] eqn:E.
    + right. split; [|auto]. by intros u (_ & [= <-] & ?).
    + left. by exists (String c u).
    + right. split; [|auto]. by intros u (_ & ? & _).
  - apply Z.eqb_neq in Et. right. split; [|auto]. by intros u (? & _).
Qed.

Lemma findTxt_loop_cons (x : RR) (rest : list RR) :
  findTxt_loop (x :: rest)
  = if negb (type x =? 16) then findTxt_loop rest
    else match parseTxtRecordData (data x) !! recordParamDestUrl with
         | Some u =>
             if JS.truthy u
             then Some {| txt_url := u;
                          txt_httpStatus :=
                            parseTxtRecordData (data x) !! recordParamHttpStatus |}
             else findTxt_loop rest
         | None => findTxt_loop rest
         end.
Proof. done. Qed.

Lemma findTxt_loop_skip (x : RR) (rest : list RR) :
  (∀ u, ¬ carries x u) → findTxt_loop (x :: rest) = findTxt_loop rest.
Proof.
  intros Hx. rewrite findTxt_loop_cons.
  destruct (carries_dec x) as [(u & Hc & _)|(_ & [Ht|[Hn|He]])].
  - by destruct (Hx u).
  - by rewrite Ht.
  - rewrite Hn. by destruct (negb _).
  - rewrite He. by destruct (negb _).
Qed.

Lemma findTxt_loop_take (x : RR) (rest : list RR) (u : string) :
  carries x u →
  findTxt_loop (x :: rest)
  = Some {| txt_url := u;
            txt_httpStatus := parseTxtRecordData (data x) !! recordParamHttpStatus |}.
Proof.
  intros (Ht & Hu & Hne). rewrite findTxt_loop_cons, Hu.
  apply Z.eqb_eq in Ht. rewrite Ht. by destruct u.
Qed.

Lemma findTxt_loop_None (Answer : list RR) :
  findTxt_loop Answer = None ↔ ∀ x u, x ∈ Answer → ¬ carries x u.
Proof.
  induction Answer as [|x rest IH].
  - split; [|done]. by intros _ x u ?%elem_of_nil.
  - destruct (carries_dec x) as [(u & Hc & _)|(Hx & _)].
    + rewrite (findTxt_loop_take _ _ _ Hc). split; [done|].
      intros H. destruct (H x u); [apply elem_of_cons; by left | done].
    + rewrite (findTxt_loop_skip _ _ Hx), IH. split.
      * intros H y u [->|Hy]%elem_of_cons; [apply Hx | by apply H].
      * intros H y u Hy. apply H, elem_of_cons. by right.
Qed.

Lemma findTxt_loop_Some (Answer : list RR) (r : TxtRecord) :
  findTxt_loop Answer = Some r
  ↔ ∃ before x after u,
      Answer = before ++ x :: after
      ∧ (∀ y v, y ∈ before → ¬ carries y v)
      ∧ carries x u
      ∧ r = {| txt_url := u;
               txt_httpStatus := parseTxtRecordData (data x) !! recordParamHttpStatus |}.
Proof.
  induction Answer as [|x rest IH].
  - split; [done|]. intros (before & y & after & u & H & _). by destruct before.
  - destruct (carries_dec x) as [(u & Hc & _)|(Hx & _)].
    + rewrite (findTxt_loop_take _ _ _ Hc). split.
      * intros [= <-]. exists [], x, rest, u.
        split; [done|]. split; [by intros y v ?%elem_of_nil|]. by split.
      * intros (before & y & after & v & H & Hb & Hy & ->).
        destruct before as [|z before]; simplify_eq/=.
        -- destruct Hc as (_ & Hu & _), Hy as (_ & Hv & _). congruence.
        -- destruct (Hb z u); [apply elem_of_cons; by left | done].
    + rewrite (findTxt_loop_skip _ _ Hx), IH. split.
      * intros (before & y & after & u & -> & Hb & Hy & ->).
        exists (x :: before), y, after, u.
        split; [done|]. split; [|by split].
        intros z v [->|Hz]%elem_of_cons; [apply Hx | by apply Hb].
      * intros (before & y & after & u & H & Hb & Hy & ->).
        destruct before as [|z before]; simplify_eq/=; [by destruct (Hx u)|].
        exists before, y, after, u.
        split; [done|]. split; [|by split].
        intros z' v Hz. apply Hb, elem_of_cons. by right.
Qed.

Lemma findTxtRecord_eq (w : World) (host : string) (st : State) :
  findTxtRecord w host st
  = match dns w ("_." +:+ host) 16 with
    | inl e => (Throw e, st, [EvDns ("_." +:+ host) 16])
    | inr b => (Ok (findTxt_answer b), st, [EvDns ("_." +:+ host) 16])
    end.
Proof. unfold_M. by destruct (dns w ("_." +:+ host) 16). Qed.

Lemma findTxt_answer_None (b : option (list RR)) :
  findTxt_answer b = None
  ↔ b = None ∨ ∃ Answer, b = Some Answer ∧ ∀ x u, x ∈ Answer → ¬ carries x u.
Proof.
  destruct b as [Answer|]; cbn [findTxt_answer]; [|by split; [left|]].
  rewrite findTxt_loop_None. split.
  - intros H. right. by exists Answer.
  - by intros [?|(A & [= <-] & H)].
Qed.

Lemma buildCache_txt_missing (w : World) (host : string) (st : State)
    (b : option (list RR)) :
  dns w ("_." +:+ host) 16 = inr b → findTxt_answer b = None →
  (∃ e l, buildCache w host st = (Throw e, st, l))
  ∧ ∀ a, isIpAddress w host = false → isExceedHostLimit host = false →
         isExceedLabelLimit host = false →
         dns w host 257 = inr a → validateCAA_answer a = None →
         buildCache w host st
         = (Throw {| message :=
                       Some ("The TXT record data for " +:+ dq +:+ "_." +:+ host
                             +:+ dq +:+ " is missing") |},
            st, [EvDns host 257; EvDns ("_." +:+ host) 16]).
Proof.
  intros Hdns Htxt. split.
  - unfold_M. rewrite Hdns, Htxt. repeat case_match; simplify_eq; eauto.
  - intros a Hip Hlen Hlab Hcaa Hauth. unfold_M.
    by rewrite Hip, Hlen, Hlab, Hcaa, Hauth, Hdns, Htxt.
Qed.

(** The data of a record that gives the destination [u] and the status
    [v] parses to these two parameters. *)
Lemma parse_both (u v : string) :
  JS.count ";" u = 0 → JS.count ";" v = 0 →
  parseTxtRecordData ("forward-domain=" +:+ u +:+ ";http-status=" +:+ v)
  = <["http-status" := v]> (<["forward-domain" := u]> ∅).
Proof.
  intros Hu Hv. unfold parseTxtRecordData.
  change (";http-status=" +:+ v) with (String ";" ("http-status=" +:+ v)).
  rewrite <- append_assoc, split_first, split_no_sep.
  - cbn [foldl].
    change ("forward-domain=" +:+ u) with ("forward-domain" +:+ "=" +:+ u).
    change ("http-status=" +:+ v) with ("http-status" +:+ "=" +:+ v).
    by rewrite !parse_step_pair.
  - by rewrite count_append, Hv.
  - by rewrite count_append, Hu.
Qed.

Lemma parse_destination (u : string) :
  JS.count ";" u = 0 →
  parseTxtRecordData ("forward-domain=" +:+ u) = <["forward-domain" := u]> ∅.
Proof.
  intros Hu. unfold parseTxtRecordData. rewrite split_no_sep.
  - cbn [foldl].
    change ("forward-domain=" +:+ u) with ("forward-domain" +:+ "=" +:+ u).
    by rewrite parse_step_pair.
  - by rewrite count_append, Hu.
Qed.

Lemma findTxt_literal (u : string) (rest : list RR) :
  u ≠ "" → JS.count ";" u = 0 →
  findTxt_answer (Some ({| type := 16; data := "forward-domain=" +:+ u |} :: rest))
  = Some {| txt_url := u; txt_httpStatus := None |}
  ∧ ∀ v, JS.count ";" v = 0 →
         findTxt_answer
           (Some ({| type := 16;
                     data := "forward-domain=" +:+ u +:+ ";http-status=" +:+ v |}
                  :: rest))
         = Some {| txt_url := u; txt_httpStatus := Some v |}.
Proof.
  intros Hne Hu.
  assert (JS.truthy u = true) as Ht by (by destruct u).
  split; [|intros v Hv]; cbn [findTxt_answer]; rewrite findTxt_loop_cons;
    cbn [type data Z.eqb Pos.eqb negb].
  - rewrite parse_destination by done.
    change recordParamDestUrl with "forward-domain"%string.
    change recordParamHttpStatus with "http-status"%string.
    rewrite lookup_insert_eq, Ht. by rewrite lookup_insert_ne, lookup_empty.
  - rewrite parse_both by done.
    change recordParamDestUrl with "forward-domain"%string.
    change recordParamHttpStatus with "http-status"%string.
    rewrite lookup_insert_ne, lookup_insert_eq, Ht by done.
    by rewrite lookup_insert_eq.
Qed.

(** C6.  [findTxtRecord(host)] asks the resolver for the TXT records of
    ["_." + host].  It answers [null] iff the answer is absent or none of
    its records is a TXT record with a value, not empty, under the key
    [forward-domain]; [buildCache] then fails, with the message that the TXT
    record is missing once the earlier steps have passed.  Otherwise it
    answers from the first such record, keeping its [forward-domain] and
    [http-status] values only: a first record [forward-domain=u] gives the
    destination [u] and no status, a first record
    [forward-domain=u;http-status=v] gives both.  The data of a record is
    cut at the semicolons, and a piece [k=v] puts [v] under [k] whatever
    equals signs [v] contains; a piece without an equals sign or without a
    key is dropped, and so is a piece under the key [__proto__], which
    JavaScript does not store. *)
Theorem txt_record_lookup (w : World) (host : string) (st : State) :
  findTxtRecord w host st
  = match dns w ("_." +:+ host) 16 with
    | inl e => (Throw e, st, [EvDns ("_." +:+ host) 16])
    | inr b => (Ok (findTxt_answer b), st, [EvDns ("_." +:+ host) 16])
    end
  ∧ (∀ b, findTxt_answer b = None
          ↔ b = None ∨ ∃ Answer, b = Some Answer ∧ ∀ x u, x ∈ Answer → ¬ carries x u)
  ∧ (∀ b, dns w ("_." +:+ host) 16 = inr b → findTxt_answer b = None →
          (∃ e l, buildCache w host st = (Throw e, st, l))
          ∧ ∀ a, isIpAddress w host = false → isExceedHostLimit host = false →
                 isExceedLabelLimit host = false →
                 dns w host 257 = inr a → validateCAA_answer a = None →
                 buildCache w host st
                 = (Throw {| message :=
                               Some ("The TXT record data for " +:+ dq +:+ "_."
                                     +:+ host +:+ dq +:+ " is missing") |},
                    st, [EvDns host 257; EvDns ("_." +:+ host) 16]))
  ∧ (∀ Answer r,
       findTxt_answer (Some Answer) = Some r
       ↔ ∃ before x after u,
           Answer = before ++ x :: after
           ∧ (∀ y v, y ∈ before → ¬ carries y v)
           ∧ carries x u
           ∧ r = {| txt_url := u;
                    txt_httpStatus :=
                      parseTxtRecordData (data x) !! recordParamHttpStatus |})
  ∧ (∀ value, parseTxtRecordData value
              = foldl parseTxtRecordData_step ∅ (JS.split ";" value))
  ∧ (∀ result k v, k ≠ "" → JS.count "=" k = 0 → k ≠ "__proto__" →
                   parseTxtRecordData_step result (k +:+ "=" +:+ v) = <[k := v]> result)
  ∧ (∀ result v, parseTxtRecordData_step result ("__proto__" +:+ "=" +:+ v) = result)
  ∧ (∀ result part, JS.count "=" part = 0 →
                    parseTxtRecordData_step result part = result)
  ∧ (∀ result v, parseTxtRecordData_step result ("=" +:+ v) = result)
  ∧ recordParamDestUrl = "forward-domain"%string
  ∧ recordParamHttpStatus = "http-status"%string
  ∧ (∀ u rest, u ≠ "" → JS.count ";" u = 0 →
       findTxt_answer (Some ({| type := 16; data := "forward-domain=" +:+ u |} :: rest))
       = Some {| txt_url := u; txt_httpStatus := None |}
       ∧ ∀ v, JS.count ";" v = 0 →
              findTxt_answer
                (Some ({| type := 16;
                          data := "forward-domain=" +:+ u +:+ ";http-status=" +:+ v |}
                       :: rest))
              = Some {| txt_url := u; txt_httpStatus := Some v |}).
Proof.
  split; [apply findTxtRecord_eq|].
  split; [apply findTxt_answer_None|].
  split; [intros b; apply buildCache_txt_missing|].
  split; [intros Answer r; apply findTxt_loop_Some|].
  split; [done|].
  split; [apply parse_step_pair|].
  split; [apply parse_step_proto|].
  split; [apply parse_step_no_eq|]. split; [apply parse_step_no_key|].
  split; [done|]. split; [done|]. apply findTxt_literal.
Qed.

Lemma txt_record_lookup_witness :
  "https://dest.example/?a=b" ≠ "" ∧ JS.count ";" "https://dest.example/?a=b" = 0
  ∧ JS.count ";" "302" = 0
  ∧ findTxt_answer
      (Some [{| type := 16;
                data := "forward-domain=https://dest.example/?a=b;http-status=302" |};
             {| type := 16; data := "forward-domain=https://other.example/" |}])
    = Some {| txt_url := "https://dest.example/?a=b"; txt_httpStatus := Some "302" |}.
Proof.
  assert ("https://dest.example/?a=b" ≠ "") as H1 by discriminate.
  assert (JS.count ";" "https://dest.example/?a=b" = 0) as H2 by reflexivity.
  assert (JS.count ";" "302" = 0) as H3 by reflexivity.
  split; [exact H1|]. split; [exact H2|]. split; [exact H3|].
  destruct (txt_record_lookup (world_shop "" 0) "shop.example.com" state0)
    as (_ & _ & _ & _ & _ & _ & _ & _ & _ & _ & _ & H).
  exact (proj2 (H "https://dest.example/?a=b" _ H1 H2) "302" H3).
Defined.

(** ** C7: a cached entry is served only when fresh *)

Lemma needsBuild_cases (now : Z) (cached : option CacheValue) :
  needsBuild now cached = true
  ↔ cached = None ∨ cached = Some Sentinel
    ∨ ∃ c, cached = Some (Entry c) ∧ now > expire c.
Proof.
  destruct cached as [[c|]|]; cbn [needsBuild].
  - rewrite Z.gtb_gt. split.
    + intros H. right; right. by exists c.
    + intros [?|[?|(c' & [= <-] & H)]]; done.
  - split; auto.
  - split; auto.
Qed.

Lemma cors_unsent (w : World) (req : Request) : Forall unsent (cors_of w req).
Proof. unfold cors_of, cors. destruct (isHome w req); Forall_list; by cbn. Qed.

Lemma isDns_unsent (l : list Event) : Forall isDns l → Forall unsent l.
Proof. intros H. eapply Forall_impl; [exact H|]. by intros []. Qed.

(** The listener on a request whose slot is missing, falsy or expired. *)
Lemma listener_rebuild (w : World) (req : Request) (st : State) :
  reachesForward w req = true →
  needsBuild (now_listener w) (lru_peek (hostOf req) (resolveCache st)) = true →
  match buildCache w (hostOf req) (after_get (hostOf req) st) with
  | (Ok c', st2, lv) =>
      ∃ r lr,
        respond w req (urlOf req) c' (after_set (hostOf req) (Entry c') st2)
        = (r, after_set (hostOf req) (Entry c') st2, lr)
        ∧ listener w req st
          = finish (r, after_set (hostOf req) (Entry c') st2,
                    cors_of w req ++ lv ++ [EvCacheSet (hostOf req) (Entry c')] ++ lr)
  | (Throw e, st2, lv) =>
      st2 = after_get (hostOf req) st
      ∧ listener w req st = finish (Throw e, st2, cors_of w req ++ lv)
  end.
Proof.
  intros Hroute Hmiss.
  rewrite listener_forward, forward_eq, resolve_miss by done.
  destruct (buildCache w (hostOf req) (after_get (hostOf req) st))
    as [[[c'|e] st2] lv] eqn:Hb.
  - destruct (respond w req (urlOf req) c' (after_set (hostOf req) (Entry c') st2))
      as [[r st3] lr] eqn:Hresp.
    pose proof (respond_state _ _ _ _ _ _ _ _ Hresp) as ->.
    exists r, lr. split; [done|]. by rewrite <- !app_assoc.
  - split; [by eapply buildCache_Throw | done].
Qed.

(** The listener on a request whose slot holds a decision that has not
    expired. *)
Lemma listener_hit (w : World) (req : Request) (st : State) (c : Cache) :
  reachesForward w req = true →
  lru_peek (hostOf req) (resolveCache st) = Some (Entry c) →
  needsBuild (now_listener w) (Some (Entry c)) = false →
  ∃ r lr,
    respond w req (urlOf req) c (after_get (hostOf req) st)
    = (r, after_get (hostOf req) st, lr)
    ∧ listener w req st = finish (r, after_get (hostOf req) st, cors_of w req ++ lr).
Proof.
  intros Hroute Hpeek Hfresh.
  rewrite listener_forward, forward_eq, (resolve_hit _ _ _ c) by done.
  destruct (respond w req (urlOf req) c (after_get (hostOf req) st))
    as [[r st3] lr] eqn:Hresp.
  pose proof (respond_state _ _ _ _ _ _ _ _ Hresp) as ->.
  by exists r, lr.
Qed.

Lemma respond_log (w : World) (req : Request) (url' : string) (c : Cache)
    (st st' : State) (r : Result unit) (l : list Event) :
  respond w req url' c st = (r, st', l) →
  Forall (fun e => ¬ isDns e ∧ ¬ isCacheSet e) l.
Proof.
  unfold respond. unfold_M. intros H.
  repeat case_match; simplify_eq; cbn [app]; Forall_list; cbn; tauto.
Qed.

(** C7.  For a request that reaches the forwarding code, the slot of its
    host needs a rebuild exactly when it is missing, holds the empty
    sentinel, or holds a decision whose expiry lies before the current time.
    In that case [buildCache] runs; when it succeeds, its decision is written
    over the slot before anything of the response is sent and the response is
    the one for the new decision; when it fails, the response is the error
    and nothing is served from the slot.  Only in the other case, a decision
    that has not expired, is the response the one for the cached decision,
    with no query to the resolver and no write to the cache. *)
Theorem cached_entry_served_only_fresh (w : World) (req : Request) (st : State) :
  reachesForward w req = true →
  let host := hostOf req in
  let cached := lru_peek host (resolveCache st) in
  (needsBuild (now_listener w) cached = true
   ↔ cached = None ∨ cached = Some Sentinel
     ∨ ∃ c, cached = Some (Entry c) ∧ now_listener w > expire c)
  ∧ (needsBuild (now_listener w) cached = true →
     match buildCache w host (after_get host st) with
     | (Ok c', st2, lv) =>
         ∃ r lr,
           respond w req (urlOf req) c' (after_set host (Entry c') st2)
           = (r, after_set host (Entry c') st2, lr)
           ∧ listener w req st
             = finish (r, after_set host (Entry c') st2,
                       cors_of w req ++ lv ++ [EvCacheSet host (Entry c')] ++ lr)
           ∧ Forall unsent (cors_of w req ++ lv)
           ∧ lru_peek host (resolveCache (listener w req st).1) = Some (Entry c')
     | (Throw e, st2, lv) =>
         listener w req st = finish (Throw e, st2, cors_of w req ++ lv)
         ∧ Forall unsent (cors_of w req ++ lv)
     end)
  ∧ (needsBuild (now_listener w) cached = false →
     ∃ c r lr,
       cached = Some (Entry c) ∧ now_listener w ≤ expire c
       ∧ respond w req (urlOf req) c (after_get host st) = (r, after_get host st, lr)
       ∧ listener w req st = finish (r, after_get host st, cors_of w req ++ lr)
       ∧ Forall (fun e => ¬ isDns e ∧ ¬ isCacheSet e) (listener w req st).2).
Proof.
  intros Hroute host cached. split; [apply needsBuild_cases|]. split.
  - intros Hmiss. pose proof (listener_rebuild w req st Hroute Hmiss) as H.
    fold host in H.
    destruct (buildCache w host (after_get host st)) as [[[c'|e] st2] lv] eqn:Hb.
    + destruct H as (r & lr & Hresp & Hl). exists r, lr.
      destruct (buildCache_effects _ _ _ _ _ _ Hb) as [_ Hdns].
      split; [done|]. split; [done|]. split.
      * apply Forall_app. split; [apply cors_unsent | by apply isDns_unsent].
      * rewrite Hl, finish_state. apply lru_peek_set.
    + destruct H as [_ Hl]. split; [done|].
      destruct (buildCache_effects _ _ _ _ _ _ Hb) as [_ Hdns].
      apply Forall_app. split; [apply cors_unsent | by apply isDns_unsent].
  - intros Hfresh. subst cached.
    destruct (lru_peek host (resolveCache st)) as [[c|]|] eqn:Hpeek; try done.
    destruct (listener_hit w req st c Hroute Hpeek Hfresh) as (r & lr & Hresp & Hl).
    exists c, r, lr. split; [done|]. split.
    { cbn [needsBuild] in Hfresh. rewrite Z.gtb_ltb in Hfresh.
      by apply Z.ltb_ge in Hfresh. }
    split; [done|]. split; [done|]. rewrite Hl.
    pose proof (respond_log _ _ _ _ _ _ _ _ Hresp) as Hlr.
    assert (Forall (fun e => ¬ isDns e ∧ ¬ isCacheSet e) (cors_of w req)) as Hcors.
    { unfold cors_of, cors. destruct (isHome w req); Forall_list; cbn; tauto. }
    destruct r as [[]|e]; cbn [finish snd]; unfold error_response;
      rewrite ?Forall_app; repeat split; try done;
      cbn [app]; Forall_list; cbn; tauto.
Qed.

Lemma cached_entry_served_only_fresh_witness :
  reachesForward world_late (get "shop.example.com" "/x") = true
  ∧ needsBuild (now_listener world_late)
      (lru_peek "shop.example.com" (resolveCache state_shop)) = true
  ∧ ∃ c', lru_peek "shop.example.com"
            (resolveCache (listener world_late (get "shop.example.com" "/x") state_shop).1)
          = Some (Entry c').
Proof.
  assert (reachesForward world_late (get "shop.example.com" "/x") = true) as H1
    by (vm_compute; reflexivity).
  assert (needsBuild (now_listener world_late)
            (lru_peek "shop.example.com" (resolveCache state_shop)) = true) as H2
    by (vm_compute; reflexivity).
  split; [exact H1|]. split; [exact H2|].
  pose proof (proj1 (proj2
    (cached_entry_served_only_fresh world_late (get "shop.example.com" "/x")
       state_shop H1)) H2) as T.
  destruct (buildCache world_late (hostOf (get "shop.example.com" "/x"))
              (after_get (hostOf (get "shop.example.com" "/x")) state_shop))
    as [[[c'|e] st2] lv] eqn:Hb.
  - destruct T as (r & lr & _ & _ & _ & Hpeek). exists c'. exact Hpeek.
  - vm_compute in Hb. discriminate Hb.
Defined.

(** ** C8: a failure is not cached *)

Lemma error_response_cases (e : JsError) :
  (∀ m, message e = Some m → m ≠ "" →
        error_response e = [EvWriteHead 400 []; EvWrite m])
  ∧ (message e = None ∨ message e = Some "" →
     error_response e = [EvWriteHead 500 []; EvWrite "Unknown error"]).
Proof.
  unfold error_response. split.
  - intros m -> Hm. by destruct m.
  - by intros [-> | ->].
Qed.

(** C8.  When the slot of the host needs a rebuild and [buildCache] fails,
    the listener writes nothing to the cache: every slot reads as before,
    the policy variables are untouched, and the state is the same when the
    host had no slot (a slot that exists only becomes the most recently
    used).  The response is the error: status 400 with the message when the
    error has one, status 500 with [Unknown error] when it has none.  A later
    request for the same host finds the slot still in need of a rebuild and
    runs [buildCache] again. *)
Theorem failure_not_cached (w : World) (req : Request) (st st2 : State)
    (e : JsError) (lv : list Event) :
  reachesForward w req = true →
  needsBuild (now_listener w) (lru_peek (hostOf req) (resolveCache st)) = true →
  buildCache w (hostOf req) (after_get (hostOf req) st) = (Throw e, st2, lv) →
  (listener w req st).2 = cors_of w req ++ lv ++ error_response e ++ [EvEnd]
  ∧ (∀ m, message e = Some m → m ≠ "" →
          error_response e = [EvWriteHead 400 []; EvWrite m])
  ∧ (message e = None ∨ message e = Some "" →
     error_response e = [EvWriteHead 500 []; EvWrite "Unknown error"])
  ∧ Forall (fun ev => ¬ isCacheSet ev) (listener w req st).2
  ∧ (∀ k, lru_peek k (resolveCache (listener w req st).1) = lru_peek k (resolveCache st))
  ∧ policy (listener w req st).1 = policy st
  ∧ (lru_peek (hostOf req) (resolveCache st) = None → (listener w req st).1 = st)
  ∧ (∀ w' req',
       hostOf req' = hostOf req → now_listener w ≤ now_listener w' →
       reachesForward w' req' = true →
       needsBuild (now_listener w')
         (lru_peek (hostOf req') (resolveCache (listener w req st).1)) = true
       ∧ match buildCache w' (hostOf req')
                 (after_get (hostOf req') (listener w req st).1) with
         | (Ok c', st2', lv') =>
             ∃ r lr,
               listener w' req' (listener w req st).1
               = finish (r, after_set (hostOf req') (Entry c') st2',
                         cors_of w' req' ++ lv'
                         ++ [EvCacheSet (hostOf req') (Entry c')] ++ lr)
         | (Throw e', st2', lv') =>
             listener w' req' (listener w req st).1
             = finish (Throw e', st2', cors_of w' req' ++ lv')
         end).
Proof.
  intros Hroute Hmiss Hb.
  pose proof (listener_rebuild w req st Hroute Hmiss) as H. rewrite Hb in H.
  destruct H as [-> Hl]. rewrite Hl. cbn [finish fst snd].
  destruct (buildCache_effects _ _ _ _ _ _ Hb) as [_ Hdns].
  destruct (error_response_cases e) as [H400 H500].
  split; [by rewrite <- app_assoc|]. split; [done|]. split; [done|].
  assert (∀ k, lru_peek k (resolveCache (after_get (hostOf req) st))
               = lru_peek k (resolveCache st)) as Hsame.
  { intros k. unfold after_get. cbn [resolveCache]. apply lru_peek_get. }
  split; [|split; [done|split; [done|split]]].
  - rewrite !Forall_app. split; [split|split].
    + unfold cors_of, cors. destruct (isHome w req); Forall_list; cbn; tauto.
    + eapply Forall_impl; [exact Hdns|]. intros []; cbn; tauto.
    + unfold error_response. simpl. Forall_list; cbn; tauto.
    + Forall_list; cbn; tauto.
  - intros Hnone. unfold after_get. rewrite (lru_get_None _ _ Hnone). by destruct st.
  - intros w' req' Hhost Hnow Hroute'.
    assert (needsBuild (now_listener w')
              (lru_peek (hostOf req') (resolveCache (after_get (hostOf req) st))) = true)
      as Hmiss'.
    { rewrite Hhost, Hsame.
      destruct (lru_peek (hostOf req) (resolveCache st)) as [[c|]|]; try done.
      cbn [needsBuild] in *. apply Z.gtb_gt. apply Z.gtb_gt in Hmiss. lia. }
    split; [done|].
    pose proof (listener_rebuild w' req' _ Hroute' Hmiss') as H.
    destruct (buildCache w' (hostOf req') _) as [[[c'|e'] st2'] lv'].
    + destruct H as (r & lr & _ & H). by exists r, lr.
    + by destruct H.
Qed.

Lemma failure_not_cached_witness :
  reachesForward world_broken (get "shop.example.com" "/") = true
  ∧ needsBuild (now_listener world_broken)
      (lru_peek (hostOf (get "shop.example.com" "/")) (resolveCache state0)) = true
  ∧ (listener world_broken (get "shop.example.com" "/") state0).1 = state0.
Proof.
  assert (reachesForward world_broken (get "shop.example.com" "/") = true) as H1
    by (vm_compute; reflexivity).
  assert (needsBuild (now_listener world_broken)
            (lru_peek (hostOf (get "shop.example.com" "/")) (resolveCache state0)) = true)
    as H2 by (vm_compute; reflexivity).
  split; [exact H1|]. split; [exact H2|].
  refine (proj1 (proj2 (proj2 (proj2 (proj2 (proj2 (proj2
    (failure_not_cached world_broken (get "shop.example.com" "/") state0 _ _ _
       H1 H2 _))))))) _);
    vm_compute; reflexivity.
Defined.

(** ** C9 and C10: the flush endpoint *)

Lemma listener_flush (w : World) (req : Request) (st : State) :
  reachesFlush w req = true →
  listener w req st
  = (st, cors
         ++ (if String.eqb (req_method req) "OPTIONS" then [EvStatusCode 204]
             else if String.eqb (req_method req) "POST"
                  then [EvReqOn; EvWriteHead 200 [("Content-Type", "text/plain")];
                        EvWrite "Cache cleared"]
                  else [EvWriteHead 405 [("Content-Type", "text/plain")];
                        EvWrite "Method Not Allowed"])
         ++ [EvEnd]).
Proof.
  unfold reachesFlush. rewrite isHome_decide.
  intros [[[Hacme Hhost]%andb_true_iff Hhome]%andb_true_iff Hurl]%andb_true_iff.
  apply negb_true_iff in Hacme.
  unfold listener, listener_try. fold (urlOf req). rewrite Hacme, Hhost. cbn [negb].
  destruct (decide (Some (hostOf req) = HOME_DOMAIN (env w))); [|done].
  apply String.eqb_eq in Hurl. unfold homeDomain. rewrite Hurl.
  unfold_M. destruct (String.eqb (req_method req) "OPTIONS"); [done|].
  by destruct (String.eqb (req_method req) "POST").
Qed.

Lemma onData_within (chunks : list string) (totalSize totalSize' : Z)
    (body body' : string) :
  onData chunks totalSize body = (totalSize', body', false) →
  totalSize ≤ MAX_DATA_SIZE → totalSize' ≤ MAX_DATA_SIZE.
Proof.
  revert totalSize body; induction chunks as [|chunk rest IH];
    intros totalSize body; cbn [onData].
  - by intros [= <- <-].
  - destruct (totalSize + JS.length chunk >? MAX_DATA_SIZE) eqn:E; [done|].
    intros H _. apply (IH _ _ H). rewrite Z.gtb_ltb in E. by apply Z.ltb_ge in E.
Qed.

(** What serving a [POST] to [/flushcache] comes to: the answer of the
    listener, then the ['end'] callback when the body arrived within the
    cap. *)
Lemma serve_flush_post (w : World) (req : Request) (st : State) :
  reachesFlush w req = true → req_method req = "POST" →
  listener w req st = (st, cache_cleared)
  ∧ serve w req st
    = match onData (req_chunks req) 0 "" with
      | (totalSize, body, false) =>
          match onEnd w totalSize body st with
          | (_, st2, l2) => (st2, cache_cleared ++ l2)
          end
      | (_, _, true) => (st, cache_cleared)
      end.
Proof.
  intros Hroute Hpost.
  assert (listener w req st = (st, cache_cleared)) as Hl.
  { rewrite listener_flush by done. by rewrite Hpost. }
  split; [done|]. unfold serve. rewrite Hl. done.
Qed.

(** The ['end'] callback on a body that names a valid domain whose slot
    holds a decision. *)
Lemma onEnd_invalidates (w : World) (totalSize : Z) (body d : string) (c : Cache)
    (st : State) :
  totalSize ≤ MAX_DATA_SIZE → querystring_domain w body = Some (inl d) →
  d ≠ "" → isFQDN w d = true → lru_peek d (resolveCache st) = Some (Entry c) →
  onEnd w totalSize body st
  = (Ok tt, after_set d Sentinel (after_get d st), [EvCacheSet d Sentinel]).
Proof.
  intros Hsize Hd Hne Hfqdn Hpeek. unfold onEnd.
  apply Z.leb_le in Hsize. rewrite Hsize, Hd, Hfqdn.
  destruct d as [|a d]; [done|]. cbn [JS.truthy negb].
  unfold bind, cache_get, cache_set, after_set, after_get, lru_get.
  by rewrite Hpeek.
Qed.

(** The ['end'] callback on a body whose domain has no slot. *)
Lemma onEnd_no_slot (w : World) (totalSize : Z) (body d : string) (st : State) :
  querystring_domain w body = Some (inl d) → lru_peek d (resolveCache st) = None →
  ∃ r, onEnd w totalSize body st = (r, st, []).
Proof.
  intros Hd Hpeek. unfold onEnd. rewrite Hd.
  destruct (totalSize <=? MAX_DATA_SIZE); [|by eexists].
  destruct (negb (JS.truthy d)); [by eexists|].
  destruct (isFQDN w d); [|by eexists].
  unfold bind, cache_get, cache_set, ret, lru_get. rewrite Hpeek.
  destruct st as [cache pol]. by eexists.
Qed.

Lemma lru_peek_lower (st : State) (k : string) :
  cache_ok st → is_Some (lru_peek k (resolveCache st)) → JS.toLowerCase k = k.
Proof.
  intros Hok [v Hv]. apply lru_peek_elem in Hv.
  unfold cache_ok in Hok. rewrite Forall_forall in Hok.
  by destruct (Hok _ Hv) as [? _].
Qed.

(** C9 (as amended).  On the control-plane domain, a [POST] to
    [/flushcache] is answered 200 [Cache cleared] whatever the body and the
    cache hold; [OPTIONS] is answered 204 by the preflight branch; every
    other method is answered 405.  When the body of the [POST] arrives
    within the size cap and its [domain] is a valid FQDN whose slot holds a
    decision, the slot is overwritten with the empty sentinel, and the next
    request for that host finds a slot in need of a rebuild and runs
    [buildCache]. *)
Theorem flushcache_invalidates (w : World) (req : Request) (st : State) :
  reachesFlush w req = true →
  (req_method req = "POST" →
   listener w req st = (st, cache_cleared)
   ∧ ∃ l2, (serve w req st).2 = cache_cleared ++ l2)
  ∧ (req_method req = "OPTIONS" →
     serve w req st = (st, cors ++ [EvStatusCode 204; EvEnd]))
  ∧ (req_method req ≠ "POST" → req_method req ≠ "OPTIONS" →
     serve w req st
     = (st, cors ++ [EvWriteHead 405 [("Content-Type", "text/plain")];
                     EvWrite "Method Not Allowed"; EvEnd]))
  ∧ (req_method req = "POST" →
     ∀ d c, flush_domain w req = Some d → d ≠ "" → isFQDN w d = true →
            lru_peek d (resolveCache st) = Some (Entry c) →
            serve w req st
            = (after_set d Sentinel (after_get d st),
               cache_cleared ++ [EvCacheSet d Sentinel])
            ∧ lru_peek d (resolveCache (serve w req st).1) = Some Sentinel
            ∧ ∀ w' req',
                hostOf req' = d → reachesForward w' req' = true →
                needsBuild (now_listener w')
                  (lru_peek (hostOf req') (resolveCache (serve w req st).1)) = true
                ∧ match buildCache w' (hostOf req')
                          (after_get (hostOf req') (serve w req st).1) with
                  | (Ok c', st2', lv') =>
                      ∃ r lr,
                        listener w' req' (serve w req st).1
                        = finish (r, after_set (hostOf req') (Entry c') st2',
                                  cors_of w' req' ++ lv'
                                  ++ [EvCacheSet (hostOf req') (Entry c')] ++ lr)
                  | (Throw e', st2', lv') =>
                      listener w' req' (serve w req st).1
                      = finish (Throw e', st2', cors_of w' req' ++ lv')
                  end).
Proof.
  intros Hroute. split; [|split; [|split]].
  - intros Hpost. destruct (serve_flush_post w req st Hroute Hpost) as [Hl Hs].
    split; [done|]. rewrite Hs.
    destruct (onData (req_chunks req) 0 "") as [[totalSize body] []].
    + exists []. by rewrite app_nil_r.
    + destruct (onEnd w totalSize body st) as [[r st2] l2]. by exists l2.
  - intros Hm. unfold serve. rewrite listener_flush, Hm by done. done.
  - intros Hpost Hopt. unfold serve. rewrite listener_flush by done.
    apply String.eqb_neq in Hpost, Hopt. rewrite Hpost, Hopt. done.
  - intros Hpost d c Hd Hne Hfqdn Hpeek.
    destruct (serve_flush_post w req st Hroute Hpost) as [_ Hs].
    unfold flush_domain in Hd.
    destruct (onData (req_chunks req) 0 "") as [[totalSize body] []] eqn:Hdata;
      [done|].
    destruct (querystring_domain w body) as [[d'|]|] eqn:Hq; try done.
    injection Hd as ->.
    assert (totalSize ≤ MAX_DATA_SIZE) as Hsize.
    { eapply onData_within; [exact Hdata | by vm_compute]. }
    rewrite (onEnd_invalidates _ _ _ _ _ _ Hsize Hq Hne Hfqdn Hpeek) in Hs.
    rewrite Hs. cbn [fst snd]. split; [done|].
    assert (lru_peek d (resolveCache (after_set d Sentinel (after_get d st)))
            = Some Sentinel) as Hsent by apply lru_peek_set.
    split; [done|].
    intros w' req' Hhost Hroute'. rewrite Hhost, Hsent. split; [done|].
    assert (needsBuild (now_listener w')
              (lru_peek (hostOf req')
                 (resolveCache (after_set d Sentinel (after_get d st)))) = true)
      as Hmiss by (by rewrite Hhost, Hsent).
    pose proof (listener_rebuild w' req' _ Hroute' Hmiss) as H.
    rewrite Hhost in H.
    destruct (buildCache w' d _) as [[[c'|e'] st2'] lv'].
    + destruct H as (r & lr & _ & H). by exists r, lr.
    + by destruct H.
Qed.

Lemma flushcache_invalidates_witness :
  reachesFlush world_early (flush "POST" "domain=shop.example.com") = true
  ∧ req_method (flush "POST" "domain=shop.example.com") = "POST"
  ∧ lru_peek "shop.example.com"
      (resolveCache (serve world_early (flush "POST" "domain=shop.example.com")
                       state_shop).1)
    = Some Sentinel.
Proof.
  assert (reachesFlush world_early (flush "POST" "domain=shop.example.com") = true)
    as H1 by (vm_compute; reflexivity).
  split; [exact H1|]. split; [reflexivity|].
  refine (proj1 (proj2 (proj2 (proj2 (proj2 (
    flushcache_invalidates world_early (flush "POST" "domain=shop.example.com")
      state_shop H1))) eq_refl "shop.example.com" _ _ _ _ _)));
    try (vm_compute; reflexivity). discriminate.
Defined.

(** C9 as stated fails.  [OPTIONS] is another method than [POST], and on
    [/flushcache] it is answered 204, not 405.  A [POST] whose body names
    [shop.example.com], a valid domain whose slot holds a decision, leaves
    the slot as it is when the body exceeds the size cap. *)
Lemma flushcache_counterexample :
  (reachesFlush world_early (flush "OPTIONS" "") = true
   ∧ req_method (flush "OPTIONS" "") ≠ "POST"
   ∧ serve world_early (flush "OPTIONS" "") state0
     = (state0, cors ++ [EvStatusCode 204; EvEnd])
   ∧ ∀ headers,
       EvWriteHead 405 headers ∉ (serve world_early (flush "OPTIONS" "") state0).2)
  ∧ (reachesFlush world_early flush_oversized = true
     ∧ querystring_domain world_early
         (String.concat "" (req_chunks flush_oversized))
       = Some (inl "shop.example.com")
     ∧ isFQDN world_early "shop.example.com" = true
     ∧ (∃ c, lru_peek "shop.example.com" (resolveCache state_shop) = Some (Entry c))
     ∧ serve world_early flush_oversized state_shop = (state_shop, cache_cleared)).
Proof.
  split.
  - split; [by vm_compute|]. split; [discriminate|]. split; [by vm_compute|].
    intros headers H. vm_compute in H.
    repeat (apply elem_of_cons in H as [H|H]; [discriminate H|]).
    by apply elem_of_nil in H.
  - split; [by vm_compute|]. split; [by vm_compute|]. split; [by vm_compute|].
    split; [eexists; by vm_compute | by vm_compute].
Qed.

(** C10.  In every state of a process the keys of the cache are in lower
    case, since the listener writes under the [Host] header in lower case
    without its port.  Hence a [POST] to [/flushcache] whose [domain] is not
    in lower case finds no slot: the cache and the policy variables stay as
    they are, and the answer is 200 [Cache cleared] all the same. *)
Theorem flush_case_mismatch (w : World) (req : Request) (st : State) (d : string) :
  reachable st → reachesFlush w req = true → req_method req = "POST" →
  flush_domain w req = Some d → JS.toLowerCase d ≠ d →
  (∀ k, is_Some (lru_peek k (resolveCache st)) → JS.toLowerCase k = k)
  ∧ (∀ req', JS.toLowerCase (hostOf req') = hostOf req')
  ∧ lru_peek d (resolveCache st) = None
  ∧ serve w req st = (st, cache_cleared).
Proof.
  intros Hst Hroute Hpost Hd Hcase.
  pose proof (reachable_ok _ Hst) as Hok.
  assert (lru_peek d (resolveCache st) = None) as Hnone.
  { destruct (lru_peek d (resolveCache st)) as [v|] eqn:E; [|done].
    destruct Hcase. apply (lru_peek_lower st); [done | by rewrite E]. }
  split; [intros k; by apply lru_peek_lower|].
  split; [intros req'; apply hostOf_lower|]. split; [done|].
  destruct (serve_flush_post w req st Hroute Hpost) as [_ Hs]. rewrite Hs.
  unfold flush_domain in Hd.
  destruct (onData (req_chunks req) 0 "") as [[totalSize body] []]; [done|].
  destruct (querystring_domain w body) as [[d'|]|] eqn:Hq; try done.
  injection Hd as ->.
  destruct (onEnd_no_slot w totalSize body d st Hq Hnone) as [r ->].
  by rewrite app_nil_r.
Qed.

Lemma flush_case_mismatch_witness :
  reachable state_shop
  ∧ reachesFlush world_early (flush "POST" "domain=Shop.Example.com") = true
  ∧ flush_domain world_early (flush "POST" "domain=Shop.Example.com")
    = Some "Shop.Example.com"
  ∧ JS.toLowerCase "Shop.Example.com" ≠ "Shop.Example.com"
  ∧ serve world_early (flush "POST" "domain=Shop.Example.com") state_shop
    = (state_shop, cache_cleared).
Proof.
  assert (reachable state_shop) as H1 by (apply reachable_serve, reachable_init).
  assert (reachesFlush world_early (flush "POST" "domain=Shop.Example.com") = true)
    as H2 by (vm_compute; reflexivity).
  assert (flush_domain world_early (flush "POST" "domain=Shop.Example.com")
          = Some "Shop.Example.com") as H3 by (vm_compute; reflexivity).
  assert (JS.toLowerCase "Shop.Example.com" ≠ "Shop.Example.com") as H4
    by (vm_compute; discriminate).
  split; [exact H1|]. split; [exact H2|]. split; [exact H3|]. split; [exact H4|].
  exact (proj2 (proj2 (proj2
    (flush_case_mismatch world_early (flush "POST" "domain=Shop.Example.com")
       state_shop "Shop.Example.com" H1 H2 eq_refl H3 H4)))).
Defined.

(** * Further properties *)

(** ** The dot positions *)

Lemma dotsFrom_elem (b p : nat) (s : string) :
  p ∈ dotsFrom b s ↔ (b ≤ p)%nat ∧ String.get (p - b) s = Some dot.
Proof.
  revert b. induction s as [|c s IH]; intros b.
  - cbn [dotsFrom]. split; [by intros ?%elem_of_nil|]. intros [_ H].
    by destruct (p - b)%nat.
  - cbn [dotsFrom].
    assert (p ∈ dotsFrom (S b) s
            ↔ (b < p)%nat ∧ String.get (p - b) (String c s) = Some dot) as Hrec.
    { rewrite IH. split; intros [H1 H2]; (split; [lia|]).
      - by replace (p - b)%nat with (S (p - S b)) by lia.
      - by replace (p - b)%nat with (S (p - S b)) in H2 by lia. }
    destruct (Ascii.eqb c dot) eqn:E.
    + apply Ascii.eqb_eq in E as ->. rewrite elem_of_cons, Hrec. split.
      * intros [->|[H1 H2]]; [|split; [lia|done]].
        split; [lia|]. by rewrite Nat.sub_diag.
      * intros [H1 H2]. destruct (decide (p = b)) as [->|]; [by left|right].
        split; [lia|done].
    + rewrite Hrec. split; [intros [H1 H2]; split; [lia|done]|].
      intros [H1 H2]. split; [|done].
      destruct (decide (p = b)) as [->|]; [|lia].
      rewrite Nat.sub_diag in H2. cbn in H2. injection H2 as ->.
      by rewrite Ascii.eqb_refl in E.
Qed.

Lemma dotsFrom_increasing (b : nat) (s : string) (i j p q : nat) :
  (i < j)%nat → dotsFrom b s !! i = Some p → dotsFrom b s !! j = Some q → (p < q)%nat.
Proof.
  revert b i j. induction s as [|c s IH]; intros b i j Hij Hi Hj; [done|].
  cbn [dotsFrom] in Hi, Hj. destruct (Ascii.eqb c dot); [|by eapply IH].
  destruct j as [|j]; [lia|]. cbn in Hj. destruct i as [|i].
  - cbn in Hi. injection Hi as <-.
    apply list_elem_of_lookup_2, dotsFrom_elem in Hj. lia.
  - cbn in Hi. eapply IH; [|done..]. lia.
Qed.

Lemma dotsFrom_count (b : nat) (s : string) :
  Z.of_nat (List.length (dotsFrom b s)) = JS.count dot s.
Proof.
  revert b. induction s as [|c s IH]; intros b; [done|].
  cbn [dotsFrom JS.count]. destruct (Ascii.eqb c dot); cbn [List.length];
    rewrite <- (IH (S b)); lia.
Qed.

(** X1.  [findDotPositions] ends within the fuel of its loop and returns
    the indices of the dots of its argument, all of them and nothing else,
    in increasing order; the label limit of [isExceedLabelLimit] counts the
    same positions. *)
Theorem findDotPositions_spec (str : string) :
  findDotPositions_loop (S (String.length str)) str (JS.indexOf dot 0 str) []
  = Some (findDotPositions str)
  ∧ (∀ p, p ∈ findDotPositions str ↔ String.get p str = Some dot)
  ∧ (∀ i j p q, (i < j)%nat → findDotPositions str !! i = Some p →
                findDotPositions str !! j = Some q → (p < q)%nat)
  ∧ Z.of_nat (List.length (findDotPositions str)) = JS.count dot str
  ∧ (isExceedLabelLimit str = true ↔ (10 ≤ List.length (findDotPositions str))%nat).
Proof.
  split; [|split; [|split; [|split]]].
  - rewrite findDotPositions_dots.
    rewrite (findDotPositions_loop_ok (List.length (dotsFrom 0 (JS.slice 0 str)))
               (S (String.length str)) 0 str []); [done | done |].
    pose proof (dotsFrom_length 0 str). cbn [JS.slice]. lia.
  - intros p. rewrite findDotPositions_dots, dotsFrom_elem, Nat.sub_0_r.
    split; [by intros [_ H] | intros H; split; [lia|done]].
  - intros i j p q. rewrite findDotPositions_dots. apply dotsFrom_increasing.
  - rewrite findDotPositions_dots. apply dotsFrom_count.
  - unfold isExceedLabelLimit. rewrite <- (dotsFrom_count 0), <- findDotPositions_dots.
    rewrite Z.leb_le. lia.
Qed.

(** ** The parameters of a TXT record *)

Lemma split_parts_no_sep (sep : ascii) (s x : string) :
  x ∈ JS.split sep s → JS.count sep x = 0.
Proof.
  revert x. induction s as [|c s IH]; intros x Hx.
  - cbn in Hx. apply list_elem_of_singleton in Hx as ->. done.
  - cbn [JS.split] in Hx. destruct (Ascii.eqb c sep) eqn:E.
    + apply elem_of_cons in Hx as [->|Hx]; [done | by apply IH].
    + pose proof (split_nonempty sep s) as Hne.
      destruct (JS.split sep s) as [|h t]; [done|].
      apply elem_of_cons in Hx as [->|Hx].
      * cbn [JS.count]. rewrite E. rewrite (IH h); [done | by left].
      * apply IH. by right.
Qed.

Lemma split_join (sep : ascii) (l : list string) :
  l ≠ [] → Forall (fun x => JS.count sep x = 0) l →
  JS.split sep (JS.join (String sep "") l) = l.
Proof.
  induction l as [|x l IH]; [done|]. intros _ Hall.
  apply Forall_cons in Hall as [Hx Hall]. destruct l as [|y l].
  - cbn [JS.join]. by apply split_no_sep.
  - rewrite join_cons, append_cons, append_nil_l, split_first by done.
    by rewrite IH.
Qed.

Lemma parse_step_lookup (result : gmap string string) (part k v : string) :
  parseTxtRecordData_step result part !! k = Some v →
  result !! k = Some v
  ∨ (part = k +:+ "=" +:+ v ∧ k ≠ "" ∧ k ≠ "__proto__" ∧ JS.count "=" k = 0).
Proof.
  unfold parseTxtRecordData_step.
  pose proof (join_split "=" part) as Hjoin.
  pose proof (split_parts_no_sep "=" part) as Hparts.
  destruct (JS.split "=" part) as [|key value]; [by left|].
  destruct key as [|a key]; [by left|]. destruct value as [|x value]; [by left|].
  cbn [JS.truthy List.length Nat.ltb Nat.leb andb]. unfold assign.
  destruct (String.eqb (String a key) "__proto__") eqn:Ep; [by left|].
  apply String.eqb_neq in Ep.
  destruct (decide (k = String a key)) as [->|Hne].
  - rewrite lookup_insert_eq. intros [= <-]. right.
    rewrite join_cons in Hjoin. split; [done|]. split; [done|]. split; [done|].
    apply Hparts. by left.
  - rewrite lookup_insert_ne by done. by left.
Qed.

Lemma parse_fold_lookup (parts : list string) (acc : gmap string string) (k v : string) :
  foldl parseTxtRecordData_step acc parts !! k = Some v →
  acc !! k = Some v
  ∨ ((k +:+ "=" +:+ v) ∈ parts ∧ k ≠ "" ∧ k ≠ "__proto__" ∧ JS.count "=" k = 0).
Proof.
  revert acc. induction parts as [|part parts IH]; intros acc H; [by left|].
  cbn [foldl] in H. apply IH in H as [H|(H & ? & ? & ?)].
  - apply parse_step_lookup in H as [H|(-> & ? & ? & ?)]; [by left|].
    right. split; [by left | done].
  - right. split; [by right | done].
Qed.

Lemma parse_fold_keeps (parts : list string) (acc : gmap string string) (k : string) :
  is_Some (acc !! k) → is_Some (foldl parseTxtRecordData_step acc parts !! k).
Proof.
  revert acc. induction parts as [|part parts IH]; intros acc H; [done|].
  cbn [foldl]. apply IH. unfold parseTxtRecordData_step.
  destruct (JS.split "=" part) as [|key value]; [done|].
  destruct (JS.truthy key && Nat.ltb 0 (List.length value))%bool; [|done].
  unfold assign. destruct (String.eqb key "__proto__"); [done|].
  destruct (decide (k = key)) as [->|Hne].
  - by rewrite lookup_insert_eq.
  - by rewrite lookup_insert_ne.
Qed.

Lemma parse_fold_segment (parts : list string) (acc : gmap string string) (k v : string) :
  (k +:+ "=" +:+ v) ∈ parts → k ≠ "" → k ≠ "__proto__" → JS.count "=" k = 0 →
  is_Some (foldl parseTxtRecordData_step acc parts !! k).
Proof.
  intros Hin Hk Hp Hc. revert acc. induction parts as [|part parts IH]; intros acc.
  - by apply elem_of_nil in Hin.
  - cbn [foldl]. apply elem_of_cons in Hin as [<-|Hin]; [|by apply IH].
    apply parse_fold_keeps. rewrite parse_step_pair by done.
    by rewrite lookup_insert_eq.
Qed.

(** X2.  The parameters that [parseTxtRecordData] retains are exactly those
    of the segments [key=value] of the record data, split at semicolons,
    whose key is neither empty nor [__proto__]: a retained key has no [=]
    and no [;], its value has no [;], and the pair stands in the data as
    one segment.  Nothing is retained under [__proto__]. *)
Theorem parseTxtRecordData_segments (value : string) :
  (∀ k, is_Some (parseTxtRecordData value !! k)
        ↔ k ≠ "" ∧ k ≠ "__proto__" ∧ JS.count "=" k = 0
          ∧ ∃ v, (k +:+ "=" +:+ v) ∈ JS.split ";" value)
  ∧ (∀ k v, parseTxtRecordData value !! k = Some v →
            (k +:+ "=" +:+ v) ∈ JS.split ";" value
            ∧ JS.count ";" k = 0 ∧ JS.count ";" v = 0)
  ∧ parseTxtRecordData value !! "__proto__" = None.
Proof.
  assert (∀ k v, parseTxtRecordData value !! k = Some v →
                 (k +:+ "=" +:+ v) ∈ JS.split ";" value
                 ∧ k ≠ "" ∧ k ≠ "__proto__" ∧ JS.count "=" k = 0) as Hfwd.
  { intros k v H. apply parse_fold_lookup in H as [H|H]; [|done].
    by rewrite lookup_empty in H. }
  split; [|split].
  - intros k. split.
    + intros [v H]. destruct (Hfwd k v H) as (? & ? & ? & ?). eauto 6.
    + intros (Hk & Hp & Hc & v & Hin). by eapply parse_fold_segment.
  - intros k v H. destruct (Hfwd k v H) as (Hin & _ & _). split; [done|].
    apply split_parts_no_sep in Hin. rewrite !count_append in Hin.
    pose proof (count_nonneg ";" k). pose proof (count_nonneg ";" v).
    pose proof (count_nonneg ";" "="). lia.
  - destruct (parseTxtRecordData value !! "__proto__") as [v|] eqn:E; [|done].
    by destruct (Hfwd _ _ E) as (_ & _ & ? & _).
Qed.

Lemma parse_fold_render (pairs : list (string * string)) (acc : gmap string string) :
  Forall (fun kv => kv.1 ≠ "" ∧ JS.count "=" kv.1 = 0) pairs →
  foldl parseTxtRecordData_step acc ((fun kv => kv.1 +:+ "=" +:+ kv.2) <$> pairs)
  = foldl (fun m kv => assign m kv.1 kv.2) acc pairs.
Proof.
  intros Hall. revert acc. induction Hall as [|kv pairs [Hk Hc] _ IH]; intros acc; [done|].
  cbn [fmap list_fmap foldl]. rewrite parse_step_assign by done. apply IH.
Qed.

Lemma foldl_assign_to_map (pairs : list (string * string)) :
  foldl (fun m kv => assign m kv.1 kv.2) (∅ : gmap string string) pairs
  = list_to_map (reverse (filter (fun kv => kv.1 ≠ "__proto__") pairs)).
Proof.
  induction pairs as [|[k v] pairs IH] using rev_ind; [done|].
  rewrite foldl_app, filter_app, reverse_app. cbn [foldl fst snd]. rewrite IH.
  unfold assign. destruct (String.eqb k "__proto__") eqn:E.
  - apply String.eqb_eq in E as ->. rewrite filter_cons_False by (cbn; tauto). done.
  - apply String.eqb_neq in E. rewrite filter_cons_True by done. done.
Qed.

(** X3.  Parsing undoes rendering: record data that lists parameters as
    [key=value] segments separated by semicolons parses to the map of these
    parameters, those under the key [__proto__] apart, a later one
    replacing an earlier one of the same key, provided no key is empty or
    holds [=] or [;] and no value holds [;].  A value may hold [=]. *)
Theorem parseTxtRecordData_render (pairs : list (string * string)) :
  Forall (fun kv => kv.1 ≠ "" ∧ JS.count "=" kv.1 = 0
                    ∧ JS.count ";" kv.1 = 0 ∧ JS.count ";" kv.2 = 0) pairs →
  parseTxtRecordData (renderTxt pairs)
  = list_to_map (reverse (filter (fun kv => kv.1 ≠ "__proto__") pairs)).
Proof.
  intros Hall. unfold parseTxtRecordData, renderTxt.
  destruct pairs as [|kv pairs]; [done|].
  rewrite (split_join ";").
  - rewrite parse_fold_render, foldl_assign_to_map; [done|].
    eapply Forall_impl; [exact Hall|]. by intros ? (? & ? & _).
  - done.
  - apply Forall_fmap. eapply Forall_impl; [exact Hall|].
    intros [k v] (_ & _ & Hk & Hv). cbn in Hk, Hv |- *.
    rewrite !count_append, Hk, Hv. done.
Qed.

Lemma parseTxtRecordData_render_witness :
  parseTxtRecordData
    (renderTxt [("forward-domain", "https://dest.example/?a=b"); ("__proto__", "x");
                ("http-status", "302")])
  = list_to_map
      (reverse (filter (fun kv => kv.1 ≠ "__proto__")
                  [("forward-domain", "https://dest.example/?a=b"); ("__proto__", "x");
                   ("http-status", "302")])).
Proof.
  apply parseTxtRecordData_render.
  repeat (apply Forall_cons; split;
          [cbn [fst snd]; split; [discriminate | split; [reflexivity | split; reflexivity]]|]).
  apply Forall_nil_2.
Defined.

(** ** Joining URLs *)

(** X4.  Slashes at the joint do not count: for a relative URL that is not
    empty, [combineURLs] gives the same result whatever the number of
    slashes at the end of the base and at the start of the relative URL. *)
Theorem combineURLs_slashes (baseURL relativeURL run1 run2 : string) :
  relativeURL ≠ "" → JS.allSlashes run1 = true → JS.allSlashes run2 = true →
  combineURLs (baseURL +:+ run1) (run2 +:+ relativeURL)
  = combineURLs baseURL relativeURL.
Proof.
  intros Hrel H1 H2. unfold combineURLs.
  assert (JS.truthy relativeURL = true) as -> by (by destruct relativeURL).
  assert (JS.truthy (run2 +:+ relativeURL) = true) as ->.
  { destruct run2; [by destruct relativeURL | done]. }
  cbn [negb]. by rewrite stripTrailingSlashes_app, stripLeadingSlashes_app.
Qed.

Lemma combineURLs_slashes_witness :
  combineURLs ("https://dest.example/app" +:+ "//") ("/" +:+ "x?y=1")
  = combineURLs "https://dest.example/app" "x?y=1".
Proof. by apply combineURLs_slashes. Defined.

(** ** PEM framing *)

Lemma takeRun_spec (n : nat) (s : string) :
  s = (takeRun n s).1 +:+ (takeRun n s).2
  ∧ (String.length (takeRun n s).1 ≤ n)%nat
  ∧ dotAll (takeRun n s).1 = true
  ∧ ((String.length (takeRun n s).1 < n)%nat →
     (takeRun n s).2 = ""
     ∨ ∃ c r, (takeRun n s).2 = String c r ∧ isLineTerminator c = true).
Proof.
  revert s. induction n as [|n IH]; intros s.
  - destruct s; cbn; (split; [done|]); (split; [done|]); (split; [done|]); lia.
  - destruct s as [|c s]; [cbn; eauto 6 with lia|].
    cbn [takeRun]. destruct (isLineTerminator c) eqn:E.
    + cbn. split; [done|]. split; [lia|]. split; [done|]. intros _. right. eauto.
    + destruct (IH s) as (H1 & H2 & H3 & H4).
      destruct (takeRun n s) as [m rest]. cbn [fst snd] in *.
      split; [by rewrite append_cons, <- H1|]. split; [cbn; lia|].
      split; [cbn [dotAll]; by rewrite E, H3|]. intros Hlt. apply H4. cbn in Hlt. lia.
Qed.

Lemma matchAll64_S (fuel : nat) (s : string) :
  matchAll64 (S fuel) s
  = match (takeRun 64 s).1, (takeRun 64 s).2 with
    | EmptyString, EmptyString => [EmptyString]
    | EmptyString, String _ rest => EmptyString :: matchAll64 fuel rest
    | m, rest => m :: matchAll64 fuel rest
    end.
Proof. cbn [matchAll64]. by destruct (takeRun 64 s) as [[|a m] [|b rest]]. Qed.

Lemma dotAll_app (a b : string) : dotAll (a +:+ b) = dotAll a && dotAll b.
Proof.
  induction a as [|c a IH]; [done|].
  rewrite append_cons. cbn [dotAll]. by rewrite IH, andb_assoc.
Qed.

Lemma stripTerminators_app (a b : string) :
  stripTerminators (a +:+ b) = stripTerminators a +:+ stripTerminators b.
Proof.
  induction a as [|c a IH]; [done|].
  rewrite append_cons. cbn [stripTerminators].
  destruct (isLineTerminator c); [done|]. by rewrite append_cons, IH.
Qed.

Lemma stripTerminators_dotAll (s : string) : dotAll s = true → stripTerminators s = s.
Proof.
  induction s as [|c s IH]; [done|]. cbn [dotAll stripTerminators].
  intros [Hc Hs]%andb_true_iff. apply negb_true_iff in Hc as ->. by rewrite IH.
Qed.

Lemma dotAll_no_LF (s : string) : dotAll s = true → JS.count (ascii_of_N 10) s = 0.
Proof.
  induction s as [|c s IH]; [done|]. cbn [dotAll JS.count].
  intros [Hc Hs]%andb_true_iff. rewrite IH by done.
  destruct (Ascii.eqb c (ascii_of_N 10)) eqn:E; [|done].
  apply Ascii.eqb_eq in E as ->. done.
Qed.

(** The shape of the matches: what holds of [matchAll64 fuel s] once the
    fuel exceeds the length of [s]. *)
Lemma matchAll64_shape (fuel : nat) (s : string) :
  (String.length s < fuel)%nat →
  let lines := matchAll64 fuel s in
  Forall (fun x => (String.length x ≤ 64)%nat ∧ dotAll x = true) lines
  ∧ last lines = Some ""
  ∧ stripTerminators (JS.join LF lines) = stripTerminators s
  ∧ (s = "" → lines = [""])
  ∧ (dotAll s = true →
     ∀ i x, lines !! i = Some x →
            ((S (S i) < List.length lines)%nat → String.length x = 64%nat)
            ∧ (S (S i) = List.length lines → x ≠ ""))
  ∧ ∀ fuel', (String.length s < fuel')%nat → matchAll64 fuel' s = lines.
Proof.
  revert s. induction fuel as [|fuel IH]; intros s Hfuel; [lia|].
  cbv zeta. rewrite matchAll64_S.
  destruct (takeRun_spec 64 s) as (Hs & Hlen & Hdot & Hshort).
  destruct (takeRun 64 s) as [m rest] eqn:E. cbn [fst snd] in *.
  assert (∀ x l, last l = Some "" → last (x :: l) = Some "") as Hlast.
  { intros x [|y l] H; [done|]. exact H. }
  assert (∀ x l, last l = Some "" →
                 JS.join LF (x :: l) = x +:+ LF +:+ JS.join LF l) as Hjoin.
  { intros x [|y l] H; [done|]. apply join_cons. }
  destruct m as [|a m].
  - rewrite append_nil_l in Hs. subst rest. destruct s as [|c s].
    + split; [by repeat constructor|]. split; [done|]. split; [done|].
      split; [done|]. split.
      * intros _ [|i] x Hx; [|done]. cbn in Hx. injection Hx as <-. cbn. lia.
      * intros [|fuel'] Hf; [cbn in Hf; lia|]. done.
    + destruct Hshort as [Hshort|(c' & r & [= <- <-] & Hc)]; [cbn; lia | done |].
      cbn in Hfuel. destruct (IH s ltac:(lia)) as (H1 & H2 & H3 & H4 & H5 & H6).
      split; [constructor; [done | exact H1]|]. split; [by apply Hlast|].
      split.
      { rewrite (Hjoin _ _ H2), append_nil_l, stripTerminators_app, H3.
        cbn [stripTerminators]. rewrite Hc.
        destruct (decide (c = ascii_of_N 10)) as [->|]; [done|].
        change LF with (String (ascii_of_N 10) ""). cbn [stripTerminators]. done. }
      split; [done|]. split.
      * cbn [dotAll]. rewrite Hc. done.
      * intros [|fuel'] Hf; [cbn in Hf; lia|]. rewrite matchAll64_S, E.
        cbn [fst snd]. cbn in Hf. by rewrite (H6 fuel') by lia.
  - destruct (IH rest) as (H1 & H2 & H3 & H4 & H5 & H6).
    { rewrite Hs, append_length in Hfuel. cbn in Hfuel. lia. }
    split; [constructor; [done | exact H1]|]. split; [by apply Hlast|].
    split.
    { rewrite (Hjoin _ _ H2), !stripTerminators_app, H3, Hs, stripTerminators_app.
      by rewrite (stripTerminators_dotAll _ Hdot). }
    split; [by rewrite Hs|]. split.
    + rewrite Hs, dotAll_app. intros [_ Hrest]%andb_true_iff [|i] x Hx.
      * cbn in Hx. injection Hx as <-. split; [|done].
        intros Hlong. destruct (decide (String.length (String a m) = 64%nat)); [done|].
        destruct Hshort as [->|(c & r & -> & Hc)]; [lia | |].
        -- rewrite H4 in Hlong by done. cbn in Hlong. lia.
        -- cbn [dotAll] in Hrest. by rewrite Hc in Hrest.
      * cbn in Hx. destruct (H5 Hrest i x Hx) as [Ha Hb].
        split; [intros ?; apply Ha; cbn in *; lia | intros ?; apply Hb; cbn in *; lia].
    + intros [|fuel'] Hf; [lia|]. rewrite matchAll64_S, E. cbn [fst snd].
      rewrite (H6 fuel'); [done|].
      rewrite Hs, append_length in Hf. cbn in Hf. lia.
Qed.

(** X5.  [derToPem] frames the base64 text between the [BEGIN] and [END]
    lines of its type.  The body is cut into lines of at most 64
    characters; the last match of the pattern is empty, so the [END] line
    starts on a line of its own; removing the line breaks from the body
    gives the base64 text back.  For a text without line terminators, as
    base64 is, every line but the last one of the text has exactly 64
    characters.  The matching ends within its fuel. *)
Theorem derToPem_lines (base64 : string) (t : PemType) :
  ∃ lines,
    derToPem base64 t
    = "-----BEGIN " +:+ pemPrefix t +:+ "-----" +:+ LF
      +:+ JS.join LF lines
      +:+ "-----END " +:+ pemPrefix t +:+ "-----" +:+ LF
    ∧ JS.split (ascii_of_N 10) (JS.join LF lines) = lines
    ∧ Forall (fun x => (String.length x ≤ 64)%nat ∧ dotAll x = true) lines
    ∧ last lines = Some ""
    ∧ stripTerminators (JS.join LF lines) = stripTerminators base64
    ∧ (base64 = "" → lines = [""])
    ∧ (dotAll base64 = true →
       stripTerminators (JS.join LF lines) = base64
       ∧ ∀ i x, lines !! i = Some x →
                ((S (S i) < List.length lines)%nat → String.length x = 64%nat)
                ∧ (S (S i) = List.length lines → x ≠ ""))
    ∧ ∀ fuel, (String.length base64 < fuel)%nat → matchAll64 fuel base64 = lines.
Proof.
  exists (matchAll64 (S (String.length base64)) base64).
  destruct (matchAll64_shape (S (String.length base64)) base64 ltac:(lia))
    as (H1 & H2 & H3 & H4 & H5 & H6).
  split; [unfold derToPem; cbv zeta; by rewrite !append_assoc|]. split.
  { apply (split_join (ascii_of_N 10)).
    - intros Hnil. by rewrite Hnil in H2.
    - eapply Forall_impl; [exact H1|]. intros x [_ Hx]. by apply dotAll_no_LF. }
  split; [done|]. split; [done|]. split; [done|]. split; [done|].
  split; [|done]. intros Hdot. split; [|by apply H5].
  by rewrite H3, stripTerminators_dotAll.
Qed.

(** ** The host of a request *)

Lemma lowerChar_colon (c : ascii) : Ascii.eqb (JS.lowerChar c) ":" = Ascii.eqb c ":".
Proof. by destruct c as [[] [] [] [] [] [] [] []]. Qed.

Lemma lowerChar_digit (c : ascii) : JS.isDigit (JS.lowerChar c) = JS.isDigit c.
Proof. by destruct c as [[] [] [] [] [] [] [] []]. Qed.

Lemma toLowerCase_app (a b : string) :
  JS.toLowerCase (a +:+ b) = JS.toLowerCase a +:+ JS.toLowerCase b.
Proof.
  induction a as [|c a IH]; [done|].
  rewrite append_cons. cbn [JS.toLowerCase]. by rewrite IH, append_cons.
Qed.

Lemma allDigits_lower (s : string) : JS.allDigits (JS.toLowerCase s) = JS.allDigits s.
Proof.
  induction s as [|c s IH]; [done|].
  cbn [JS.toLowerCase JS.allDigits]. by rewrite lowerChar_digit, IH.
Qed.

Lemma truthy_lower (s : string) : JS.truthy (JS.toLowerCase s) = JS.truthy s.
Proof. by destruct s. Qed.

(** Removing the port and lowering the case commute. *)
Lemma stripPort_toLowerCase (s : string) :
  JS.stripPort (JS.toLowerCase s) = JS.toLowerCase (JS.stripPort s).
Proof.
  induction s as [|c s IH]; [done|].
  cbn [JS.toLowerCase JS.stripPort].
  rewrite lowerChar_colon, truthy_lower, allDigits_lower.
  destruct (Ascii.eqb c ":" && JS.truthy s && JS.allDigits s); [done|].
  cbn [JS.toLowerCase]. by rewrite IH.
Qed.

Lemma allDigits_colon (a b : string) : JS.allDigits (a +:+ ":" +:+ b) = false.
Proof.
  induction a as [|c a IH]; [done|].
  rewrite append_cons. cbn [JS.allDigits]. by rewrite IH, andb_false_r.
Qed.

Lemma stripPort_port (s ds : string) :
  ds ≠ "" → JS.allDigits ds = true → JS.stripPort (s +:+ ":" +:+ ds) = s.
Proof.
  intros Hne Hds. induction s as [|c s IH].
  - rewrite append_nil_l, append_cons, append_nil_l. cbn [JS.stripPort].
    rewrite Hds. by destruct ds.
  - rewrite append_cons. cbn [JS.stripPort].
    by rewrite allDigits_colon, andb_false_r, IH.
Qed.

Lemma stripPort_no_colon (s : string) : JS.count ":" s = 0 → JS.stripPort s = s.
Proof.
  induction s as [|c s IH]; [done|]. cbn [JS.count JS.stripPort].
  pose proof (count_nonneg ":" s) as Hpos. destruct (Ascii.eqb c ":"); [lia|].
  intros H. cbn [andb]. rewrite IH; [done | lia].
Qed.

Lemma stripPort_empty (s : string) :
  JS.stripPort s = ""
  ↔ s = "" ∨ ∃ ds, s = ":" +:+ ds ∧ ds ≠ "" ∧ JS.allDigits ds = true.
Proof.
  destruct s as [|c s]; [by split; [left|]|].
  cbn [JS.stripPort]. split.
  - destruct (Ascii.eqb c ":" && JS.truthy s && JS.allDigits s) eqn:E; [|done].
    intros _. right. apply andb_true_iff in E as [[Hc Hs]%andb_true_iff Hd].
    apply Ascii.eqb_eq in Hc as ->. exists s. split; [done|]. split; [|done].
    by destruct s.
  - intros [|(ds & Heq & Hne & Hd)]; [done|].
    rewrite append_cons, append_nil_l in Heq. injection Heq as -> ->.
    rewrite Hd. by destruct ds.
Qed.

Lemma hostOf_eq (req : Request) :
  hostOf req = JS.toLowerCase (JS.stripPort (JS.orElse (req_host req) "")).
Proof. unfold hostOf. apply stripPort_toLowerCase. Qed.

(** X6.  The port of the [Host] header and the case of its letters do not
    reach the cache: a header [h:port] gives the host [h] in lower case,
    the host that the header [h] alone gives when [h] holds no colon. *)
Theorem hostOf_port (req : Request) (h ds : string) :
  req_host req = Some (h +:+ ":" +:+ ds) → ds ≠ "" → JS.allDigits ds = true →
  hostOf req = JS.toLowerCase h
  ∧ (JS.count ":" h = 0 →
     ∀ req', req_host req' = Some h ∨ req_host req' = Some (JS.toLowerCase h) →
             hostOf req' = hostOf req).
Proof.
  intros Hhost Hne Hds.
  assert (hostOf req = JS.toLowerCase h) as Heq.
  { rewrite hostOf_eq, Hhost. unfold JS.orElse.
    assert (JS.truthy (h +:+ ":" +:+ ds) = true) as -> by (by destruct h).
    by rewrite stripPort_port. }
  split; [done|]. intros Hc req' Hreq'. rewrite Heq, hostOf_eq.
  assert (JS.orElse (Some h) "" = h) as Hor by (by destruct h).
  destruct Hreq' as [-> | ->].
  - by rewrite Hor, stripPort_no_colon.
  - assert (JS.orElse (Some (JS.toLowerCase h)) "" = JS.toLowerCase h) as ->
      by (by destruct h).
    rewrite <- stripPort_toLowerCase, toLowerCase_idem, stripPort_toLowerCase.
    by rewrite stripPort_no_colon.
Qed.

Lemma hostOf_port_witness :
  hostOf (get "Shop.Example.com:8080" "/") = JS.toLowerCase "Shop.Example.com"
  ∧ hostOf (get "Shop.Example.com" "/") = hostOf (get "Shop.Example.com:8080" "/").
Proof.
  destruct (hostOf_port (get "Shop.Example.com:8080" "/") "Shop.Example.com" "8080")
    as [H1 H2]; [reflexivity | discriminate | reflexivity |].
  split; [exact H1|]. apply H2; [reflexivity|]. left. reflexivity.
Defined.

(** X7.  The listener finds no host exactly when the [Host] header is
    missing, empty, or a colon followed by digits only.  Such a request
    outside the ACME prefix is answered with 400 [Host header is required],
    whatever its method and path; the module variables stay as they are
    and no callback is installed. *)
Theorem listener_host_required (w : World) (req : Request) (st : State) :
  JS.startsWith acme_prefix (urlOf req) = false →
  (hostOf req = ""
   ↔ req_host req = None ∨ req_host req = Some ""
     ∨ ∃ ds, req_host req = Some (":" +:+ ds) ∧ ds ≠ "" ∧ JS.allDigits ds = true)
  ∧ (hostOf req = "" →
     serve w req st
     = (st, [EvWriteHead 400 []; EvWrite "Host header is required"; EvEnd])).
Proof.
  intros Hacme. split.
  - rewrite hostOf_eq.
    assert (∀ s, JS.toLowerCase s = "" ↔ s = "") as Hlow by (by intros []).
    rewrite Hlow, stripPort_empty. unfold JS.orElse.
    destruct (req_host req) as [[|c h]|]; cbn [JS.truthy].
    + split; [by right; left | by left].
    + split.
      * intros [|(ds & -> & ? & ?)]; [done|]. right. right. by exists ds.
      * intros [|[|(ds & Heq & ? & ?)]]; [done..|]. right. exists ds.
        split; [congruence | done].
    + split; [by left | by left].
  - intros Hhost. unfold serve, listener, listener_try. fold (urlOf req).
    rewrite Hacme, Hhost. done.
Qed.

Lemma listener_host_required_witness :
  JS.startsWith acme_prefix (urlOf (get ":8080" "/stat")) = false
  ∧ serve world_early (get ":8080" "/stat") state_shop
    = (state_shop, [EvWriteHead 400 []; EvWrite "Host header is required"; EvEnd]).
Proof.
  split; [reflexivity|].
  apply (listener_host_required world_early (get ":8080" "/stat") state_shop);
    reflexivity.
Defined.

(** ** The guards and the queries of [buildCache] *)

(** X8.  [buildCache] asks the resolver in a fixed order and stops at the
    first failure: nothing is asked when one of the three guards on the
    host fires, the CAA records are asked first, and the TXT record is
    asked only after the CAA answer was accepted.  The cache is never
    touched, and a guard that fires leaves the module variables alone and
    reports the first guard in the order IP literal, host length, number
    of dots. *)
Theorem buildCache_queries (w : World) (host : string) (st st' : State)
    (r : Result Cache) (l : list Event) :
  buildCache w host st = (r, st', l) →
  resolveCache st' = resolveCache st
  ∧ (if unservable w host then
       l = [] ∧ st' = st
       ∧ r = Throw {| message := Some
                (if isIpAddress w host then "unable to serve with direct IP address"
                 else if isExceedHostLimit host
                      then "Host name is too long (Must no more than 64 char)"
                      else "Host parts is too long (Must less than 10 dots)") |}
     else
       match dns w host 257 with
       | inl e => l = [EvDns host 257] ∧ r = Throw e ∧ st' = st
       | inr a =>
           match validateCAA_answer a with
           | Some _ => l = [EvDns host 257] ∧ st' = st ∧ ∃ e, r = Throw e
           | None => l = [EvDns host 257; EvDns ("_." +:+ host) 16]
           end
       end).
Proof.
  intros H. split; [by eapply buildCache_effects|].
  revert H. unfold buildCache, unservable.
  destruct (isIpAddress w host); [by intros [= <- <- <-]|].
  destruct (isExceedHostLimit host); [by intros [= <- <- <-]|].
  destruct (isExceedLabelLimit host); [by intros [= <- <- <-]|].
  cbn [orb]. unfold bind at 1. rewrite validateCAARecords_eq.
  destruct (dns w host 257) as [e|a]; [by intros [= <- <- <-]|].
  destruct (validateCAA_answer a) as [records|].
  { intros [= <- <- <-]. cbn [app]. eauto. }
  unfold bind at 1. rewrite findTxtRecord_eq.
  destruct (dns w ("_." +:+ host) 16) as [e|b]; [by intros [= <- <- <-]|].
  unfold_M. intros H. repeat case_match; simplify_eq; done.
Qed.

Lemma buildCache_queries_witness :
  let out := buildCache world_late "shop.example.com" state_shop in
  let c := {| url := "https://dest.example/app"; expand := false; blacklisted := false;
              expire := 176400000; httpStatus := Some 302 |} in
  out = (Ok c, out.1.2, out.2)
  ∧ resolveCache out.1.2 = resolveCache state_shop.
Proof.
  intros out c.
  assert (out = (Ok c, out.1.2, out.2)) as H1 by (vm_compute; reflexivity).
  split; [exact H1|].
  exact (proj1 (buildCache_queries world_late "shop.example.com" state_shop _ _ _ H1)).
Defined.

(** ** Where the slots of the cache come from *)

Lemma lru_get_elem (k : string) (c : LRU) (x : string * CacheValue) :
  x ∈ (lru_get k c).2 → x ∈ c.
Proof.
  revert x. apply Forall_forall, lru_get_Forall. by apply Forall_forall.
Qed.

Lemma lru_set_elem (k : string) (v : CacheValue) (c : LRU) (x : string * CacheValue) :
  x ∈ lru_set k v c → x = (k, v) ∨ x ∈ c.
Proof.
  revert x. apply Forall_forall, lru_set_Forall; [by left|].
  apply Forall_forall. by right.
Qed.

Lemma isHostBlacklisted_snd (e : Env) (h : string) (p : Policy) :
  (isHostBlacklisted e h p).2 = initPolicy e p.
Proof. unfold isHostBlacklisted. by destruct (whitelistMap (initPolicy e p)). Qed.

Lemma initPolicy_idem (e e' : Env) (p : Policy) :
  initPolicy e' (initPolicy e p) = initPolicy e p.
Proof.
  unfold initPolicy. destruct (blacklistMap p) eqn:E; [by rewrite E | done].
Qed.

Lemma isHostBlacklisted_of (e : Env) (h : string) (p : Policy) :
  policy_of e p → isHostBlacklisted e h p = isHostBlacklisted e h policy0.
Proof. intros Hp. unfold isHostBlacklisted. by rewrite (initPolicy_of e p Hp). Qed.

Lemma needsBuild_false (now : Z) (cached : option CacheValue) :
  needsBuild now cached = false →
  ∃ c, cached = Some (Entry c) ∧ needsBuild now (Some (Entry c)) = false.
Proof. destruct cached as [[c|]|]; [eauto | done..]. Qed.

(** [resolve] either keeps the slots it found, or adds the decision that
    [buildCache] made for the host; only then the policy variables may
    have been initialised. *)
Lemma resolve_slots (w : World) (host : string) (st st' : State) (r : Result Cache)
    (l : list Event) :
  resolve w host st = (r, st', l) →
  (policy st' = policy st ∧ ∀ kv, kv ∈ resolveCache st' → kv ∈ resolveCache st)
  ∨ ∃ c stb lb,
      r = Ok c ∧ buildCache w host (after_get host st) = (Ok c, stb, lb)
      ∧ policy st' = initPolicy (env w) (policy st)
      ∧ ∀ kv, kv ∈ resolveCache st' → kv = (host, Entry c) ∨ kv ∈ resolveCache st.
Proof.
  destruct (needsBuild (now_listener w) (lru_peek host (resolveCache st))) eqn:Hn.
  - rewrite resolve_miss by done.
    destruct (buildCache w host (after_get host st)) as [[[c|e] st2] lv] eqn:E.
    + intros [= <- <- <-]. right. exists c, st2, lv. split; [done|]. split; [done|].
      apply buildCache_Ok
        in E as (_ & _ & _ & a & b & rec & _ & _ & _ & _ & _ & _ & _ & -> & _).
      cbn [after_set after_get policy resolveCache]. split.
      * apply isHostBlacklisted_snd.
      * intros kv [->|H]%lru_set_elem; [by left|]. right. by apply lru_get_elem in H.
    + intros [= <- <- <-]. left. apply buildCache_Throw in E as ->.
      split; [done|]. intros kv. apply lru_get_elem.
  - apply needsBuild_false in Hn as (c & Hpeek & Hfresh).
    rewrite (resolve_hit w host st c Hpeek Hfresh). intros [= <- <- <-]. left.
    split; [done|]. intros kv. apply lru_get_elem.
Qed.

Lemma listener_slots (w : World) (req : Request) (st : State) :
  (policy (listener w req st).1 = policy st
   ∧ ∀ kv, kv ∈ resolveCache (listener w req st).1 → kv ∈ resolveCache st)
  ∨ (reachesForward w req = true
     ∧ ∃ c stb lb,
         buildCache w (hostOf req) (after_get (hostOf req) st) = (Ok c, stb, lb)
         ∧ policy (listener w req st).1 = initPolicy (env w) (policy st)
         ∧ ∀ kv, kv ∈ resolveCache (listener w req st).1 →
                 kv = (hostOf req, Entry c) ∨ kv ∈ resolveCache st).
Proof.
  destruct (reachesForward w req) eqn:Hroute.
  - rewrite listener_forward, forward_eq by done.
    destruct (resolve w (hostOf req) st) as [[[c|e] st1] l1] eqn:E.
    + destruct (respond w req (urlOf req) c st1) as [[r2 st2] l2] eqn:E2.
      apply respond_state in E2 as ->. rewrite finish_state.
      apply resolve_slots in E as [E|(c' & stb & lb & [= <-] & E)]; [by left|].
      right. split; [done|]. by exists c, stb, lb.
    + rewrite finish_state.
      apply resolve_slots in E as [E|(c' & stb & lb & ? & _)]; [by left | done].
  - destruct (listener_try_static w req st Hroute) as (r & l & E & _).
    unfold listener. rewrite E, finish_state. by left.
Qed.

Lemma onEnd_slots (w : World) (totalSize : Z) (body : string) (st st' : State)
    (r : Result unit) (l : list Event) :
  onEnd w totalSize body st = (r, st', l) →
  policy st' = policy st
  ∧ Forall (fun e => ∃ d, e = EvCacheSet d Sentinel) l
  ∧ ∀ kv, kv ∈ resolveCache st' →
          kv ∈ resolveCache st
          ∨ (kv.2 = Sentinel ∧ ∃ c, (kv.1, Entry c) ∈ resolveCache st).
Proof.
  unfold onEnd.
  destruct (totalSize <=? MAX_DATA_SIZE); [|intros [= <- <- <-]; eauto].
  destruct (querystring_domain w body) as [[d|ds]|];
    [|intros [= <- <- <-]; eauto..].
  destruct (negb (JS.truthy d)); [intros [= <- <- <-]; eauto|].
  destruct (isFQDN w d); [|intros [= <- <- <-]; eauto].
  unfold bind, cache_get, cache_set, ret.
  pose proof (lru_get_fst d (resolveCache st)) as Hfst.
  pose proof (lru_get_elem d (resolveCache st)) as Hsub.
  destruct (lru_get d (resolveCache st)) as [[[c|]|] cache'];
    cbn [fst snd] in *; intros [= <- <- <-]; cbn [policy resolveCache];
    (split; [done|]); (split; [repeat constructor; eauto|]); eauto.
  intros kv [->|H]%lru_set_elem; [|eauto]. right. split; [done|].
  exists c. by apply lru_peek_elem.
Qed.

(** One request, from the listener to the end of its body. *)
Lemma serve_cases (w : World) (req : Request) (st : State) :
  serve w req st = listener w req st
  ∨ ∃ totalSize body r st2 l2,
      onEnd w totalSize body (listener w req st).1 = (r, st2, l2)
      ∧ serve w req st = (st2, (listener w req st).2 ++ l2).
Proof.
  unfold serve. destruct (listener w req st) as [st1 l1]. cbn [fst snd].
  destruct (existsb isReqOn l1); [|by left].
  destruct (onData (req_chunks req) 0 "") as [[totalSize body] []]; [by left|].
  destruct (onEnd w totalSize body st1) as [[r st2] l2] eqn:E. right.
  by exists totalSize, body, r, st2, l2.
Qed.

Lemma serve_policy (w : World) (req : Request) (st : State) :
  policy (serve w req st).1 = policy st
  ∨ policy (serve w req st).1 = initPolicy (env w) (policy st).
Proof.
  assert (policy (listener w req st).1 = policy st
          ∨ policy (listener w req st).1 = initPolicy (env w) (policy st)) as Hl.
  { destruct (listener_slots w req st) as [[H _]|(_ & c & stb & lb & _ & H & _)]; eauto. }
  destruct (serve_cases w req st) as [->|(ts & body & r & st2 & l2 & E & ->)]; [done|].
  cbn [fst]. apply onEnd_slots in E as [-> _]. done.
Qed.

(** A slot after a request is one from before, the sentinel over a key
    from before, or one under the host of the request after a rebuild that
    initialised the policy variables, if need be. *)
Lemma serve_origin (w : World) (req : Request) (st : State) (kv : string * CacheValue) :
  kv ∈ resolveCache (serve w req st).1 →
  (∃ v, (kv.1, v) ∈ resolveCache st)
  ∨ policy (serve w req st).1 = initPolicy (env w) (policy st).
Proof.
  destruct (serve_cases w req st) as [->|(ts & body & r & st2 & l2 & E & ->)].
  - destruct (listener_slots w req st) as [[_ H]|(_ & c & stb & lb & _ & Hp & _)];
      [|by right]. intros Hkv. left. exists kv.2. destruct kv. by apply H.
  - cbn [fst]. apply onEnd_slots in E as (Hp & _ & Hs). rewrite Hp.
    destruct (listener_slots w req st) as [[_ H]|(_ & c & stb & lb & _ & Hp' & _)];
      [|by right].
    intros [Hkv|(_ & c & Hkv)]%Hs; left.
    + exists kv.2. destruct kv. by apply H.
    + exists (Entry c). by apply H.
Qed.

(** A property of slots that the sentinel inherits from a decision and
    that holds of every decision of [buildCache] under its host is kept by
    a request. *)
Lemma serve_Forall (P : string * CacheValue → Prop) (w : World) (req : Request)
    (st : State) :
  (∀ k c, P (k, Entry c) → P (k, Sentinel)) →
  (∀ c stb lb,
     reachesForward w req = true →
     buildCache w (hostOf req) (after_get (hostOf req) st) = (Ok c, stb, lb) →
     P (hostOf req, Entry c)) →
  Forall P (resolveCache st) → Forall P (resolveCache (serve w req st).1).
Proof.
  intros Hsent Hbuild Hst. rewrite Forall_forall in Hst.
  assert (∀ kv, kv ∈ resolveCache (listener w req st).1 → P kv) as Hl.
  { intros kv Hkv.
    destruct (listener_slots w req st) as [[_ H]|(Hr & c & stb & lb & E & _ & H)].
    - by apply Hst, H.
    - apply H in Hkv as [->|Hkv]; [by eapply Hbuild | by apply Hst]. }
  apply Forall_forall. intros kv.
  destruct (serve_cases w req st) as [->|(ts & body & r & st2 & l2 & E & ->)];
    [apply Hl|].
  cbn [fst]. apply onEnd_slots in E as (_ & _ & Hs).
  intros [Hkv|(Hv & c & Hkv)]%Hs; [by apply Hl|].
  destruct kv as [k v]. cbn [fst snd] in *. subst v. eapply Hsent, Hl, Hkv.
Qed.

(** ** What the cache holds *)

Lemma startsWith_spec (p s : string) : JS.startsWith p s = true ↔ ∃ r, s = p +:+ r.
Proof.
  revert s. induction p as [|a p IH]; intros s.
  - split; [intros _; by exists s | done].
  - destruct s as [|b s]; cbn [JS.startsWith].
    + split; [done | by intros [r ?]].
    + rewrite andb_true_iff, Ascii.eqb_eq, IH. split.
      * intros [-> [r ->]]. by exists r.
      * intros [r Hr]. rewrite append_cons in Hr. injection Hr as -> ->. eauto.
Qed.

Lemma dropLast_app (a r : string) : r ≠ "" → JS.dropLast (a +:+ r) = a +:+ JS.dropLast r.
Proof.
  intros Hr. induction a as [|c a IH]; [done|].
  rewrite !append_cons. cbn [JS.dropLast]. rewrite IH.
  destruct (a +:+ r) eqn:E; [|done]. by destruct a, r.
Qed.

Lemma absoluteURL_dropLast (u : string) :
  absoluteURL u = true → JS.endsWithChar "*" u = true →
  absoluteURL (JS.dropLast u) = true.
Proof.
  unfold absoluteURL.
  intros [[r ->]%startsWith_spec | [r ->]%startsWith_spec]%orb_true_iff Hstar;
    (destruct r as [|c r]; [done|]); rewrite dropLast_app by done;
    apply orb_true_iff; [left | right]; apply startsWith_spec; eauto.
Qed.

Lemma buildCache_servable (w : World) (host : string) (st st' : State) (c : Cache)
    (l : list Event) :
  buildCache w host st = (Ok c, st', l) →
  isExceedHostLimit host = false ∧ isExceedLabelLimit host = false
  ∧ absoluteURL (url c) = true.
Proof.
  intros (_ & H1 & H2 & a & b & r & _ & _ & _ & _ & Habs & _ & -> & _)%buildCache_Ok.
  split; [done|]. split; [done|]. cbn [url].
  destruct (JS.endsWithChar "*" (txt_url r)) eqn:E; [|done].
  by apply absoluteURL_dropLast.
Qed.

Lemma reachable_servable (st : State) :
  reachable st → Forall slot_servable (resolveCache st).
Proof.
  induction 1 as [|w req st _ IH]; [by constructor|].
  apply serve_Forall; [| |done].
  - by intros k c (? & ? & ? & _).
  - intros c stb lb Hroute (H1 & H2 & H3)%buildCache_servable.
    split; [|done]. unfold reachesForward in Hroute.
    apply andb_true_iff in Hroute as [[_ Ht]%andb_true_iff _].
    by destruct (hostOf req).
Qed.

(** X9.  Every slot of the cache of a process is under a host that passes
    the guards of [buildCache] on its length: the key is not empty, has at
    most 64 characters and fewer than 10 dots; and every cached decision
    forwards to a URL that starts with [http://] or [https://], also after
    the wildcard mark has been taken off. *)
Theorem cache_slots_servable (st : State) (k : string) (v : CacheValue) :
  reachable st → lru_peek k (resolveCache st) = Some v →
  k ≠ "" ∧ JS.length k ≤ 64 ∧ JS.count dot k < 10
  ∧ ∀ c, v = Entry c →
         JS.startsWith "http://" (url c) = true
         ∨ JS.startsWith "https://" (url c) = true.
Proof.
  intros Hst Hpeek. apply reachable_servable in Hst.
  rewrite Forall_forall in Hst.
  destruct (Hst (k, v) (lru_peek_elem _ _ _ Hpeek)) as (H1 & H2 & H3 & H4).
  cbn [fst snd] in *. split; [done|].
  unfold isExceedHostLimit in H2. unfold isExceedLabelLimit in H3.
  split; [lia|]. split; [lia|].
  intros c ->. by apply orb_true_iff.
Qed.

Lemma cache_slots_servable_witness :
  reachable state_shop
  ∧ lru_peek "shop.example.com" (resolveCache state_shop) = Some (Entry decision_shop)
  ∧ "shop.example.com" ≠ "" ∧ JS.length "shop.example.com" ≤ 64
  ∧ JS.count dot "shop.example.com" < 10.
Proof.
  assert (reachable state_shop) as H1 by (apply reachable_serve, reachable_init).
  assert (lru_peek "shop.example.com" (resolveCache state_shop)
          = Some (Entry decision_shop)) as H2 by (vm_compute; reflexivity).
  split; [exact H1|]. split; [exact H2|].
  destruct (cache_slots_servable state_shop "shop.example.com" _ H1 H2)
    as (H3 & H4 & H5 & _).
  split; [exact H3|]. split; [exact H4 | exact H5].
Defined.

Lemma reachable_in_reachable (e : Env) (st : State) : reachable_in e st → reachable st.
Proof. induction 1; by constructor. Qed.

Lemma reachable_in_policy (e : Env) (st : State) :
  reachable_in e st →
  policy_of e (policy st)
  ∧ (resolveCache st ≠ [] → policy st = initPolicy e policy0)
  ∧ Forall (slot_policy e) (resolveCache st).
Proof.
  induction 1 as [|w req st He _ (IH1 & IH2 & IH3)].
  - split; [by left|]. split; [done | by constructor].
  - assert (initPolicy (env w) (policy st) = initPolicy e policy0) as Hinit.
    { rewrite He. by apply initPolicy_of. }
    split; [|split].
    + destruct (serve_policy w req st) as [-> | ->]; [done|]. right. done.
    + intros Hne. destruct (resolveCache (serve w req st).1) as [|kv rest] eqn:E; [done|].
      destruct (serve_origin w req st kv) as [[v Hv]|Hp].
      * rewrite E. by left.
      * assert (policy st = initPolicy e policy0) as Hpol.
        { apply IH2. intros Hnil. rewrite Hnil in Hv. by apply elem_of_nil in Hv. }
        destruct (serve_policy w req st) as [-> | ->]; [done|].
        by rewrite Hinit.
      * by rewrite Hp.
    + apply serve_Forall; [done | | done].
      intros c stb lb _ (_ & _ & _ & a & b & r & _ & _ & _ & _ & _ & _ & -> & _)%buildCache_Ok.
      unfold slot_policy. cbn [fst snd blacklisted after_get policy].
      rewrite He. by rewrite isHostBlacklisted_of.
Qed.

(** X10.  Under a fixed environment the policy variables are either
    untouched or initialised from it, they are initialised whenever the
    cache holds a decision, and the deny flag of every cached decision is
    the answer that [isHostBlacklisted] gives for the key of its slot. *)
Theorem cache_policy_agrees (e : Env) (st : State) :
  reachable_in e st →
  policy_of e (policy st)
  ∧ ∀ k c, lru_peek k (resolveCache st) = Some (Entry c) →
           policy st = initPolicy e policy0
           ∧ blacklisted c = (isHostBlacklisted e k (policy st)).1
           ∧ (isHostBlacklisted e k (policy st)).2 = policy st.
Proof.
  intros (H1 & H2 & H3)%reachable_in_policy. split; [done|].
  intros k c Hpeek. apply lru_peek_elem in Hpeek.
  assert (policy st = initPolicy e policy0) as Hpol.
  { apply H2. intros Hnil. rewrite Hnil in Hpeek. by apply elem_of_nil in Hpeek. }
  split; [done|]. rewrite Forall_forall in H3. specialize (H3 _ Hpeek).
  unfold slot_policy in H3. cbn [fst snd] in H3.
  rewrite isHostBlacklisted_of by done. split; [done|].
  by rewrite isHostBlacklisted_snd, Hpol.
Qed.

Lemma cache_policy_agrees_witness :
  reachable_in (env world_early) state_shop
  ∧ policy state_shop = initPolicy (env world_early) policy0.
Proof.
  assert (reachable_in (env world_early) state_shop) as H1.
  { apply (reachable_in_serve _ world_early); [reflexivity | apply reachable_in_init]. }
  assert (lru_peek "shop.example.com" (resolveCache state_shop)
          = Some (Entry decision_shop)) as H2 by (vm_compute; reflexivity).
  split; [exact H1|].
  exact (proj1 (proj2 (cache_policy_agrees _ _ H1) _ _ H2)).
Defined.

(** ** Hosts that cannot be served *)

Lemma after_get_None (k : string) (st : State) :
  lru_peek k (resolveCache st) = None → after_get k st = st.
Proof.
  intros H. unfold after_get. rewrite (lru_get_None _ _ H). by destruct st.
Qed.

Lemma buildCache_guard (w : World) (host : string) (st : State) :
  unservable w host = true →
  ∃ m, m ≠ "" ∧ buildCache w host st = (Throw {| message := Some m |}, st, [])
       ∧ m = if isIpAddress w host then "unable to serve with direct IP address"
             else if isExceedHostLimit host
                  then "Host name is too long (Must no more than 64 char)"
                  else "Host parts is too long (Must less than 10 dots)".
Proof.
  unfold unservable, buildCache.
  destruct (isIpAddress w host);
    [intros _; eexists; (split; [|split; reflexivity]); discriminate|].
  destruct (isExceedHostLimit host);
    [intros _; eexists; (split; [|split; reflexivity]); discriminate|].
  destruct (isExceedLabelLimit host);
    [intros _; eexists; (split; [|split; reflexivity]); discriminate | done].
Qed.

Lemma cors_of_no_callbacks (w : World) (req : Request) (l : list Event) :
  existsb isReqOn (cors_of w req ++ l) = existsb isReqOn l.
Proof. unfold cors_of, cors. by destruct (isHome w req). Qed.

(** X11.  A host over the length limits is never in the cache of a
    process, and a request for a host that fails a guard of [buildCache]
    and has no slot is answered with 400 and the message of the first
    guard that fires, without a query to the resolver and without a change
    of the module variables. *)
Theorem listener_unservable (w : World) (req : Request) (st : State) :
  reachable st → reachesForward w req = true → unservable w (hostOf req) = true →
  ((isExceedHostLimit (hostOf req) || isExceedLabelLimit (hostOf req)) = true →
   lru_peek (hostOf req) (resolveCache st) = None)
  ∧ (lru_peek (hostOf req) (resolveCache st) = None →
     serve w req st
     = (st, cors_of w req
            ++ [EvWriteHead 400 [];
                EvWrite (if isIpAddress w (hostOf req)
                         then "unable to serve with direct IP address"
                         else if isExceedHostLimit (hostOf req)
                              then "Host name is too long (Must no more than 64 char)"
                              else "Host parts is too long (Must less than 10 dots)");
                EvEnd])).
Proof.
  intros Hst Hroute Hguard. split.
  - intros Hlimit.
    destruct (lru_peek (hostOf req) (resolveCache st)) as [v|] eqn:Hpeek; [|done].
    apply reachable_servable in Hst. rewrite Forall_forall in Hst.
    destruct (Hst _ (lru_peek_elem _ _ _ Hpeek)) as (_ & H1 & H2 & _).
    cbn [fst] in H1, H2. by rewrite H1, H2 in Hlimit.
  - intros Hpeek.
    assert (needsBuild (now_listener w) (lru_peek (hostOf req) (resolveCache st)) = true)
      as Hmiss by (by rewrite Hpeek).
    pose proof (listener_rebuild w req st Hroute Hmiss) as H.
    rewrite (after_get_None _ _ Hpeek) in H.
    destruct (buildCache_guard w (hostOf req) st Hguard) as (m & Hm & Hb & Heq).
    rewrite Hb in H. destruct H as [_ Hl].
    assert (listener w req st
            = (st, cors_of w req ++ [EvWriteHead 400 []; EvWrite m; EvEnd])) as Hl'.
    { rewrite Hl. cbn [finish]. rewrite app_nil_r.
      by rewrite (proj1 (error_response_cases {| message := Some m |}) m eq_refl Hm). }
    unfold serve. rewrite Hl', cors_of_no_callbacks. cbn [existsb isReqOn orb].
    by rewrite Heq.
Qed.

Lemma listener_unservable_witness :
  reachable state_shop
  ∧ reachesForward world_early (get "192.0.2.1" "/") = true
  ∧ unservable world_early (hostOf (get "192.0.2.1" "/")) = true
  ∧ serve world_early (get "192.0.2.1" "/") state_shop
    = (state_shop,
       [EvWriteHead 400 []; EvWrite "unable to serve with direct IP address"; EvEnd]).
Proof.
  assert (reachable state_shop) as H1 by (apply reachable_serve, reachable_init).
  assert (reachesForward world_early (get "192.0.2.1" "/") = true) as H2
    by (vm_compute; reflexivity).
  assert (unservable world_early (hostOf (get "192.0.2.1" "/")) = true) as H3
    by (vm_compute; reflexivity).
  assert (lru_peek (hostOf (get "192.0.2.1" "/")) (resolveCache state_shop) = None)
    as H4 by (vm_compute; reflexivity).
  split; [exact H1|]. split; [exact H2|]. split; [exact H3|].
  exact (proj2 (listener_unservable world_early (get "192.0.2.1" "/") state_shop
                  H1 H2 H3) H4).
Defined.

(** ** Forbidden hosts *)

Lemma reachesForward_host (w : World) (req : Request) :
  reachesForward w req = true → ∃ h, req_host req = Some h ∧ hostOf req ≠ "".
Proof.
  unfold reachesForward. intros [[_ Ht]%andb_true_iff _]%andb_true_iff.
  unfold hostOf in *. destruct (req_host req) as [h|]; [|done].
  exists h. split; [done|]. intros Heq. by rewrite Heq in Ht.
Qed.

(** The decision that [resolve] answers under a fixed environment agrees
    with the policy, and the policy variables are initialised afterwards. *)
Lemma resolve_policy (e : Env) (w : World) (host : string) (st st1 : State)
    (c : Cache) (l1 : list Event) :
  reachable_in e st → env w = e → resolve w host st = (Ok c, st1, l1) →
  policy st1 = initPolicy e policy0
  ∧ blacklisted c = (isHostBlacklisted e host policy0).1.
Proof.
  intros (H1 & H2 & H3)%reachable_in_policy He.
  destruct (needsBuild (now_listener w) (lru_peek host (resolveCache st))) eqn:Hn.
  - rewrite resolve_miss by done.
    destruct (buildCache w host (after_get host st)) as [[[c'|e'] st2] lv] eqn:E; [|done].
    intros [= <- <- <-].
    apply buildCache_Ok
      in E as (_ & _ & _ & a & b & r & _ & _ & _ & _ & _ & _ & -> & -> & _).
    cbn [after_set after_get policy blacklisted]. rewrite He.
    rewrite isHostBlacklisted_snd, isHostBlacklisted_of by done.
    split; [by apply initPolicy_of | done].
  - apply needsBuild_false in Hn as (c' & Hpeek & Hfresh).
    rewrite (resolve_hit w host st c' Hpeek Hfresh). intros [= <- <- <-].
    apply lru_peek_elem in Hpeek. cbn [after_get policy]. split.
    + apply H2. intros Hnil. rewrite Hnil in Hpeek. by apply elem_of_nil in Hpeek.
    + rewrite Forall_forall in H3. apply (H3 _ Hpeek).
Qed.

(** X12.  Under a fixed environment a request is refused exactly when
    [isHostBlacklisted] refuses its host, whether the decision was cached
    or has just been made.  The refusal is 403 [Host is forbidden] without
    a [Location] when [BLACKLIST_REDIRECT] is unset or empty.  When it is
    set, the refusal is 302 to that URL with the [Host] header as sent,
    encoded, in the parameter [d], provided Node accepts this [Location] as
    a header value, and 400 with the error of [writeHead] otherwise.  The
    destination of the TXT record is not disclosed. *)
Theorem listener_forbidden (e : Env) (w : World) (req : Request) (st st1 : State)
    (c : Cache) (l1 : list Event) :
  reachable_in e st → env w = e → reachesForward w req = true →
  resolve w (hostOf req) st = (Ok c, st1, l1) →
  blacklisted c = (isHostBlacklisted e (hostOf req) policy0).1
  ∧ (blacklisted c = true →
     ∃ h, req_host req = Some h
          ∧ (BLACKLIST_REDIRECT e = None ∨ BLACKLIST_REDIRECT e = Some "" →
             listener w req st
             = (st1, cors_of w req ++ l1
                     ++ [EvWriteHead 403 []; EvWrite "Host is forbidden"; EvEnd]))
          ∧ ∀ r, BLACKLIST_REDIRECT e = Some r → r ≠ "" →
                 let location := r +:+ "?d=" +:+ encodeURIComponent w h in
                 (headerSafe location →
                  listener w req st
                  = (st1, cors_of w req ++ l1
                          ++ [EvWriteHead 302 [("Location", location)]; EvEnd]))
                 ∧ (¬ headerSafe location →
                    listener w req st
                    = (st1, cors_of w req ++ l1
                            ++ [EvWriteHead 400 [];
                                EvWrite ("Invalid character in header content ["
                                         +:+ dq +:+ "Location" +:+ dq +:+ "]");
                                EvEnd]))).
Proof.
  intros Hst He Hroute Hres.
  destruct (resolve_policy e w _ _ _ _ _ Hst He Hres) as [Hpol Hflag].
  split; [done|]. intros Hb.
  destruct (reachesForward_host w req Hroute) as (h & Hh & _). exists h.
  split; [done|].
  assert (∀ out,
            (match (if JS.truthyOpt (BLACKLIST_REDIRECT e) then BLACKLIST_REDIRECT e
                    else None) with
             | Some redirectUrl =>
                 writeHead (Some 302)
                   [("Location", redirectUrl +:+ "?d=" +:+ encodeURIComponent w h)]
             | None => let* _ := writeHead (Some 403) [] in write "Host is forbidden"
             end) st1 = out →
            listener w req st
            = finish (out.1.1, out.1.2, cors_of w req ++ l1 ++ out.2)) as Hl.
  { intros out <-. rewrite listener_forward, forward_eq, Hres by done.
    unfold respond. rewrite Hb. unfold bind at 1, getPolicy. rewrite Hpol, Hh.
    cbn [initPolicy policy0 blacklistMap blacklistRedirectUrl default id].
    destruct (BLACKLIST_REDIRECT e) as [[|a r]|]; cbn [JS.truthyOpt JS.truthy].
    - unfold_M. by cbn.
    - match goal with
      | |- context [writeHead ?a ?b ?c] => by destruct (writeHead a b c) as [[r2 st2] l2]
      end.
    - unfold_M. by cbn. }
  split.
  - intros [Hr | Hr]; rewrite Hr in Hl; cbn [JS.truthyOpt JS.truthy] in Hl;
      erewrite Hl by reflexivity; unfold_M; cbn; by rewrite <- !app_assoc.
  - intros r Hbr Hr location. rewrite Hbr in Hl.
    assert (JS.truthyOpt (Some r) = true) as Ht by (by destruct r).
    rewrite Ht in Hl. fold location in Hl.
    erewrite Hl by (apply writeHead_one; lia). split; intros Hsafe.
    + apply validHeaderValue_spec in Hsafe. rewrite Hsafe.
      cbn [fst snd finish]. by rewrite <- !app_assoc.
    + destruct (validHeaderValue location) eqn:E;
        [by apply validHeaderValue_spec in E|].
      cbn [fst snd finish]. by rewrite <- !app_assoc.
Qed.

Lemma listener_forbidden_witness :
  let out := resolve world_denied (hostOf (get "shop.example.com" "/")) state0 in
  let c := {| url := "https://dest.example/"; expand := false; blacklisted := true;
              expire := 86401000; httpStatus := Some 301 |} in
  reachable_in (env world_denied) state0
  ∧ reachesForward world_denied (get "shop.example.com" "/") = true
  ∧ out = (Ok c, out.1.2, out.2)
  ∧ blacklisted c = (isHostBlacklisted (env world_denied)
                       (hostOf (get "shop.example.com" "/")) policy0).1
  ∧ listener world_denied (get "shop.example.com" "/") state0
    = (out.1.2, out.2 ++ [EvWriteHead 403 []; EvWrite "Host is forbidden"; EvEnd]).
Proof.
  intros out c.
  assert (reachable_in (env world_denied) state0) as H1 by apply reachable_in_init.
  assert (reachesForward world_denied (get "shop.example.com" "/") = true) as H2
    by (vm_compute; reflexivity).
  assert (out = (Ok c, out.1.2, out.2)) as H3 by (vm_compute; reflexivity).
  split; [exact H1|]. split; [exact H2|]. split; [exact H3|].
  destruct (listener_forbidden (env world_denied) world_denied
              (get "shop.example.com" "/") state0 _ c _ H1 eq_refl H2 H3)
    as (Hflag & Hresp).
  split; [exact Hflag|].
  destruct (Hresp eq_refl) as (h & _ & H403 & _).
  exact (H403 (or_introl eq_refl)).
Defined.

(** ** The shape of a response *)

Lemma writeHead_cases (status : option Z) (name value : string) (st : State) :
  (∃ n, writeHead status [(name, value)] st
        = (Ok tt, st, [EvWriteHead n [(name, value)]]))
  ∨ ∃ e, writeHead status [(name, value)] st = (Throw e, st, []).
Proof.
  unfold writeHead. destruct status as [n|]; [|right; by eexists].
  destruct ((100 <=? n) && (n <=? 999)); [|right; by eexists].
  cbn [invalidHeader]. destruct (validHeaderValue value);
    [left | right]; by eexists.
Qed.

Lemma respond_cases (w : World) (req : Request) (url' : string) (c : Cache) (st : State) :
  ∃ r l, respond w req url' c st = (r, st, l)
         ∧ ((r = Ok tt ∧ ∃ n h, l = [EvWriteHead n h])
            ∨ (r = Ok tt ∧ l = [EvWriteHead 403 []; EvWrite "Host is forbidden"])
            ∨ (∃ e, r = Throw e ∧ l = [])).
Proof.
  unfold respond. destruct (blacklisted c).
  - unfold bind at 1, getPolicy. destruct (blacklistRedirectUrl (policy st)).
    + match goal with
      | |- context [writeHead ?a [(?k, ?v)] ?s] =>
          destruct (writeHead_cases a k v s) as [[n ->] | [e ->]]
      end.
      * eexists _, _. split; [reflexivity|]. left. eauto.
      * eexists _, _. split; [reflexivity|]. right. right. eauto.
    + eexists _, _. split; [reflexivity|]. right. left. eauto.
  - match goal with
    | |- context [writeHead ?a [(?k, ?v)] ?s] =>
        destruct (writeHead_cases a k v s) as [[n ->] | [e ->]]
    end.
    + eexists _, _. split; [reflexivity|]. left. eauto.
    + eexists _, _. split; [reflexivity|]. right. right. eauto.
Qed.

Lemma respond_frame (w : World) (req : Request) (url' : string) (c : Cache)
    (st st' : State) :
  policy st' = policy st →
  respond w req url' c st'
  = ((respond w req url' c st).1.1, st', (respond w req url' c st).2).
Proof.
  assert (∀ status headers,
            writeHead status headers st'
            = ((writeHead status headers st).1.1, st',
               (writeHead status headers st).2)) as Hw.
  { intros status headers. unfold writeHead. destruct status as [n|]; [|done].
    destruct ((100 <=? n) && (n <=? 999)); [|done].
    by destruct (invalidHeader headers). }
  intros Hp. unfold respond. destruct (blacklisted c); [|apply Hw].
  unfold bind at 1 3 5, getPolicy. rewrite Hp.
  destruct (blacklistRedirectUrl (policy st)).
  - rewrite Hw. by destruct (writeHead _ _ st) as [[r2 st2] l2].
  - done.
Qed.

Lemma wellFormed_app (pre l : list Event) :
  forallb beforeHead pre = true → wellFormed (pre ++ l) = wellFormed l.
Proof.
  induction pre as [|e pre IH]; [done|]. cbn [forallb app wellFormed].
  intros [-> Hpre]%andb_true_iff. by apply IH.
Qed.

Lemma cors_of_beforeHead (w : World) (req : Request) :
  forallb beforeHead (cors_of w req) = true ∧ forallb quiet (cors_of w req) = true.
Proof. unfold cors_of, cors. by destruct (isHome w req). Qed.

Lemma isDns_beforeHead (l : list Event) :
  Forall isDns l → forallb beforeHead l = true ∧ existsb isReqOn l = false.
Proof.
  induction 1 as [|e l He _ [IH1 IH2]]; [done|].
  destruct e; try done. all: cbn; by rewrite IH1, IH2.
Qed.

Lemma resolve_log (w : World) (host : string) (st st' : State) (r : Result Cache)
    (l : list Event) :
  resolve w host st = (r, st', l) →
  forallb beforeHead l = true ∧ existsb isReqOn l = false.
Proof.
  destruct (needsBuild (now_listener w) (lru_peek host (resolveCache st))) eqn:Hn.
  - rewrite resolve_miss by done.
    destruct (buildCache w host (after_get host st)) as [[[c|e] st2] lv] eqn:E;
      apply buildCache_effects in E as [_ [H1 H2]%isDns_beforeHead];
      intros [= <- <- <-].
    + rewrite forallb_app, existsb_app, H1, H2. done.
    + done.
  - apply needsBuild_false in Hn as (c & Hpeek & Hfresh).
    rewrite (resolve_hit w host st c Hpeek Hfresh). by intros [= <- <- <-].
Qed.

(** The requests that the listener answers by itself: the outcome is never
    an error, the module variables stay as they are, nothing is asked of
    the resolver or written to the cache, and the body callbacks are
    installed for a [POST] to [/flushcache] only. *)
Lemma listener_try_static_log (w : World) (req : Request) (st : State) :
  reachesForward w req = false →
  ∃ l, listener_try w req st = (Ok tt, st, l)
       ∧ wellFormed (l ++ [EvEnd]) = true ∧ forallb quiet l = true
       ∧ (existsb isReqOn l = true →
          reachesFlush w req = true ∧ req_method req = "POST").
Proof.
  unfold reachesForward, reachesFlush. rewrite isHome_decide.
  unfold listener_try. fold (urlOf req).
  destruct (JS.startsWith acme_prefix (urlOf req)); cbn [negb andb].
  { intros _. unfold_M. destruct (challengeCallbacks w); cbn; eexists; done. }
  destruct (JS.truthy (hostOf req)); cbn [negb andb].
  2: { intros _. unfold_M. cbn. eexists; done. }
  destruct (decide (Some (hostOf req) = HOME_DOMAIN (env w))); [|done].
  cbn [negb orb]. unfold homeDomain. unfold_M. cbn.
  destruct (String.eqb (req_method req) "OPTIONS") eqn:Hopt; cbn [negb andb].
  { intros _. eexists; done. }
  destruct (String.eqb (urlOf req) "/stat"); cbn [negb andb].
  { intros _. eexists; done. }
  destruct (String.eqb (urlOf req) "/health"); cbn [negb andb].
  { intros _. eexists; done. }
  destruct (String.eqb (urlOf req) "/flushcache"); cbn [negb andb]; [|done].
  intros _. destruct (String.eqb (req_method req) "POST") eqn:Hpost.
  - apply String.eqb_eq in Hpost. eexists; done.
  - eexists; done.
Qed.

(** X13.  Every response is begun once and closed once: the log of the
    listener is a run of preparations (resolver queries, the cache write,
    header fields, the installation of the body callbacks), then one
    status line, then at most one write of body, then the end, whatever
    the request, the state and the collaborators; an error in the [try]
    block changes the status line, not the shape.  What follows the end is
    the work of the [/flushcache] callbacks, which only put sentinels. *)
Theorem listener_wellFormed (w : World) (req : Request) (st : State) :
  wellFormed (listener w req st).2 = true
  ∧ ∃ l2, (serve w req st).2 = (listener w req st).2 ++ l2
          ∧ Forall (fun e => ∃ d, e = EvCacheSet d Sentinel) l2.
Proof.
  split.
  - destruct (reachesForward w req) eqn:Hroute.
    + rewrite listener_forward, forward_eq by done.
      destruct (cors_of_beforeHead w req) as [Hcors _].
      destruct (resolve w (hostOf req) st) as [[[c|e] st1] l1] eqn:E;
        apply resolve_log in E as [Hl1 _].
      * destruct (respond_cases w req (urlOf req) c st1)
          as (r & l & -> & [[-> (n & h & ->)] | [[-> ->] | (e & -> & ->)]]);
          cbn [finish snd]; rewrite <- !app_assoc, !wellFormed_app by done; done.
      * cbn [finish snd]. rewrite <- !app_assoc, !wellFormed_app by done. done.
    + destruct (listener_try_static_log w req st Hroute) as (l & E & Hwf & _).
      unfold listener. by rewrite E.
  - destruct (serve_cases w req st) as [->|(ts & body & r & st2 & l2 & E & ->)].
    + exists []. by rewrite app_nil_r.
    + exists l2. split; [done|]. by apply onEnd_slots in E as (_ & ? & _).
Qed.

(** X14.  Only the forwarding code works on the decisions: a request that
    the listener answers by itself (ACME challenge, missing host, the
    control plane) leaves the module variables as they are and neither asks
    the resolver nor writes to the cache.  When serving such a request
    changes the state at all, the request is a [POST] to [/flushcache], the
    policy variables are kept, and every slot is one from before or the
    sentinel over a decision from before. *)
Theorem static_requests_quiet (w : World) (req : Request) (st : State) :
  reachesForward w req = false →
  (listener w req st).1 = st
  ∧ forallb quiet (listener w req st).2 = true
  ∧ policy (serve w req st).1 = policy st
  ∧ (∀ kv, kv ∈ resolveCache (serve w req st).1 →
           kv ∈ resolveCache st
           ∨ (kv.2 = Sentinel ∧ ∃ c, (kv.1, Entry c) ∈ resolveCache st))
  ∧ ((serve w req st).1 ≠ st → reachesFlush w req = true ∧ req_method req = "POST").
Proof.
  intros Hroute.
  destruct (listener_try_static_log w req st Hroute) as (l & E & _ & Hq & Hon).
  assert (listener w req st = (st, l ++ [EvEnd])) as Hl.
  { unfold listener. by rewrite E. }
  split; [by rewrite Hl|]. split.
  { rewrite Hl. cbn [snd]. by rewrite forallb_app, Hq. }
  unfold serve. rewrite Hl.
  assert (existsb isReqOn (l ++ [EvEnd]) = existsb isReqOn l) as ->.
  { rewrite existsb_app. cbn. by rewrite orb_false_r. }
  assert (policy st = policy st
          ∧ (∀ kv, kv ∈ resolveCache st →
                   kv ∈ resolveCache st
                   ∨ (kv.2 = Sentinel ∧ ∃ c, (kv.1, Entry c) ∈ resolveCache st))
          ∧ (st ≠ st → reachesFlush w req = true ∧ req_method req = "POST")) as Hsame.
  { split; [done|]. split; [intros kv ?; by left | by intros []]. }
  destruct (existsb isReqOn l) eqn:Hcb; [|exact Hsame].
  destruct (onData (req_chunks req) 0 "") as [[totalSize body] []]; [exact Hsame|].
  destruct (onEnd w totalSize body st) as [[r st2] l2] eqn:E2.
  apply onEnd_slots in E2 as (Hp & _ & Hs). cbn [fst].
  split; [done|]. split; [exact Hs|]. intros _. by apply Hon.
Qed.

Lemma static_requests_quiet_witness :
  reachesForward world_early (get "forward.example" "/health") = false
  ∧ (listener world_early (get "forward.example" "/health") state_shop).1 = state_shop.
Proof.
  assert (reachesForward world_early (get "forward.example" "/health") = false) as H1
    by (vm_compute; reflexivity).
  split; [exact H1|].
  exact (proj1 (static_requests_quiet world_early (get "forward.example" "/health")
                  state_shop H1)).
Defined.

(** ** The lifetime of a decision *)

Lemma cacheExpirySeconds_nonzero (e : Env) : cacheExpirySeconds e ≠ 0.
Proof.
  unfold cacheExpirySeconds. destruct (CACHE_EXPIRY_SECONDS e) as [s|]; [|done].
  destruct (JS.parseInt10 s) as [n|]; [|done].
  destruct (n =? 0) eqn:E; [done|]. by apply Z.eqb_neq.
Qed.

Lemma respond_quiet (w : World) (req : Request) (url' : string) (c : Cache) (st : State) :
  forallb quiet (respond w req url' c st).2 = true
  ∧ existsb isReqOn (respond w req url' c st).2 = false.
Proof.
  destruct (respond_cases w req url' c st)
    as (r & l & -> & [[-> (n & h & ->)] | [[-> ->] | (e & -> & ->)]]); done.
Qed.

Lemma finish_quiet (r : Result unit) (st : State) (l : list Event) :
  forallb quiet l = true → forallb quiet (finish (r, st, l)).2 = true.
Proof.
  intros H. destruct r; cbn [finish snd]; rewrite !forallb_app, H; done.
Qed.

Lemma finish_no_callbacks (r : Result unit) (st : State) (l : list Event) :
  existsb isReqOn l = false → existsb isReqOn (finish (r, st, l)).2 = false.
Proof.
  intros H. destruct r; cbn [finish snd]; rewrite !existsb_app, H; done.
Qed.

Lemma serve_no_callbacks (w : World) (req : Request) (st : State) :
  existsb isReqOn (listener w req st).2 = false → serve w req st = listener w req st.
Proof.
  unfold serve. destruct (listener w req st) as [st1 l1]. cbn [snd]. by intros ->.
Qed.

(** X15.  A decision that [buildCache] made at time [t] is served as it is
    until [t + cacheExpirySeconds * 1000] inclusive, where
    [cacheExpirySeconds] is the constant computed from the environment as
    it was when the module was loaded: a later request for the same host
    within that time asks nothing of the resolver and writes nothing to the
    cache, whatever the resolver would answer by then; a request after that
    time finds the slot in need of a rebuild.  The lifetime is 86400
    seconds when [CACHE_EXPIRY_SECONDS] was not set, and never zero.  The
    statement is for times and lifetimes within the safe integers, where
    the arithmetic of the source is exact. *)
Theorem decision_lifetime (w w' : World) (req req' : Request) (st st2 : State)
    (c' : Cache) (lv : list Event) :
  reachesForward w req = true →
  needsBuild (now_listener w) (lru_peek (hostOf req) (resolveCache st)) = true →
  buildCache w (hostOf req) (after_get (hostOf req) st) = (Ok c', st2, lv) →
  reachesForward w' req' = true → hostOf req' = hostOf req →
  let lifetime := cacheExpirySeconds (env_loaded w) in
  safeInteger (now_buildCache w) → safeInteger (lifetime * 1000) →
  safeInteger (now_buildCache w + lifetime * 1000) →
  let st1 := (serve w req st).1 in
  expire c' = now_buildCache w + lifetime * 1000
  ∧ lifetime ≠ 0
  ∧ (CACHE_EXPIRY_SECONDS (env_loaded w) = None → lifetime = 86400)
  ∧ lru_peek (hostOf req) (resolveCache st1) = Some (Entry c')
  ∧ (now_listener w' ≤ expire c' →
     forallb quiet (serve w' req' st1).2 = true
     ∧ (serve w' req' st1).2
       = cors_of w' req'
         ++ (finish (respond w' req' (urlOf req') c' st1)).2)
  ∧ (expire c' < now_listener w' →
     needsBuild (now_listener w') (lru_peek (hostOf req') (resolveCache st1)) = true).
Proof.
  intros Hroute Hmiss Hb Hroute' Hhost lifetime _ _ _ st1.
  pose proof (listener_rebuild w req st Hroute Hmiss) as H. rewrite Hb in H.
  destruct H as (r & lr & Hresp & Hl).
  assert (existsb isReqOn (listener w req st).2 = false) as Hoff.
  { rewrite Hl. apply finish_no_callbacks. rewrite cors_of_no_callbacks.
    destruct (buildCache_effects _ _ _ _ _ _ Hb) as [_ [_ Hlv]%isDns_beforeHead].
    rewrite !existsb_app, Hlv.
    pose proof (respond_quiet w req (urlOf req) c'
                  (after_set (hostOf req) (Entry c') st2)) as [_ Hlr].
    rewrite Hresp in Hlr. cbn [snd] in Hlr. by rewrite Hlr. }
  assert (st1 = after_set (hostOf req) (Entry c') st2) as Hst1.
  { unfold st1. by rewrite (serve_no_callbacks _ _ _ Hoff), Hl, finish_state. }
  assert (lru_peek (hostOf req) (resolveCache st1) = Some (Entry c')) as Hpeek.
  { rewrite Hst1. apply lru_peek_set. }
  pose proof Hb as (_ & _ & _ & a & b & rec & _ & _ & _ & _ & _ & _ & Hc & _)%buildCache_Ok.
  split; [by rewrite Hc|]. split; [apply cacheExpirySeconds_nonzero|].
  split; [intros Hnone; unfold lifetime, cacheExpirySeconds; by rewrite Hnone|].
  split; [done|]. split.
  - intros Hnow. rewrite <- Hhost in Hpeek.
    assert (needsBuild (now_listener w') (Some (Entry c')) = false) as Hfresh.
    { cbn [needsBuild]. rewrite Z.gtb_ltb. apply Z.ltb_ge. lia. }
    destruct (listener_hit w' req' st1 c' Hroute' Hpeek Hfresh) as (r' & lr' & Hresp' & Hl').
    pose proof (respond_quiet w' req' (urlOf req') c' (after_get (hostOf req') st1))
      as [Hq Hoff'].
    rewrite Hresp' in Hq, Hoff'. cbn [snd] in Hq, Hoff'.
    assert (serve w' req' st1 = listener w' req' st1) as ->.
    { apply serve_no_callbacks. rewrite Hl'.
      apply finish_no_callbacks. by rewrite cors_of_no_callbacks. }
    rewrite Hl'. split.
    + apply finish_quiet. rewrite forallb_app, Hq.
      by destruct (cors_of_beforeHead w' req') as [_ ->].
    + rewrite (respond_frame w' req' (urlOf req') c' st1 (after_get (hostOf req') st1))
        in Hresp' by done.
      injection Hresp' as <- <-.
      destruct (respond w' req' (urlOf req') c' st1) as [[[[]|e] sa] la];
        cbn [fst snd finish]; by rewrite <- ?app_assoc.
  - intros Hnow. rewrite Hhost, Hpeek. cbn [needsBuild].
    rewrite Z.gtb_ltb. apply Z.ltb_lt. lia.
Qed.

Lemma decision_lifetime_witness :
  let out := buildCache world_early "shop.example.com"
               (after_get "shop.example.com" state0) in
  out = (Ok decision_shop, out.1.2, out.2)
  ∧ now_listener world_last ≤ expire decision_shop
  ∧ forallb quiet (serve world_last (get "SHOP.example.com:443" "/x") state_shop).2
    = true.
Proof.
  intros out.
  assert (reachesForward world_early (get "shop.example.com" "/") = true) as H1
    by (vm_compute; reflexivity).
  assert (needsBuild (now_listener world_early)
            (lru_peek (hostOf (get "shop.example.com" "/")) (resolveCache state0))
          = true) as H2 by (vm_compute; reflexivity).
  assert (out = (Ok decision_shop, out.1.2, out.2)) as H3 by (vm_compute; reflexivity).
  assert (reachesForward world_last (get "SHOP.example.com:443" "/x") = true) as H4
    by (vm_compute; reflexivity).
  assert (hostOf (get "SHOP.example.com:443" "/x") = hostOf (get "shop.example.com" "/"))
    as H5 by (vm_compute; reflexivity).
  assert (now_listener world_last ≤ expire decision_shop) as H6 by (vm_compute; discriminate).
  assert (safeInteger (now_buildCache world_early)) as S1 by (vm_compute; discriminate).
  assert (safeInteger (cacheExpirySeconds (env_loaded world_early) * 1000)) as S2
    by (vm_compute; discriminate).
  assert (safeInteger (now_buildCache world_early
                       + cacheExpirySeconds (env_loaded world_early) * 1000)) as S3
    by (vm_compute; discriminate).
  split; [exact H3|]. split; [exact H6|].
  exact (proj1 (proj1 (proj2 (proj2 (proj2 (proj2
    (decision_lifetime world_early world_last (get "shop.example.com" "/")
       (get "SHOP.example.com:443" "/x") state0 _ decision_shop _ H1 H2 H3 H4 H5
       S1 S2 S3)))))
    H6)).
Defined.

(** ** The recency order *)

Lemma lru_remove_absent (k : string) (c : LRU) :
  lru_peek k c = None → lru_remove k c = c.
Proof.
  induction c as [|[k' v] c IH]; [done|]. cbn [lru_peek lru_remove].
  destruct (String.eqb k' k); [done|]. intros H. by rewrite IH.
Qed.

Lemma lru_peek_remove (k : string) (c : LRU) : lru_peek k (lru_remove k c) = None.
Proof.
  induction c as [|[k' v] c IH]; [done|]. cbn [lru_remove].
  destruct (String.eqb k' k) eqn:E; [done|]. cbn [lru_peek]. by rewrite E.
Qed.

Lemma lru_peek_take_None (k : string) (n : nat) (c : LRU) :
  lru_peek k c = None → lru_peek k (take n c) = None.
Proof.
  revert n. induction c as [|[k' v] c IH]; intros n; [by destruct n|].
  destruct n; [done|]. cbn [lru_peek take].
  destruct (String.eqb k' k); [done|]. apply IH.
Qed.

Lemma lru_get_head (k : string) (v : CacheValue) (c : LRU) :
  lru_peek k c = None → lru_get k ((k, v) :: c) = (Some v, (k, v) :: c).
Proof.
  intros H. unfold lru_get. cbn [lru_peek lru_remove]. rewrite String.eqb_refl.
  by rewrite lru_remove_absent.
Qed.

(** A second [get] of the same key finds the slot in front and changes
    nothing. *)
Lemma lru_get_get (k : string) (c : LRU) :
  lru_get k (lru_get k c).2 = lru_get k c.
Proof.
  unfold lru_get at 2 3. destruct (lru_peek k c) as [v|] eqn:E; cbn [snd].
  - apply lru_get_head, lru_peek_remove.
  - unfold lru_get. by rewrite E.
Qed.

Lemma after_get_get (k : string) (st : State) :
  after_get k (after_get k st) = after_get k st.
Proof. unfold after_get. cbn [resolveCache policy]. by rewrite lru_get_get. Qed.

(** X16.  Serving a fresh decision is idempotent: the request puts the
    slot in front of the recency order and changes nothing else, so the
    same request again gives the same response and the same state, and no
    lookup of any key has changed. *)
Theorem hit_idempotent (w : World) (req : Request) (st : State) (c : Cache) :
  reachesForward w req = true →
  lru_peek (hostOf req) (resolveCache st) = Some (Entry c) →
  needsBuild (now_listener w) (Some (Entry c)) = false →
  let st1 := (serve w req st).1 in
  st1 = after_get (hostOf req) st
  ∧ serve w req st1 = (st1, (serve w req st).2)
  ∧ policy st1 = policy st
  ∧ ∀ k, lru_peek k (resolveCache st1) = lru_peek k (resolveCache st).
Proof.
  intros Hroute Hpeek Hfresh.
  assert (∀ sta, lru_peek (hostOf req) (resolveCache sta) = Some (Entry c) →
                 policy sta = policy st →
                 serve w req sta
                 = (after_get (hostOf req) sta,
                    cors_of w req
                    ++ (finish (respond w req (urlOf req) c st)).2)) as Hserve.
  { intros sta Hpa Hpol.
    destruct (listener_hit w req sta c Hroute Hpa Hfresh) as (r & lr & Hresp & Hl).
    rewrite (respond_frame w req (urlOf req) c st) in Hresp by done.
    injection Hresp as <- <-.
    pose proof (respond_quiet w req (urlOf req) c st) as [_ Hoff].
    rewrite serve_no_callbacks.
    - rewrite Hl.
      destruct (respond w req (urlOf req) c st) as [[[[]|e] sb] lb];
        cbn [fst snd finish]; by rewrite <- ?app_assoc.
    - rewrite Hl. apply finish_no_callbacks. by rewrite cors_of_no_callbacks. }
  cbv zeta. rewrite (Hserve st Hpeek eq_refl). cbn [fst snd].
  split; [done|]. split.
  - rewrite Hserve; [by rewrite after_get_get | | done].
    cbn [after_get resolveCache]. by rewrite lru_peek_get.
  - split; [done|]. intros k. cbn [after_get resolveCache]. apply lru_peek_get.
Qed.

Lemma hit_idempotent_witness :
  lru_peek (hostOf (get "shop.example.com" "/a")) (resolveCache state_shop)
  = Some (Entry decision_shop)
  ∧ serve world_early (get "shop.example.com" "/a")
      (serve world_early (get "shop.example.com" "/a") state_shop).1
    = ((serve world_early (get "shop.example.com" "/a") state_shop).1,
       (serve world_early (get "shop.example.com" "/a") state_shop).2).
Proof.
  assert (reachesForward world_early (get "shop.example.com" "/a") = true) as H1
    by (vm_compute; reflexivity).
  assert (lru_peek (hostOf (get "shop.example.com" "/a")) (resolveCache state_shop)
          = Some (Entry decision_shop)) as H2 by (vm_compute; reflexivity).
  assert (needsBuild (now_listener world_early) (Some (Entry decision_shop)) = false)
    as H3 by (vm_compute; reflexivity).
  split; [exact H2|].
  exact (proj1 (proj2 (hit_idempotent world_early (get "shop.example.com" "/a")
                         state_shop decision_shop H1 H2 H3))).
Defined.

(** ** The body of a flush request *)






(** ** The capacity of the cache *)

Lemma lru_remove_keys (k : string) (c : LRU) :
  (List.length (lru_remove k c) ≤ List.length c)%nat
  ∧ (NoDup c.*1 → NoDup (lru_remove k c).*1)
  ∧ ∀ k', k' ∈ (lru_remove k c).*1 → k' ∈ c.*1 ∧ k' ≠ k.
Proof.
  induction c as [|[k0 v] c (IH1 & IH2 & IH3)]; [by split; [|split; [|intros ? ?%elem_of_nil]]|].
  cbn [lru_remove]. destruct (String.eqb k0 k) eqn:E.
  - split; [cbn; lia|]. split.
    + intros [_ H]%NoDup_cons. by apply IH2.
    + intros k' [H1 H2]%IH3. split; [by right | done].
  - apply String.eqb_neq in E. split; [cbn; lia|]. split.
    + cbn. intros [Hk H]%NoDup_cons. apply NoDup_cons. split; [|by apply IH2].
      intros [? _]%IH3. done.
    + cbn. intros k' [->|H]%elem_of_cons; [split; [by left | done]|].
      apply IH3 in H as [? ?]. split; [by right | done].
Qed.

Lemma lru_remove_shorter (k : string) (c : LRU) :
  is_Some (lru_peek k c) → (List.length (lru_remove k c) < List.length c)%nat.
Proof.
  induction c as [|[k0 v] c IH]; [by intros [? ?]|].
  cbn [lru_peek lru_remove]. destruct (String.eqb k0 k).
  - intros _. pose proof (lru_remove_keys k c) as [H _]. cbn. lia.
  - intros H. apply IH in H. cbn. lia.
Qed.

Lemma lru_get_wf (k : string) (c : LRU) :
  (List.length c ≤ lru_max)%nat ∧ NoDup c.*1 →
  (List.length (lru_get k c).2 ≤ lru_max)%nat ∧ NoDup (lru_get k c).2.*1.
Proof.
  intros [Hlen Hnd]. unfold lru_get. destruct (lru_peek k c) as [v|] eqn:E; [|done].
  cbn [snd]. pose proof (lru_remove_keys k c) as (_ & H2 & H3).
  pose proof (lru_remove_shorter k c ltac:(by rewrite E)). split; [cbn; lia|].
  cbn. apply NoDup_cons. split; [|by apply H2]. by intros [_ ?]%H3.
Qed.

Lemma lru_set_wf (k : string) (v : CacheValue) (c : LRU) :
  NoDup c.*1 →
  (List.length (lru_set k v c) ≤ lru_max)%nat ∧ NoDup (lru_set k v c).*1.
Proof.
  intros Hnd. unfold lru_set. split.
  - rewrite length_take. lia.
  - rewrite fmap_take. eapply sublist_NoDup; [|apply sublist_take].
    pose proof (lru_remove_keys k c) as (_ & H2 & H3).
    cbn. apply NoDup_cons. split; [|by apply H2]. by intros [_ ?]%H3.
Qed.

Lemma lru_steps_wf (c c' : LRU) :
  lru_steps c c' → (List.length c ≤ lru_max)%nat ∧ NoDup c.*1 →
  (List.length c' ≤ lru_max)%nat ∧ NoDup c'.*1.
Proof.
  induction 1 as [|k c' _ IH|k v c' _ IH]; intros Hc; [done| |].
  - by apply lru_get_wf, IH.
  - apply lru_set_wf. by apply IH.
Qed.

Lemma lru_steps_trans (a b c : LRU) : lru_steps a b → lru_steps b c → lru_steps a c.
Proof. intros Hab. induction 1; [done | by constructor..]. Qed.

Lemma resolve_steps (w : World) (host : string) (st st' : State) (r : Result Cache)
    (l : list Event) :
  resolve w host st = (r, st', l) → lru_steps (resolveCache st) (resolveCache st').
Proof.
  destruct (needsBuild (now_listener w) (lru_peek host (resolveCache st))) eqn:Hn.
  - rewrite resolve_miss by done.
    destruct (buildCache w host (after_get host st)) as [[[c|e] st2] lv] eqn:E;
      apply buildCache_effects in E as [E _]; intros [= <- <- <-].
    + cbn [after_set resolveCache]. rewrite E. apply lru_steps_set, lru_steps_get.
      constructor.
    + rewrite E. apply lru_steps_get. constructor.
  - apply needsBuild_false in Hn as (c & Hpeek & Hfresh).
    rewrite (resolve_hit w host st c Hpeek Hfresh). intros [= <- <- <-].
    apply lru_steps_get. constructor.
Qed.

Lemma listener_steps (w : World) (req : Request) (st : State) :
  lru_steps (resolveCache st) (resolveCache (listener w req st).1).
Proof.
  destruct (reachesForward w req) eqn:Hroute.
  - rewrite listener_forward, forward_eq by done.
    destruct (resolve w (hostOf req) st) as [[[c|e] st1] l1] eqn:E;
      apply resolve_steps in E.
    + destruct (respond w req (urlOf req) c st1) as [[r2 st2] l2] eqn:E2.
      apply respond_state in E2 as ->. by rewrite finish_state.
    + by rewrite finish_state.
  - destruct (listener_try_static w req st Hroute) as (r & l & E & _).
    unfold listener. rewrite E, finish_state. constructor.
Qed.

Lemma onEnd_steps (w : World) (totalSize : Z) (body : string) (st st' : State)
    (r : Result unit) (l : list Event) :
  onEnd w totalSize body st = (r, st', l) →
  lru_steps (resolveCache st) (resolveCache st').
Proof.
  unfold onEnd.
  destruct (totalSize <=? MAX_DATA_SIZE); [|intros [= <- <- <-]; constructor].
  destruct (querystring_domain w body) as [[d|ds]|];
    [|intros [= <- <- <-]; constructor..].
  destruct (negb (JS.truthy d)); [intros [= <- <- <-]; constructor|].
  destruct (isFQDN w d); [|intros [= <- <- <-]; constructor].
  unfold bind, cache_get, cache_set, ret.
  pose proof (lru_steps_get (resolveCache st) d _ (lru_steps_refl _)) as Hget.
  destruct (lru_get d (resolveCache st)) as [[[c|]|] cache'];
    cbn [fst snd] in *; intros [= <- <- <-]; cbn [policy resolveCache]; try done.
  by apply lru_steps_set.
Qed.

Lemma serve_steps (w : World) (req : Request) (st : State) :
  lru_steps (resolveCache st) (resolveCache (serve w req st).1).
Proof.
  destruct (serve_cases w req st) as [->|(ts & body & r & st2 & l2 & E & ->)];
    [apply listener_steps|].
  cbn [fst]. eapply lru_steps_trans; [apply listener_steps|].
  by eapply onEnd_steps.
Qed.

Lemma reachable_bounded (st : State) :
  reachable st →
  (List.length (resolveCache st) ≤ lru_max)%nat ∧ NoDup (resolveCache st).*1.
Proof.
  induction 1 as [|w req st _ IH].
  - split; [cbn; lia | constructor].
  - eapply lru_steps_wf; [apply serve_steps | done].
Qed.

(** X18.  The cache of a process never holds more than 10000 slots and
    never two slots under one key: every change of the cache is a [get] or
    a [set] of the bounded cache, also the changes by the [/flushcache]
    callbacks. *)
Theorem cache_bounded (w : World) (req : Request) (st : State) :
  reachable st →
  lru_steps (resolveCache st) (resolveCache (serve w req st).1)
  ∧ Z.of_nat (List.length (resolveCache st)) ≤ 10000
  ∧ NoDup (resolveCache st).*1
  ∧ ∀ k v, (k, v) ∈ resolveCache st → lru_peek k (resolveCache st) = Some v.
Proof.
  intros [Hlen Hnd]%reachable_bounded. split; [apply serve_steps|].
  split; [unfold lru_max in Hlen; lia|]. split; [done|]. clear Hlen.
  intros k v. induction (resolveCache st) as [|[k0 v0] c IH]; [by intros ?%elem_of_nil|].
  cbn in Hnd. apply NoDup_cons in Hnd as [Hk0 Hnd].
  cbn [lru_peek]. intros [[= -> ->]|Hin]%elem_of_cons.
  - by rewrite String.eqb_refl.
  - destruct (String.eqb k0 k) eqn:E.
    + apply String.eqb_eq in E as ->. destruct Hk0.
      apply list_elem_of_fmap. by exists (k, v).
    + by apply IH.
Qed.

Lemma cache_bounded_witness :
  reachable state_shop ∧ Z.of_nat (List.length (resolveCache state_shop)) ≤ 10000.
Proof.
  assert (reachable state_shop) as H1 by (apply reachable_serve, reachable_init).
  split; [exact H1|].
  exact (proj1 (proj2 (cache_bounded world_early (get "shop.example.com" "/")
                         state_shop H1))).
Defined.

(** ** The effect of a flush *)

Lemma onEnd_eq (w : World) (totalSize : Z) (body : string) (st : State) :
  totalSize ≤ MAX_DATA_SIZE →
  onEnd w totalSize body st
  = match querystring_domain w body with
    | Some (inl d) =>
        if JS.truthy d && isFQDN w d then
          match lru_peek d (resolveCache st) with
          | Some (Entry _) =>
              (Ok tt, after_set d Sentinel (after_get d st), [EvCacheSet d Sentinel])
          | Some Sentinel | None => (Ok tt, after_get d st, [])
          end
        else (Ok tt, st, [])
    | Some (inr _) =>
        (Throw {| message := Some "Expected a string but received a Array" |}, st, [])
    | None => (Ok tt, st, [])
    end.
Proof.
  intros Hsize. unfold onEnd. apply Z.leb_le in Hsize. rewrite Hsize.
  destruct (querystring_domain w body) as [[d|ds]|]; [|done..].
  destruct (JS.truthy d); cbn [negb andb]; [|done].
  destruct (isFQDN w d); [|done].
  unfold bind, cache_get, cache_set, ret, after_set, after_get.
  pose proof (lru_get_fst d (resolveCache st)) as Hfst.
  destruct (lru_get d (resolveCache st)) as [v cache'] eqn:E. cbn [fst snd] in *.
  subst v. by destruct (lru_peek d (resolveCache st)) as [[c|]|].
Qed.

Lemma serve_flush_eq (w : World) (req : Request) (st : State) :
  reachesFlush w req = true → req_method req = "POST" → flush_throws w req = false →
  serve w req st
  = match flush_target w req with
    | Some d =>
        match lru_peek d (resolveCache st) with
        | Some (Entry _) =>
            (after_set d Sentinel (after_get d st),
             cache_cleared ++ [EvCacheSet d Sentinel])
        | Some Sentinel | None => (after_get d st, cache_cleared)
        end
    | None => (st, cache_cleared)
    end.
Proof.
  intros Hroute Hpost Hthrow.
  destruct (serve_flush_post w req st Hroute Hpost) as [_ ->].
  unfold flush_target, flush_domain. unfold flush_throws in Hthrow.
  destruct (onData (req_chunks req) 0 "") as [[totalSize body] []] eqn:Hdata; [done|].
  assert (totalSize ≤ MAX_DATA_SIZE) as Hsize.
  { eapply onData_within; [exact Hdata | by vm_compute]. }
  rewrite (onEnd_eq _ _ _ _ Hsize).
  destruct (querystring_domain w body) as [[d|ds]|]; [|done|by rewrite app_nil_r].
  destruct (JS.truthy d && isFQDN w d); [|by rewrite app_nil_r].
  destruct (lru_peek d (resolveCache st)) as [[c|]|]; by rewrite ?app_nil_r.
Qed.

Lemma lru_peek_set_ne (k k' : string) (v : CacheValue) (c : LRU) :
  k ≠ k' → (List.length c ≤ lru_max)%nat → is_Some (lru_peek k c) →
  lru_peek k' (lru_set k v c) = lru_peek k' c.
Proof.
  intros Hne Hlen Hk. unfold lru_set.
  pose proof (lru_remove_shorter k c Hk) as Hshort.
  rewrite take_ge by (cbn; lia).
  rewrite lru_peek_cons. apply String.eqb_neq in Hne as Hne'. rewrite Hne'.
  by apply lru_peek_remove_ne.
Qed.

(** X19.  A [POST] to [/flushcache] whose callback returns changes the
    lookup of no key but its target, and that one only from a decision to
    the sentinel: an absent slot stays absent, a sentinel stays a sentinel,
    no other host is evicted, and the policy variables are kept. *)
Theorem flush_effect (w : World) (req : Request) (st : State) :
  reachable st → reachesFlush w req = true → req_method req = "POST" →
  flush_throws w req = false →
  policy (serve w req st).1 = policy st
  ∧ ∀ k, lru_peek k (resolveCache (serve w req st).1)
         = match lru_peek k (resolveCache st) with
           | Some (Entry c) =>
               if decide (flush_target w req = Some k) then Some Sentinel
               else Some (Entry c)
           | other => other
           end.
Proof.
  intros Hst Hroute Hpost Hthrow. rewrite (serve_flush_eq _ _ _ Hroute Hpost Hthrow).
  assert (∀ k, match lru_peek k (resolveCache st) with
               | Some (Entry c) => Some (Entry c)
               | other => other
               end = lru_peek k (resolveCache st)) as Hid.
  { intros k. by destruct (lru_peek k (resolveCache st)) as [[c|]|]. }
  destruct (flush_target w req) as [d|].
  2: { split; [done|]. intros k. cbn [fst]. rewrite <- (Hid k) at 1.
       destruct (lru_peek k (resolveCache st)) as [[c|]|]; [|done..].
       by rewrite decide_False. }
  destruct (lru_peek d (resolveCache st)) as [[c|]|] eqn:Hd.
  - split; [done|]. intros k. cbn [fst after_set after_get resolveCache].
    destruct (decide (d = k)) as [<-|Hne].
    + rewrite lru_peek_set, Hd. by rewrite decide_True.
    + apply reachable_bounded in Hst.
      destruct (lru_get_wf d _ Hst) as [Hlen _].
      rewrite lru_peek_set_ne, lru_peek_get; [|done|done|].
      * destruct (lru_peek k (resolveCache st)) as [[c'|]|]; [|done..].
        rewrite decide_False; [done | congruence].
      * rewrite lru_peek_get, Hd. done.
  - split; [done|]. intros k. cbn [fst after_get resolveCache]. rewrite lru_peek_get.
    destruct (lru_peek k (resolveCache st)) as [[c'|]|] eqn:Hk; [|done..].
    rewrite decide_False; [done|]. intros [= ->]. congruence.
  - split; [done|]. intros k. cbn [fst after_get resolveCache]. rewrite lru_peek_get.
    destruct (lru_peek k (resolveCache st)) as [[c'|]|] eqn:Hk; [|done..].
    rewrite decide_False; [done|]. intros [= ->]. congruence.
Qed.

Lemma flush_effect_witness :
  reachable state_shop
  ∧ flush_target world_early (flush "POST" "domain=shop.example.com")
    = Some "shop.example.com"
  ∧ lru_peek "shop.example.com"
      (resolveCache (serve world_early (flush "POST" "domain=shop.example.com")
                       state_shop).1)
    = Some Sentinel.
Proof.
  assert (reachable state_shop) as H1 by (apply reachable_serve, reachable_init).
  assert (reachesFlush world_early (flush "POST" "domain=shop.example.com") = true)
    as H2 by (vm_compute; reflexivity).
  assert (flush_throws world_early (flush "POST" "domain=shop.example.com") = false)
    as H3 by (vm_compute; reflexivity).
  assert (flush_target world_early (flush "POST" "domain=shop.example.com")
          = Some "shop.example.com") as H4 by (vm_compute; reflexivity).
  assert (lru_peek "shop.example.com" (resolveCache state_shop)
          = Some (Entry decision_shop)) as H5 by (vm_compute; reflexivity).
  split; [exact H1|]. split; [exact H4|].
  rewrite (proj2 (flush_effect world_early (flush "POST" "domain=shop.example.com")
                    state_shop H1 H2 eq_refl H3) "shop.example.com").
  rewrite H5, H4. reflexivity.
Defined.

Lemma lru_get_set (k : string) (v : CacheValue) (c : LRU) :
  (lru_get k (lru_set k v c)).2 = lru_set k v c.
Proof.
  unfold lru_set. destruct lru_max_pos as [n ->]. cbn [take].
  rewrite lru_get_head; [done|]. apply lru_peek_take_None, lru_peek_remove.
Qed.

(** X20.  Flushing is idempotent: the same [POST] to [/flushcache] again
    is answered as before and leaves the state as the first one left it. *)
Theorem flush_idempotent (w : World) (req : Request) (st : State) :
  reachesFlush w req = true → req_method req = "POST" → flush_throws w req = false →
  serve w req (serve w req st).1 = ((serve w req st).1, cache_cleared).
Proof.
  intros Hroute Hpost Hthrow.
  rewrite (serve_flush_eq w req st Hroute Hpost Hthrow).
  destruct (flush_target w req) as [d|] eqn:Ht.
  2: { cbn [fst]. by rewrite (serve_flush_eq w req st Hroute Hpost Hthrow), Ht. }
  assert (∀ sta, lru_peek d (resolveCache sta) ≠ None →
                 (∀ c, lru_peek d (resolveCache sta) ≠ Some (Entry c)) →
                 after_get d sta = sta →
                 serve w req sta = (sta, cache_cleared)) as Hsent.
  { intros sta Hsome Hno Hsame.
    rewrite (serve_flush_eq w req sta Hroute Hpost Hthrow), Ht.
    destruct (lru_peek d (resolveCache sta)) as [[c|]|]; [by destruct (Hno c) | | done].
    by rewrite Hsame. }
  destruct (lru_peek d (resolveCache st)) as [[c|]|] eqn:Hd; cbn [fst].
  - apply Hsent.
    + cbn [after_set resolveCache]. by rewrite lru_peek_set.
    + intros c'. cbn [after_set resolveCache]. by rewrite lru_peek_set.
    + unfold after_get at 1. cbn [after_set resolveCache policy].
      by rewrite lru_get_set.
  - apply Hsent.
    + cbn [after_get resolveCache]. by rewrite lru_peek_get, Hd.
    + intros c'. cbn [after_get resolveCache]. by rewrite lru_peek_get, Hd.
    + apply after_get_get.
  - rewrite (after_get_None _ _ Hd).
    rewrite (serve_flush_eq w req st Hroute Hpost Hthrow), Ht, Hd.
    by rewrite (after_get_None _ _ Hd).
Qed.

Lemma flush_idempotent_witness :
  serve world_early (flush "POST" "domain=shop.example.com")
    (serve world_early (flush "POST" "domain=shop.example.com") state_shop).1
  = ((serve world_early (flush "POST" "domain=shop.example.com") state_shop).1,
     cache_cleared).
Proof.
  assert (reachesFlush world_early (flush "POST" "domain=shop.example.com") = true)
    as H1 by (vm_compute; reflexivity).
  assert (flush_throws world_early (flush "POST" "domain=shop.example.com") = false)
    as H2 by (vm_compute; reflexivity).
  exact (flush_idempotent world_early (flush "POST" "domain=shop.example.com")
           state_shop H1 eq_refl H2).
Defined.

(** ** The policy variables *)

(** X21.  The policy variables are set by the first call of
    [isHostBlacklisted] and never again: after any call the maps are
    there, and a later call, whatever the environment has become by then,
    leaves the variables as they are and answers from the maps of the
    first call. *)
Theorem isHostBlacklisted_init_once (e e' : Env) (h h' : string) (p : Policy) :
  let p1 := (isHostBlacklisted e h p).2 in
  blacklistMap p1 ≠ None
  ∧ (isHostBlacklisted e' h' p1).2 = p1
  ∧ (isHostBlacklisted e' h' p1).1 = (isHostBlacklisted e h' p).1
  ∧ (blacklistMap p ≠ None → p1 = p).
Proof.
  cbv zeta. rewrite isHostBlacklisted_snd. split; [|split; [|split]].
  - unfold initPolicy. by destruct (blacklistMap p) eqn:E; [rewrite E|].
  - by rewrite isHostBlacklisted_snd, initPolicy_idem.
  - unfold isHostBlacklisted. by rewrite initPolicy_idem.
  - unfold initPolicy. by destruct (blacklistMap p).
Qed.

(** X22.  [pruneCache] empties the cache and keeps the policy variables:
    the next request that reaches the forwarding code runs [buildCache]
    whatever was cached before, and a decision made then takes its deny
    flag from the policy variables as they were, which are not read again
    from the environment once they are set. *)
Theorem pruneCache_rebuilds (w : World) (req : Request) (st : State) :
  reachesForward w req = true →
  (∀ k, lru_peek k (resolveCache (pruneCache st)) = None)
  ∧ policy (pruneCache st) = policy st
  ∧ match buildCache w (hostOf req) (pruneCache st) with
    | (Ok c', st2, lv) =>
        blacklisted c' = (isHostBlacklisted (env w) (hostOf req) (policy st)).1
        ∧ (blacklistMap (policy st) ≠ None → policy st2 = policy st)
        ∧ ∃ r lr,
            listener w req (pruneCache st)
            = finish (r, after_set (hostOf req) (Entry c') st2,
                      cors_of w req ++ lv ++ [EvCacheSet (hostOf req) (Entry c')] ++ lr)
    | (Throw e, st2, lv) =>
        listener w req (pruneCache st)
        = (pruneCache st, cors_of w req ++ lv ++ error_response e ++ [EvEnd])
    end.
Proof.
  intros Hroute. split; [done|]. split; [done|].
  assert (needsBuild (now_listener w)
            (lru_peek (hostOf req) (resolveCache (pruneCache st))) = true) as Hmiss by done.
  pose proof (listener_rebuild w req (pruneCache st) Hroute Hmiss) as H.
  rewrite (after_get_None (hostOf req) (pruneCache st) eq_refl) in H.
  destruct (buildCache w (hostOf req) (pruneCache st)) as [[[c'|e] st2] lv] eqn:Hb.
  - destruct H as (r & lr & _ & Hl).
    apply buildCache_Ok
      in Hb as (_ & _ & _ & a & b & rec & _ & _ & _ & _ & _ & _ & -> & -> & _).
    split; [done|]. split; [|by exists r, lr].
    cbn [policy pruneCache]. rewrite isHostBlacklisted_snd. unfold initPolicy.
    by destruct (blacklistMap (policy st)).
  - destruct H as [-> ->]. cbn [finish]. by rewrite <- app_assoc.
Qed.

Lemma pruneCache_rebuilds_witness :
  reachesForward world_last (get "shop.example.com" "/") = true
  ∧ lru_peek "shop.example.com" (resolveCache (pruneCache state_shop)) = None.
Proof.
  assert (reachesForward world_last (get "shop.example.com" "/") = true) as H1
    by (vm_compute; reflexivity).
  split; [exact H1|].
  exact (proj1 (pruneCache_rebuilds world_last (get "shop.example.com" "/")
                  state_shop H1) "shop.example.com").
Defined.

(** ** ACME challenges *)

(** X23.  A request under [/.well-known/acme-challenge/] is answered from
    the certificate client before anything else is looked at: with 200 and
    the challenge payload as [application/octet-stream], or with 404 when
    the client has no challenge callback, whatever the [Host] header (also
    a missing one), the method, the control-plane settings and the cache;
    the module variables stay as they are. *)
Theorem acme_challenge (w : World) (req : Request) (st : State) :
  JS.startsWith acme_prefix (urlOf req) = true →
  reachesForward w req = false ∧ reachesFlush w req = false
  ∧ serve w req st
    = (st, match challengeCallbacks w with
           | Some payload =>
               [EvWriteHead 200 [("content-type", "application/octet-stream")];
                EvWrite payload; EvEnd]
           | None => [EvWriteHead 404 []; EvEnd]
           end).
Proof.
  intros Hacme. unfold reachesForward, reachesFlush. rewrite Hacme.
  split; [done|]. split; [done|].
  unfold serve, listener, listener_try. fold (urlOf req). rewrite Hacme.
  by destruct (challengeCallbacks w).
Qed.

Lemma acme_challenge_witness :
  JS.startsWith acme_prefix
    (urlOf {| req_url := Some "/.well-known/acme-challenge/token"; req_host := None;
              req_method := "GET"; req_chunks := [] |}) = true
  ∧ serve world_early
      {| req_url := Some "/.well-known/acme-challenge/token"; req_host := None;
         req_method := "GET"; req_chunks := [] |} state_shop
    = (state_shop, [EvWriteHead 404 []; EvEnd]).
Proof.
  assert (JS.startsWith acme_prefix
            (urlOf {| req_url := Some "/.well-known/acme-challenge/token";
                      req_host := None; req_method := "GET"; req_chunks := [] |})
          = true) as H1 by (vm_compute; reflexivity).
  split; [exact H1|].
  exact (proj2 (proj2 (acme_challenge world_early _ state_shop H1))).
Defined.
